(** * Min-max heap ([mmheap.h]): a shallow embedding and its properties

    The heap lives in a caller-owned C++ array; the functions of the
    [_mmheap] and [mmheap] namespaces are embedded below over
    [list Z] (the allocated storage, with the template parameter
    [DataType] instantiated to integers compared with [<]) and over [Z]
    indices that wrap around at [2^64], [size_t] being taken as wide as
    the [uint64_t] of [log_2].

    The first part holds the definitions: the functions of the header,
    then the notions the properties are stated with. The second part
    proves the properties; the min and max variants of the repair
    primitives are related through negation of the array, so that each
    argument is made once, for the min variant, over an order whose
    polarity is a parameter. *)

From Stdlib Require Import String.
From Stdlib Require Import ZArith List Bool Lia Permutation Sorted.
Import ListNotations.
Local Open Scope Z_scope.

(** ** Machine integers *)

Definition word_modulus : Z := 2 ^ 64.

(** Reduction of an arithmetic result to [size_t] / [uint64_t]. *)
Definition wrap (x : Z) : Z := x mod word_modulus.

(** ** Index navigation ([_mmheap] namespace) *)

Definition parent (i : Z) : Z := wrap (i - 1) / 2.
Definition has_parent (i : Z) : bool := 0 <? i.
Definition left (i : Z) : Z := wrap (2 * i + 1).
Definition right (i : Z) : Z := wrap (2 * i + 2).
Definition gparent (i : Z) : Z := parent (parent i).
Definition has_gparent (i : Z) : bool := 2 <? i.
Definition child (i c : Z) : bool := (c =? left i) || (c =? right i).

(** The de Bruijn lookup table of [log_2]. *)
Definition tab64 : list Z :=
  [63;  0; 58;  1; 59; 47; 53;  2;
   60; 39; 48; 27; 54; 33; 42;  3;
   61; 51; 37; 40; 49; 18; 28; 20;
   55; 30; 34; 11; 43; 14; 22;  4;
   62; 57; 46; 52; 38; 26; 32; 41;
   50; 36; 17; 19; 29; 10; 13; 21;
   56; 45; 25; 31; 35; 16;  9; 12;
   44; 24; 15;  8; 23;  7;  6;  5].

(** The six [i |= i >> s] statements of [log_2]. *)
Definition smear (i : Z) : Z :=
  let i := Z.lor i (Z.shiftr i 1) in
  let i := Z.lor i (Z.shiftr i 2) in
  let i := Z.lor i (Z.shiftr i 4) in
  let i := Z.lor i (Z.shiftr i 8) in
  let i := Z.lor i (Z.shiftr i 16) in
  let i := Z.lor i (Z.shiftr i 32) in
  i.

Definition log_2 (i : Z) : Z :=
  let i := smear i in
  nth (Z.to_nat (Z.shiftr (wrap (wrap (i - Z.shiftr i 1) * 0x07EDD5E59A4E28C2)) 58))
      tab64 0.

(** [i > 0 ? log_2(++i) % 2 == 0 : true] *)
Definition min_level (i : Z) : bool :=
  if 0 <? i then log_2 (wrap (i + 1)) mod 2 =? 0 else true.

(** ** The array

    [heap_array] is the allocated storage; its length is the capacity.
    C++ leaves an access outside the allocation undefined: the model is
    total there (a read gives [0], a write is dropped) and every theorem
    below is stated for accesses inside the allocation. *)

Definition rd (heap_array : list Z) (i : Z) : Z := nth (Z.to_nat i) heap_array 0.

Fixpoint upd (l : list Z) (n : nat) (v : Z) : list Z :=
  match l, n with
  | [], _ => []
  | _ :: t, O => v :: t
  | h :: t, S n => h :: upd t n v
  end.

Definition wr (heap_array : list Z) (i v : Z) : list Z := upd heap_array (Z.to_nat i) v.

(** [std::swap(heap_array[i], heap_array[j])] *)
Definition swap (heap_array : list Z) (i j : Z) : list Z :=
  wr (wr heap_array i (rd heap_array j)) j (rd heap_array i).

(** ** Extremal child and grandchild lookups *)

Definition min_child (heap_array : list Z) (i right_index : Z) : bool * Z :=
  if left i <=? right_index then
    let m := left i in
    let m := if (right i <=? right_index) && (rd heap_array (right i) <? rd heap_array m)
             then right i else m in
    (true, m)
  else (false, 0).

Definition min_gchild (heap_array : list Z) (i right_index : Z) : bool * Z :=
  let l := left i in
  let r := right i in
  if left l <=? right_index then
    let m := left l in
    let m := if (right l <=? right_index) && (rd heap_array (right l) <? rd heap_array m)
             then right l else m in
    let m := if (left r <=? right_index) && (rd heap_array (left r) <? rd heap_array m)
             then left r else m in
    let m := if (right r <=? right_index) && (rd heap_array (right r) <? rd heap_array m)
             then right r else m in
    (true, m)
  else (false, 0).

Definition min_child_or_gchild (heap_array : list Z) (i right_index : Z) : bool * Z :=
  let m := min_child heap_array i right_index in
  if fst m then
    let gm := min_gchild heap_array i right_index in
    (fst m, if fst gm && (rd heap_array (snd gm) <? rd heap_array (snd m))
            then snd gm else snd m)
  else m.

Definition max_child (heap_array : list Z) (i right_index : Z) : bool * Z :=
  if left i <=? right_index then
    let m := left i in
    let m := if (right i <=? right_index) && (rd heap_array m <? rd heap_array (right i))
             then right i else m in
    (true, m)
  else (false, 0).

Definition max_gchild (heap_array : list Z) (i right_index : Z) : bool * Z :=
  let l := left i in
  let r := right i in
  if left l <=? right_index then
    let m := left l in
    let m := if (right l <=? right_index) && (rd heap_array m <? rd heap_array (right l))
             then right l else m in
    let m := if (left r <=? right_index) && (rd heap_array m <? rd heap_array (left r))
             then left r else m in
    let m := if (right r <=? right_index) && (rd heap_array m <? rd heap_array (right r))
             then right r else m in
    (true, m)
  else (false, 0).

Definition max_child_or_gchild (heap_array : list Z) (i right_index : Z) : bool * Z :=
  let m := max_child heap_array i right_index in
  if fst m then
    let gm := max_gchild heap_array i right_index in
    (fst m, if fst gm && (rd heap_array (snd m) <? rd heap_array (snd gm))
            then snd gm else snd m)
  else m.

(** ** Repair primitives

    Every [while] loop is a fixpoint on a bound [fuel] on the number of
    iterations it may still run; [None] means the bound was reached
    with the loop condition still true. *)

Fixpoint sift_down_min_loop (fuel : nat) (heap_array : list Z)
    (sift_index right_index : Z) (sift_more : bool) {struct fuel} : option (list Z) :=
  if sift_more && (left sift_index <=? right_index) then
    match fuel with
    | O => None
    | S fuel =>
      let m := snd (min_child_or_gchild heap_array sift_index right_index) in
      if child sift_index m then
        if rd heap_array m <? rd heap_array sift_index then
          sift_down_min_loop fuel (swap heap_array m sift_index) sift_index right_index false
        else sift_down_min_loop fuel heap_array sift_index right_index false
      else
        if rd heap_array m <? rd heap_array sift_index then
          let a1 := swap heap_array m sift_index in
          let a2 := if rd a1 (parent m) <? rd a1 m then swap a1 m (parent m) else a1 in
          sift_down_min_loop fuel a2 m right_index true
        else sift_down_min_loop fuel heap_array sift_index right_index false
    end
  else Some heap_array.

Definition sift_down_min (fuel : nat) (heap_array : list Z) (sift_index right_index : Z) :=
  sift_down_min_loop fuel heap_array sift_index right_index true.

Fixpoint sift_down_max_loop (fuel : nat) (heap_array : list Z)
    (sift_index right_index : Z) (sift_more : bool) {struct fuel} : option (list Z) :=
  if sift_more && (left sift_index <=? right_index) then
    match fuel with
    | O => None
    | S fuel =>
      let m := snd (max_child_or_gchild heap_array sift_index right_index) in
      if child sift_index m then
        if rd heap_array sift_index <? rd heap_array m then
          sift_down_max_loop fuel (swap heap_array m sift_index) sift_index right_index false
        else sift_down_max_loop fuel heap_array sift_index right_index false
      else
        if rd heap_array sift_index <? rd heap_array m then
          let a1 := swap heap_array m sift_index in
          let a2 := if rd a1 m <? rd a1 (parent m) then swap a1 m (parent m) else a1 in
          sift_down_max_loop fuel a2 m right_index true
        else sift_down_max_loop fuel heap_array sift_index right_index false
    end
  else Some heap_array.

Definition sift_down_max (fuel : nat) (heap_array : list Z) (sift_index right_index : Z) :=
  sift_down_max_loop fuel heap_array sift_index right_index true.

Definition sift_down (fuel : nat) (heap_array : list Z) (sift_index right_index : Z) :=
  if min_level sift_index then sift_down_min fuel heap_array sift_index right_index
  else sift_down_max fuel heap_array sift_index right_index.

Fixpoint bubble_up_min_loop (fuel : nat) (heap_array : list Z)
    (bubble_index : Z) (finished : bool) {struct fuel} : option (list Z) :=
  if negb finished && has_gparent bubble_index then
    match fuel with
    | O => None
    | S fuel =>
      if rd heap_array bubble_index <? rd heap_array (gparent bubble_index) then
        bubble_up_min_loop fuel (swap heap_array bubble_index (gparent bubble_index))
                           (gparent bubble_index) false
      else bubble_up_min_loop fuel heap_array bubble_index true
    end
  else Some heap_array.

Definition bubble_up_min (fuel : nat) (heap_array : list Z) (bubble_index : Z) :=
  bubble_up_min_loop fuel heap_array bubble_index false.

Fixpoint bubble_up_max_loop (fuel : nat) (heap_array : list Z)
    (bubble_index : Z) (finished : bool) {struct fuel} : option (list Z) :=
  if negb finished && has_gparent bubble_index then
    match fuel with
    | O => None
    | S fuel =>
      if rd heap_array (gparent bubble_index) <? rd heap_array bubble_index then
        bubble_up_max_loop fuel (swap heap_array bubble_index (gparent bubble_index))
                           (gparent bubble_index) false
      else bubble_up_max_loop fuel heap_array bubble_index true
    end
  else Some heap_array.

Definition bubble_up_max (fuel : nat) (heap_array : list Z) (bubble_index : Z) :=
  bubble_up_max_loop fuel heap_array bubble_index false.

Definition bubble_up (fuel : nat) (heap_array : list Z) (bubble_index : Z) : option (list Z) :=
  if min_level bubble_index then
    if has_parent bubble_index
       && (rd heap_array (parent bubble_index) <? rd heap_array bubble_index) then
      bubble_up_max fuel (swap heap_array bubble_index (parent bubble_index))
                    (parent bubble_index)
    else bubble_up_min fuel heap_array bubble_index
  else
    if has_parent bubble_index
       && (rd heap_array bubble_index <? rd heap_array (parent bubble_index)) then
      bubble_up_min fuel (swap heap_array bubble_index (parent bubble_index))
                    (parent bubble_index)
    else bubble_up_max fuel heap_array bubble_index.

(** ** Public operations ([mmheap] namespace) *)

(** The exception classes thrown, with their [what()] text. *)
Inductive exn : Type :=
| runtime_error (what : string)
| range_error (what : string).

(** A call returns, throws, or is still running when the fuel is spent. *)
Inductive outcome (A : Type) : Type :=
| Return (x : A)
| Throw (e : exn)
| Unfinished.
Arguments Return {A} x.
Arguments Throw {A} e.
Arguments Unfinished {A}.

Definition lift {A B : Type} (o : option A) (k : A -> outcome B) : outcome B :=
  match o with
  | Some x => k x
  | None => Unfinished
  end.

Definition bind {A B : Type} (o : outcome A) (k : A -> outcome B) : outcome B :=
  match o with
  | Return x => k x
  | Throw e => Throw e
  | Unfinished => Unfinished
  end.

(** The [for] loop of [make_heap]: [current] runs down to [0] inclusive. *)
Fixpoint make_heap_loop (fuel inner : nat) (heap_array : list Z)
    (current size : Z) (finished : bool) {struct fuel} : option (list Z) :=
  if negb finished then
    match fuel with
    | O => None
    | S fuel =>
      match sift_down inner heap_array current (wrap (size - 1)) with
      | None => None
      | Some a1 =>
        make_heap_loop fuel inner a1 (wrap (current - 1)) size (current =? 0)
      end
    end
  else Some heap_array.

Definition make_heap (fuel : nat) (heap_array : list Z) (size : Z) : option (list Z) :=
  if 1 <? size then
    make_heap_loop fuel fuel heap_array (parent (wrap (size - 1))) size false
  else Some heap_array.

(** Returns the array and the updated [count]. *)
Definition heap_insert (fuel : nat) (value : Z) (heap_array : list Z) (count max_size : Z)
  : outcome (list Z * Z) :=
  if count <? max_size then
    let a1 := wr heap_array count value in
    let count := wrap (count + 1) in
    lift (bubble_up fuel a1 (wrap (count - 1))) (fun a2 => Return (a2, count))
  else Throw (runtime_error "Cannot insert into heap - allocated size is full.").

Definition heap_max (heap_array : list Z) (count : Z) : outcome Z :=
  if count <? 1 then Throw (runtime_error "Cannot get max value in empty heap.")
  else
    let m := max_child heap_array 0 (wrap (count - 1)) in
    Return (if fst m then rd heap_array (snd m) else rd heap_array 0).

Definition heap_min (heap_array : list Z) (count : Z) : outcome Z :=
  if count <? 1 then Throw (runtime_error "Cannot get min value in empty heap.")
  else Return (rd heap_array 0).

(** Returns the pair handed back to the caller, the array and [count]. *)
Definition heap_insert_circular (fuel : nat) (value : Z) (heap_array : list Z)
    (count max_size : Z) : outcome ((bool * Z) * list Z * Z) :=
  let max_value := 0 in
  let overflowed := if count =? max_size then true else false in
  if negb overflowed then
    bind (heap_insert fuel value heap_array count max_size)
         (fun r => Return ((overflowed, max_value), fst r, snd r))
  else
    let m := if 1 <? max_size
             then snd (max_child heap_array 0 (wrap (max_size - 1))) else 0 in
    let max_value := rd heap_array m in
    if value <? max_value then
      let a1 := wr heap_array m value in
      if 1 <? max_size then
        let a2 := if value <? rd a1 0 then swap a1 0 m else a1 in
        lift (sift_down fuel a2 m (wrap (max_size - 1)))
             (fun a3 => Return ((overflowed, max_value), a3, count))
      else Return ((overflowed, max_value), a1, count)
    else
      let max_value := value in
      Return ((overflowed, max_value), heap_array, count).

(** A [const DataType&] argument: a temporary of the caller, or an
    element of the heap array itself (as [heap_remove_at_index] passes). *)
Inductive cref : Type :=
| Temp (v : Z)
| Elem (i : Z).

Definition deref (heap_array : list Z) (r : cref) : Z :=
  match r with
  | Temp v => v
  | Elem i => rd heap_array i
  end.

(** Returns the old value and the array. *)
Definition heap_replace_at_index (fuel : nat) (new_value : cref) (index : Z)
    (heap_array : list Z) (count : Z) : outcome (Z * list Z) :=
  if count =? 0 then Throw (runtime_error "Cannot replace value in empty heap.")
  else if count <? index then Throw (range_error "Index beyond end of heap.")
  else
    let old_value := rd heap_array index in
    let a1 := wr heap_array index (deref heap_array new_value) in
    let repaired :=
      if min_level index then
        if deref a1 new_value <? old_value then bubble_up_min fuel a1 index
        else
          match (if has_parent index && (rd a1 (parent index) <? deref a1 new_value)
                 then bubble_up fuel a1 index else Some a1) with
          | None => None
          | Some a2 => sift_down fuel a2 index (wrap (count - 1))
          end
      else
        if old_value <? deref a1 new_value then bubble_up_max fuel a1 index
        else
          match (if has_parent index && (deref a1 new_value <? rd a1 (parent index))
                 then bubble_up fuel a1 index else Some a1) with
          | None => None
          | Some a2 => sift_down fuel a2 index (wrap (count - 1))
          end in
    lift repaired (fun a3 => Return (old_value, a3)).

(** Returns the removed value, the array and the updated [count]. *)
Definition heap_remove_at_index (fuel : nat) (index : Z) (heap_array : list Z) (count : Z)
  : outcome (Z * list Z * Z) :=
  if count =? 0 then Throw (runtime_error "Cannot remove value in empty heap.")
  else if count <? index then Throw (range_error "Index beyond end of heap.")
  else
    bind (heap_replace_at_index fuel (Elem (wrap (count - 1))) index heap_array count)
         (fun r => Return (fst r, snd r, wrap (count - 1))).

Definition heap_remove_min (fuel : nat) (heap_array : list Z) (count : Z)
  : outcome (Z * list Z * Z) :=
  if count =? 0 then Throw (runtime_error "Cannot remove from empty heap.")
  else
    let value := rd heap_array 0 in
    let a1 := swap heap_array 0 (wrap (count - 1)) in
    let count := wrap (count - 1) in
    if 0 <? count then
      lift (sift_down fuel a1 0 (wrap (count - 1))) (fun a2 => Return (value, a2, count))
    else Return (value, a1, count).

Definition heap_remove_max (fuel : nat) (heap_array : list Z) (count : Z)
  : outcome (Z * list Z * Z) :=
  if count =? 0 then Throw (runtime_error "Cannot remove from empty heap.")
  else
    let value := rd heap_array 0 in
    let m := max_child heap_array 0 (wrap (count - 1)) in
    let value := if fst m then rd heap_array (snd m) else value in
    let m2 := if fst m then snd m else 0 in
    bind (heap_remove_at_index fuel m2 heap_array count)
         (fun r => Return (value, snd (fst r), snd r)).

(** The [while] loop of [is_heap]. *)
Fixpoint is_heap_loop (fuel : nat) (array : list Z) (count i : Z) (result : bool)
    {struct fuel} : option bool :=
  if result && has_parent i then
    match fuel with
    | O => None
    | S fuel =>
      let sub_root := parent i in
      let value := rd array sub_root in
      let result :=
        if min_level sub_root then
          let min_value := min_child_or_gchild array sub_root (wrap (count - 1)) in
          result && (negb (fst min_value)
                     || (value <? rd array (snd min_value))
                     || (value =? rd array (snd min_value)))
        else
          let max_value := max_child_or_gchild array sub_root (wrap (count - 1)) in
          result && (negb (fst max_value)
                     || (rd array (snd max_value) <? value)
                     || (rd array (snd max_value) =? value)) in
      is_heap_loop fuel array count (wrap (i - 1)) result
    end
  else Some result.

Definition is_heap (fuel : nat) (array : list Z) (count : Z) : option bool :=
  if 1 <? count then is_heap_loop fuel array count (wrap (count - 1)) true
  else Some true.

(** ** Notions used to state and prove the properties *)

(** The top [t] bits below and including bit [k] are set and [k] is
    the highest set bit. *)
Definition top_ones (k t x : Z) : Prop :=
  0 < x /\ Z.log2 x = k /\
  forall j, 0 <= j -> k - t < j <= k -> Z.testbit x j = true.

(** The multiply-shift-lookup is checked on the 64 possible smeared words. *)
Definition debruijn_ok (k : nat) : bool :=
  let i := Z.ones (Z.of_nat k + 1) in
  nth (Z.to_nat (Z.shiftr (wrap (wrap (i - Z.shiftr i 1) * 0x07EDD5E59A4E28C2)) 58))
      tab64 0 =? Z.of_nat k.

(** Indices below [index_limit] have all four grandchildren
    representable in 64 bits. *)
Definition index_limit : Z := 2 ^ 62.

(** The array with every element negated: what is a maximum in [a] is
    a minimum in [neg a]. *)
Definition neg (a : list Z) : list Z := map Z.opp a.

(** [neg] on the result of a loop. *)
Definition oneg (o : option (list Z)) : option (list Z) := option_map neg o.

(** [desc i j]: index [j] lies in the subtree rooted at index [i]. *)
Inductive desc (i : Z) : Z -> Prop :=
| desc_self : desc i i
| desc_l j : desc i j -> desc i (2 * j + 1)
| desc_r j : desc i j -> desc i (2 * j + 2).

(** [j] is the left or the right child of [i]. *)
Definition is_child (i j : Z) : Prop := j = 2 * i + 1 \/ j = 2 * i + 2.

(** [j] is one of the four grandchildren of [i]. *)
Definition is_gchild (i j : Z) : Prop :=
  j = 4 * i + 3 \/ j = 4 * i + 4 \/ j = 4 * i + 5 \/ j = 4 * i + 6.

(** [i] lies on a min level: its depth [floor(log2(i + 1))] is even. *)
Definition lvl (i : Z) : bool := Z.even (Z.log2 (i + 1)).

(** The order between an index [k] and a descendant [j]. With
    [pol = true] this is the min-max order: a min level holds a value
    not above, a max level a value not below. With [pol = false] the
    roles of the levels are exchanged, which is the order the negated
    array satisfies. *)
Definition ord (pol : bool) (a : list Z) (k j : Z) : Prop :=
  if Bool.eqb (lvl k) pol then rd a k <= rd a j else rd a j <= rd a k.

(** The order holds between every index and its proper descendants
    among the first [n] slots, except possibly for the pairs in [X]. *)
Definition okx (pol : bool) (a : list Z) (n : Z) (X : Z -> Z -> Prop) : Prop :=
  forall k j, 0 <= k -> desc k j -> k <> j -> j < n -> X k j \/ ord pol a k j.

(** Every index is in order with all its proper descendants among the
    first [n] slots. *)
Definition heap_ok (pol : bool) (a : list Z) (n : Z) : Prop :=
  forall k j, 0 <= k -> desc k j -> k <> j -> j < n -> ord pol a k j.

(** Every proper descendant of [i] is in order with its own descendants. *)
Definition below_ok (pol : bool) (r : Z) (a : list Z) (i : Z) : Prop :=
  forall k j, desc i k -> k <> i -> desc k j -> k <> j -> j <= r -> ord pol a k j.

(** The whole subtree of [i] is in order. *)
Definition sub_ok (pol : bool) (r : Z) (a : list Z) (i : Z) : Prop :=
  forall k j, desc i k -> desc k j -> k <> j -> j <= r -> ord pol a k j.

(** Nothing changed outside the part of the subtree of [i] up to [r]. *)
Definition same_outside (r : Z) (a a' : list Z) (i : Z) : Prop :=
  forall j, 0 <= j -> ~ desc i j \/ r < j -> rd a' j = rd a j.

(** The values in the subtree of [i] were there before. *)
Definition from_inside (r : Z) (a a' : list Z) (i : Z) : Prop :=
  forall j, desc i j -> j <= r ->
            exists j', desc i j' /\ j' <= r /\ rd a' j = rd a j'.

(** What [sift_down_min] from [i] achieves. *)
Definition sift_post (pol : bool) (r : Z) (a a' : list Z) (i : Z) : Prop :=
  length a' = length a /\ Permutation a' a /\
  sub_ok pol r a' i /\ same_outside r a a' i /\ from_inside r a a' i.

(** The min is a grandchild [m]: after the exchange with the root
    and, when needed, with the parent of [m], the rest of the work
    happens in the subtree of [m]. *)
Definition after_gchild_swap (a a2 : list Z) (i m : Z) : Prop :=
  forall j, 0 <= j ->
    rd a2 j =
    if j =? i then rd a m
    else if j =? (m - 1) / 2 then Z.max (rd a ((m - 1) / 2)) (rd a i)
    else if j =? m then Z.min (rd a ((m - 1) / 2)) (rd a i)
    else rd a j.

(** What a repair leaves alone: the length, the multiset of values and
    every slot for which [keep] holds. *)
Definition frame (keep : Z -> Prop) (a a' : list Z) : Prop :=
  length a' = length a /\ Permutation a' a /\
  forall j, 0 <= j -> keep j -> rd a' j = rd a j.

(** The order holds from index [c] on. *)
Definition tail_ok (pol : bool) (a : list Z) (n c : Z) : Prop :=
  forall k j, c <= k -> desc k j -> k <> j -> j < n -> ord pol a k j.

(** Slots a sift from [i] over the first [n] slots cannot reach. *)
Definition untouched (n i j : Z) : Prop := ~ desc i j \/ n <= j.

(** A heap in the min-max order. *)
Definition min_max_heap (a : list Z) (n : Z) : Prop := heap_ok true a n.

(** The order between every index and its children and grandchildren. *)
Definition local_ok (pol : bool) (a : list Z) (n : Z) : Prop :=
  forall k j, 0 <= k -> is_child k j \/ is_gchild k j -> j < n -> ord pol a k j.

(** The test [is_heap] makes at one subtree root. *)
Definition node_check (a : list Z) (n s : Z) : bool :=
  if min_level s then
    let min_value := min_child_or_gchild a s (wrap (n - 1)) in
    negb (fst min_value) || (rd a s <? rd a (snd min_value))
    || (rd a s =? rd a (snd min_value))
  else
    let max_value := max_child_or_gchild a s (wrap (n - 1)) in
    negb (fst max_value) || (rd a (snd max_value) <? rd a s)
    || (rd a (snd max_value) =? rd a s).

(** The value at [c] may be too small for the ancestors of [c] on
    levels of the same kind. *)
Definition up_exc (pol : bool) (Y : Z -> Z -> Prop) (c k j : Z) : Prop :=
  (j = c /\ lvl k = pol) \/ Y k j.

(** The branch of [bubble_up] taken on a min level; on a max level
    [bubble_up] does the same on the negated array. *)
Definition bubble_up_from_min (fuel : nat) (a : list Z) (c : Z) : option (list Z) :=
  if has_parent c && (rd a (parent c) <? rd a c) then
    bubble_up_max fuel (swap a c (parent c)) (parent c)
  else bubble_up_min fuel a c.

(** The elements in slots [0 .. count - 1]. *)
Definition occupied (a : list Z) (count : Z) : list Z := firstn (Z.to_nat count) a.

(** The slot [heap_max] reads. *)
Definition max_slot (a : list Z) (count : Z) : Z :=
  let m := max_child a 0 (wrap (count - 1)) in
  if fst m then snd m else 0.

(** The repair [heap_replace_at_index] runs for an index on a min
    level, on the array [a1] that already holds the new value [v]; for
    an index on a max level it runs the same on the negated array. *)
Definition replace_from_min (fuel : nat) (a1 : list Z) (v old index r : Z)
  : option (list Z) :=
  if v <? old then bubble_up_min fuel a1 index
  else
    match (if has_parent index && (rd a1 (parent index) <? v)
           then bubble_up_from_min fuel a1 index else Some a1) with
    | None => None
    | Some a2 => sift_down_min fuel a2 index r
    end.

(** A [const DataType&] argument that is a temporary or refers to an
    allocated slot reads [v] before and after the write to [index]. *)
Definition reads (a : list Z) (new_value : cref) (v : Z) : Prop :=
  deref a new_value = v /\
  match new_value with Temp _ => True | Elem e => 0 <= e end.

(** The indices [k], [k - 1], ..., [0]. *)
Fixpoint countdown (k : nat) : list Z :=
  Z.of_nat k :: match k with O => [] | S k' => countdown k' end.

(** One more [sift_down(array, current, size - 1)], if the previous ones returned. *)
Definition sift_next (fuel : nat) (size : Z) (acc : option (list Z)) (current : Z)
  : option (list Z) :=
  match acc with
  | Some x => sift_down fuel x current (size - 1)
  | None => None
  end.

(** [sift_down(array, current, size - 1)] for each [current] of the list, in order. *)
Definition sift_all (fuel : nat) (size : Z) (currents : list Z) (a : list Z)
  : option (list Z) :=
  fold_left (sift_next fuel size) currents (Some a).

(** The minimum of the occupied slots, found by reading all of them. *)
Definition scan_min (a : list Z) (count : Z) : Z :=
  fold_left Z.min (tl (occupied a count)) (hd 0 (occupied a count)).

(** The maximum of the occupied slots, found by reading all of them. *)
Definition scan_max (a : list Z) (count : Z) : Z :=
  fold_left Z.max (tl (occupied a count)) (hd 0 (occupied a count)).

(** A call of one of the mutating public operations. *)
Inductive op : Type :=
| Insert (value : Z)
| RemoveMin
| RemoveMax
| InsertCircular (value : Z)
| ReplaceAt (new_value : Z) (index : Z)
| RemoveAt (index : Z).

(** The array and [count] a call leaves behind. *)
Definition run_op (fuel : nat) (max_size : Z) (o : op) (a : list Z) (count : Z)
  : outcome (list Z * Z) :=
  match o with
  | Insert value => heap_insert fuel value a count max_size
  | RemoveMin =>
      bind (heap_remove_min fuel a count) (fun r => Return (snd (fst r), snd r))
  | RemoveMax =>
      bind (heap_remove_max fuel a count) (fun r => Return (snd (fst r), snd r))
  | InsertCircular value =>
      bind (heap_insert_circular fuel value a count max_size)
           (fun r => Return (snd (fst r), snd r))
  | ReplaceAt new_value index =>
      bind (heap_replace_at_index fuel (Temp new_value) index a count)
           (fun r => Return (snd r, count))
  | RemoveAt index =>
      bind (heap_remove_at_index fuel index a count)
           (fun r => Return (snd (fst r), snd r))
  end.

(** Indices handed to the by-index operations lie in the occupied range. *)
Definition valid_args (o : op) (count : Z) : Prop :=
  match o with
  | ReplaceAt _ index | RemoveAt index => 0 <= index < count
  | _ => True
  end.

(** The states a caller can reach in an array of capacity at least
    [max_size]: the empty heap, the result of [make_heap], and what a
    successful call with valid arguments makes of a reachable state. *)
Inductive reachable (fuel : nat) (max_size : Z) : list Z -> Z -> Prop :=
| reach_empty a :
    max_size <= Z.of_nat (length a) -> reachable fuel max_size a 0
| reach_make_heap a size a' :
    max_size <= Z.of_nat (length a) -> 0 <= size <= max_size ->
    make_heap fuel a size = Some a' -> reachable fuel max_size a' size
| reach_op a count o a' count' :
    reachable fuel max_size a count -> valid_args o count ->
    run_op fuel max_size o a count = Return (a', count') ->
    reachable fuel max_size a' count'.

(** The array has room for [max_size] elements and its first [count]
    slots form a heap. *)
Definition state_ok (max_size : Z) (a : list Z) (count : Z) : Prop :=
  max_size <= Z.of_nat (length a) /\ 0 <= count <= max_size /\
  min_max_heap a count.

(** [heap_insert] of each value in turn. *)
Fixpoint insert_all (fuel : nat) (values : list Z) (a : list Z) (count max_size : Z)
  : outcome (list Z * Z) :=
  match values with
  | [] => Return (a, count)
  | v :: rest =>
      bind (heap_insert fuel v a count max_size)
           (fun s => insert_all fuel rest (fst s) (snd s) max_size)
  end.

(** [k] calls of a removal, collecting the values it returns. *)
Fixpoint drain (remove : list Z -> Z -> outcome (Z * list Z * Z)) (k : nat)
    (a : list Z) (count : Z) : outcome (list Z) :=
  match k with
  | O => Return []
  | S k' =>
      bind (remove a count)
           (fun r => bind (drain remove k' (snd (fst r)) (snd r))
                          (fun out => Return (fst (fst r) :: out)))
  end.

(** [heap_insert_circular] of each value in turn; the first component
    collects, in order, the values handed back by the calls that found
    the heap full. *)
Fixpoint insert_circular_all (fuel : nat) (values : list Z) (a : list Z)
    (count max_size : Z) : outcome (list Z * list Z * Z) :=
  match values with
  | [] => Return ([], a, count)
  | v :: rest =>
      bind (heap_insert_circular fuel v a count max_size)
           (fun r =>
              bind (insert_circular_all fuel rest (snd (fst r)) (snd r) max_size)
                   (fun s =>
                      Return ((if fst (fst (fst r)) then [snd (fst (fst r))] else [])
                                ++ fst (fst s),
                              snd (fst s), snd s)))
  end.

(** ** Exactness of the integer logarithm *)

Section Smear.
Variable k : Z.
Hypothesis Hk : 0 <= k.

Lemma top_ones_step t s x :
  0 < s <= t -> top_ones k t x -> top_ones k (t + s) (Z.lor x (Z.shiftr x s)).
Proof.
  intros Hs (Hx & Hl & Hb).
  assert (Hsh : 0 <= Z.shiftr x s) by (apply Z.shiftr_nonneg; lia).
  split; [|split].
  - assert (0 <= Z.lor x (Z.shiftr x s)) by (apply Z.lor_nonneg; lia).
    assert (Z.lor x (Z.shiftr x s) <> 0); [|lia].
    intro E. apply Z.lor_eq_0_iff in E. lia.
  - rewrite Z.log2_lor by lia.
    rewrite Z.log2_shiftr by lia. lia.
  - intros j Hj0 Hj. rewrite Z.lor_spec, Z.shiftr_spec by lia.
    destruct (Z_lt_dec (k - t) j).
    + rewrite Hb by lia. reflexivity.
    + rewrite (Hb (j + s)) by lia. apply orb_true_r.
Qed.

Lemma top_ones_init x : 0 < x -> Z.log2 x = k -> top_ones k 1 x.
Proof.
  intros Hx Hl. repeat split; auto.
  intros j _ Hj. replace j with (Z.log2 x) by lia.
  apply Z.bit_log2. lia.
Qed.

Lemma top_ones_all x : k < 64 -> top_ones k 64 x -> x = Z.ones (k + 1).
Proof.
  intros Hk64 (Hx & Hl & Hb). apply Z.bits_inj'. intros j Hj.
  destruct (Z_le_dec j k).
  - rewrite Hb by lia. symmetry. apply Z.ones_spec_low. lia.
  - rewrite Z.bits_above_log2 by lia. symmetry. apply Z.ones_spec_high. lia.
Qed.

Lemma smear_ones x :
  0 < x -> Z.log2 x = k -> k < 64 -> smear x = Z.ones (k + 1).
Proof.
  intros Hx Hl Hk64. apply top_ones_all; auto. unfold smear.
  change 64 with (1 + 1 + 2 + 4 + 8 + 16 + 32).
  repeat (apply top_ones_step; [lia|]).
  apply top_ones_init; auto.
Qed.
End Smear.

Lemma debruijn_table : forallb debruijn_ok (seq 0 64) = true.
Proof. vm_compute. reflexivity. Qed.

Lemma log_2_exact n : 1 <= n < word_modulus -> log_2 n = Z.log2 n.
Proof.
  intros Hn. unfold word_modulus in Hn.
  assert (Hl : 0 <= Z.log2 n < 64).
  { split; [apply Z.log2_nonneg|]. apply Z.log2_lt_pow2; lia. }
  unfold log_2. rewrite (smear_ones (Z.log2 n)) by lia.
  pose proof debruijn_table as T. rewrite forallb_forall in T.
  specialize (T (Z.to_nat (Z.log2 n))).
  unfold debruijn_ok in T. rewrite Z2Nat.id in T by lia.
  apply Z.eqb_eq. apply T. apply in_seq. lia.
Qed.

Lemma min_level_log2 i :
  0 <= i < word_modulus - 1 -> min_level i = Z.even (Z.log2 (i + 1)).
Proof.
  intros Hi. unfold min_level. destruct (0 <? i) eqn:E.
  - apply Z.ltb_lt in E. unfold wrap.
    rewrite (Z.mod_small (i + 1)) by (unfold word_modulus in *; lia).
    rewrite log_2_exact by lia. rewrite Zeven_mod. reflexivity.
  - apply Z.ltb_ge in E. replace i with 0 by lia. reflexivity.
Qed.

(** C8: on every index that an array can have, [min_level] is true
    exactly for the root and for the indices [i] with [floor(log2(i+1))]
    even, and the table-driven [log_2] is the exact floor of the binary
    logarithm on every non-zero 64-bit word. *)
Theorem min_level_exact :
  (forall n, 1 <= n < word_modulus -> log_2 n = Z.log2 n) /\
  (forall i, 0 <= i < word_modulus - 1 ->
     (min_level i = true <-> i = 0 \/ Z.even (Z.log2 (i + 1)) = true)).
Proof.
  split; [exact log_2_exact|].
  intros i Hi. rewrite min_level_log2 by assumption. split.
  - intros H. right. exact H.
  - intros [->|H]; [reflexivity|exact H].
Qed.

Lemma min_level_exact_witness :
  log_2 4294967296 = Z.log2 4294967296 /\
  (min_level 6 = true <-> 6 = 0 \/ Z.even (Z.log2 (6 + 1)) = true).
Proof.
  split.
  - apply (proj1 min_level_exact 4294967296). vm_compute. split; discriminate || reflexivity.
  - apply (proj2 min_level_exact 6). vm_compute. split; discriminate || reflexivity.
Defined.

(** ** The embedding on the documented example *)

Example make_heap_example :
  make_heap 7 [5; 1; 9; 3; 7; 2; 8] 7 = Some [1; 7; 9; 3; 5; 2; 8].
Proof. vm_compute. reflexivity. Qed.

Example peek_example :
  heap_min [1; 7; 9; 3; 5; 2; 8] 7 = Return 1 /\
  heap_max [1; 7; 9; 3; 5; 2; 8] 7 = Return 9.
Proof. split; vm_compute; reflexivity. Qed.

Example remove_min_example :
  heap_remove_min 7 [1; 7; 9; 3; 5; 2; 8] 7 = Return (1, [2; 7; 9; 3; 5; 8; 1], 6) /\
  is_heap 7 [2; 7; 9; 3; 5; 8; 1] 6 = Some true.
Proof. split; vm_compute; reflexivity. Qed.

Example insert_circular_example :
  heap_insert_circular 7 0 [1; 7; 9; 3; 5; 2; 8] 7 7
  = Return ((true, 9), [0; 7; 8; 3; 5; 2; 1], 7) /\
  heap_insert_circular 7 10 [1; 7; 9; 3; 5; 2; 8] 7 7
  = Return ((true, 10), [1; 7; 9; 3; 5; 2; 8], 7) /\
  heap_insert_circular 7 0 [2; 7; 9; 3; 5; 8; 1] 6 7
  = Return ((false, 0), [0; 7; 9; 3; 5; 8; 2], 7).
Proof. repeat split; vm_compute; reflexivity. Qed.

Example out_of_fuel_example :
  sift_down_min 1 [9; 5; 5; 1; 6; 6; 6; 2; 7] 0 8 = None /\
  sift_down_min 2 [9; 5; 5; 1; 6; 6; 6; 2; 7] 0 8
  = Some [1; 9; 5; 2; 6; 6; 6; 5; 7].
Proof. split; vm_compute; reflexivity. Qed.

(** ** Index arithmetic without overflow *)

Lemma wrap_small x : 0 <= x < word_modulus -> wrap x = x.
Proof. intros H. unfold wrap. apply Z.mod_small. exact H. Qed.

Lemma index_limit_val : index_limit = 4611686018427387904.
Proof. reflexivity. Qed.

Lemma word_modulus_val : word_modulus = 18446744073709551616.
Proof. reflexivity. Qed.

Ltac bounds := rewrite ?index_limit_val, ?word_modulus_val in *; lia.

Lemma left_eq i : 0 <= i < 2 * index_limit -> left i = 2 * i + 1.
Proof. intros H. unfold left. apply wrap_small. bounds. Qed.

Lemma right_eq i : 0 <= i < 2 * index_limit - 1 -> right i = 2 * i + 2.
Proof. intros H. unfold right. apply wrap_small. bounds. Qed.

Lemma parent_eq i : 1 <= i < word_modulus -> parent i = (i - 1) / 2.
Proof. intros H. unfold parent. rewrite wrap_small by lia. reflexivity. Qed.

Lemma pred_eq i : 1 <= i < word_modulus -> wrap (i - 1) = i - 1.
Proof. intros H. apply wrap_small. lia. Qed.

Lemma parent_left i : 0 <= i < index_limit -> parent (2 * i + 1) = i.
Proof.
  intros H. rewrite parent_eq by bounds.
  replace (2 * i + 1 - 1) with (i * 2) by lia. apply Z.div_mul. lia.
Qed.

Lemma parent_right i : 0 <= i < index_limit -> parent (2 * i + 2) = i.
Proof.
  intros H. rewrite parent_eq by bounds.
  replace (2 * i + 2 - 1) with (1 + i * 2) by lia.
  rewrite Z.div_add by lia. reflexivity.
Qed.

(** ** Reading and writing the array *)

Lemma length_upd l n v : length (upd l n v) = length l.
Proof.
  revert n. induction l as [|h t IH]; intros [|n]; simpl; auto.
Qed.

Lemma nth_upd_same l n v : (n < length l)%nat -> nth n (upd l n v) 0 = v.
Proof.
  revert n. induction l as [|h t IH]; intros [|n] H; simpl in *; try lia; auto.
  apply IH. lia.
Qed.

Lemma nth_upd_other l n m v : n <> m -> nth m (upd l n v) 0 = nth m l 0.
Proof.
  revert n m. induction l as [|h t IH]; intros [|n] [|m] H; simpl; auto.
  contradiction.
Qed.

Lemma upd_perm_cons l n v :
  (n < length l)%nat -> Permutation (nth n l 0 :: upd l n v) (v :: l).
Proof.
  revert n. induction l as [|h t IH]; intros [|n] H; simpl in *; try lia.
  - apply perm_swap.
  - etransitivity; [apply perm_swap|].
    etransitivity; [apply perm_skip, IH; lia|]. apply perm_swap.
Qed.

Lemma length_wr a i v : length (wr a i v) = length a.
Proof. apply length_upd. Qed.

Lemma rd_wr_same a i v :
  0 <= i < Z.of_nat (length a) -> rd (wr a i v) i = v.
Proof. intros H. unfold rd, wr. apply nth_upd_same. lia. Qed.

Lemma rd_wr_other a i j v :
  0 <= i -> 0 <= j -> i <> j -> rd (wr a i v) j = rd a j.
Proof. intros Hi Hj H. unfold rd, wr. apply nth_upd_other. lia. Qed.

Lemma rd_wr a i j v :
  0 <= i < Z.of_nat (length a) -> 0 <= j ->
  rd (wr a i v) j = if j =? i then v else rd a j.
Proof.
  intros Hi Hj. destruct (Z.eqb_spec j i) as [->|N].
  - apply rd_wr_same; auto.
  - apply rd_wr_other; lia.
Qed.

Lemma wr_same_value a i : wr a i (rd a i) = a.
Proof.
  unfold wr, rd. generalize (Z.to_nat i). clear i.
  induction a as [|h t IH]; intros [|n]; simpl; auto. f_equal. apply IH.
Qed.

Lemma length_swap a i j : length (swap a i j) = length a.
Proof. unfold swap. rewrite !length_wr. reflexivity. Qed.

Lemma rd_swap a i j k :
  0 <= i < Z.of_nat (length a) -> 0 <= j < Z.of_nat (length a) -> 0 <= k ->
  rd (swap a i j) k =
  if k =? j then rd a i else if k =? i then rd a j else rd a k.
Proof.
  intros Hi Hj Hk. unfold swap.
  rewrite rd_wr by (rewrite ?length_wr; lia).
  destruct (k =? j); auto. apply rd_wr; lia.
Qed.

Lemma swap_perm a i j :
  0 <= i < Z.of_nat (length a) -> 0 <= j < Z.of_nat (length a) ->
  Permutation (swap a i j) a.
Proof.
  intros Hi Hj. unfold swap.
  destruct (Z.eq_dec i j) as [->|N].
  - rewrite wr_same_value, wr_same_value. reflexivity.
  - apply (Permutation_cons_inv (a := rd a j)).
    pose proof (upd_perm_cons (wr a i (rd a j)) (Z.to_nat j) (rd a i)) as P1.
    pose proof (upd_perm_cons a (Z.to_nat i) (rd a j)) as P2.
    fold (rd (wr a i (rd a j)) j) in P1. rewrite rd_wr_other in P1 by lia.
    etransitivity; [apply P1; rewrite length_wr; lia|]. apply P2. lia.
Qed.

(** ** Negating the array exchanges the min and max variants *)

Lemma neg_neg a : neg (neg a) = a.
Proof.
  unfold neg. rewrite map_map. rewrite <- (map_id a) at 2.
  apply map_ext. intros x. lia.
Qed.

Lemma length_neg a : length (neg a) = length a.
Proof. apply length_map. Qed.

Lemma rd_neg a i : rd (neg a) i = - rd a i.
Proof. unfold rd, neg. change 0 with (- 0) at 1. apply map_nth. Qed.

Lemma upd_neg l n v : upd (neg l) n (- v) = neg (upd l n v).
Proof.
  revert n. induction l as [|h t IH]; intros [|n]; simpl; auto.
  f_equal. apply IH.
Qed.

Lemma wr_neg a i v : wr (neg a) i (- v) = neg (wr a i v).
Proof. apply upd_neg. Qed.

Lemma swap_neg a i j : swap (neg a) i j = neg (swap a i j).
Proof. unfold swap. rewrite !rd_neg, !wr_neg. reflexivity. Qed.

Lemma ltb_neg x y : (- x <? - y) = (y <? x).
Proof.
  destruct (Z.ltb_spec (- x) (- y)), (Z.ltb_spec y x); auto; lia.
Qed.

Lemma neg_perm a b : Permutation (neg a) (neg b) <-> Permutation a b.
Proof.
  split; intros H.
  - rewrite <- (neg_neg a), <- (neg_neg b). apply Permutation_map. exact H.
  - apply Permutation_map. exact H.
Qed.

Lemma max_child_neg a i r : max_child a i r = min_child (neg a) i r.
Proof. unfold max_child, min_child. rewrite !rd_neg, !ltb_neg. reflexivity. Qed.

Lemma max_gchild_neg a i r : max_gchild a i r = min_gchild (neg a) i r.
Proof.
  unfold max_gchild, min_gchild.
  repeat (rewrite ?rd_neg, ?ltb_neg;
          match goal with
          | |- context [if ?c then _ else _] => destruct c; cbv zeta
          | _ => idtac
          end); reflexivity.
Qed.

Lemma max_child_or_gchild_neg a i r :
  max_child_or_gchild a i r = min_child_or_gchild (neg a) i r.
Proof.
  unfold max_child_or_gchild, min_child_or_gchild.
  rewrite <- max_child_neg, <- max_gchild_neg, !rd_neg, !ltb_neg. reflexivity.
Qed.

Lemma sift_down_max_loop_neg fuel : forall a i r b,
  sift_down_max_loop fuel a i r b = oneg (sift_down_min_loop fuel (neg a) i r b).
Proof.
  induction fuel as [|fuel IH]; intros a i r b; simpl.
  - destruct (b && (left i <=? r)); simpl; rewrite ?neg_neg; reflexivity.
  - rewrite <- max_child_or_gchild_neg.
    rewrite !swap_neg, !rd_neg, !ltb_neg.
    set (m := snd (max_child_or_gchild a i r)).
    destruct (b && (left i <=? r)); [|simpl; rewrite neg_neg; reflexivity].
    destruct (child i m).
    + destruct (rd a i <? rd a m); rewrite IH, <- ?swap_neg; reflexivity.
    + destruct (rd a i <? rd a m); [|apply IH].
      rewrite IH. rewrite <- swap_neg.
      destruct (rd (swap a m i) m <? rd (swap a m i) (parent m));
        rewrite <- ?swap_neg; reflexivity.
Qed.

Lemma sift_down_max_neg fuel a i r :
  sift_down_max fuel a i r = oneg (sift_down_min fuel (neg a) i r).
Proof. apply sift_down_max_loop_neg. Qed.

Lemma bubble_up_max_loop_neg fuel : forall a i b,
  bubble_up_max_loop fuel a i b = oneg (bubble_up_min_loop fuel (neg a) i b).
Proof.
  induction fuel as [|fuel IH]; intros a i b; simpl.
  - destruct (negb b && has_gparent i); simpl; rewrite ?neg_neg; reflexivity.
  - rewrite !rd_neg, !ltb_neg, swap_neg.
    destruct (negb b && has_gparent i); [|simpl; rewrite neg_neg; reflexivity].
    destruct (rd a (gparent i) <? rd a i); apply IH.
Qed.

Lemma bubble_up_max_neg fuel a i :
  bubble_up_max fuel a i = oneg (bubble_up_min fuel (neg a) i).
Proof. apply bubble_up_max_loop_neg. Qed.

(** ** The implicit tree *)

Create HintDb heap.
#[local] Hint Constructors desc : heap.

Lemma desc_inv i j :
  desc i j -> j = i \/ exists p, desc i p /\ is_child p j.
Proof.
  intros H. destruct H as [|p H|p H]; [left; reflexivity| |];
    right; exists p; split; auto; unfold is_child; lia.
Qed.

Lemma desc_le i j : 0 <= i -> desc i j -> i <= j.
Proof. intros Hi H. induction H; lia. Qed.

Lemma desc_trans i j k : desc i j -> desc j k -> desc i k.
Proof. intros Hij Hjk. induction Hjk; auto with heap. Qed.

Lemma desc_child i j : is_child i j -> desc i j.
Proof. intros [->| ->]; auto with heap. Qed.

Lemma desc_gchild i j : is_gchild i j -> desc i j.
Proof.
  intros [->|[->|[->| ->]]].
  - replace (4 * i + 3) with (2 * (2 * i + 1) + 1) by lia. auto with heap.
  - replace (4 * i + 4) with (2 * (2 * i + 1) + 2) by lia. auto with heap.
  - replace (4 * i + 5) with (2 * (2 * i + 2) + 1) by lia. auto with heap.
  - replace (4 * i + 6) with (2 * (2 * i + 2) + 2) by lia. auto with heap.
Qed.

Lemma desc_step i j :
  desc i j -> j <> i -> exists c, is_child i c /\ desc c j.
Proof.
  intros H. induction H as [|p H IH|p H IH]; intros N.
  - contradiction.
  - destruct (Z.eq_dec p i) as [->|Np].
    + exists (2 * i + 1). split; [left; reflexivity|constructor].
    + destruct (IH Np) as (c & Hc & Hd). exists c. auto with heap.
  - destruct (Z.eq_dec p i) as [->|Np].
    + exists (2 * i + 2). split; [right; reflexivity|constructor].
    + destruct (IH Np) as (c & Hc & Hd). exists c. auto with heap.
Qed.

(** The ancestors of an index form a chain. *)
Lemma desc_chain i k j :
  0 <= i -> 0 <= k -> desc i j -> desc k j -> desc i k \/ desc k i.
Proof.
  intros Hi Hk H. revert k Hk.
  induction H as [|p H IH|p H IH]; intros k Hk Hkj.
  - right. exact Hkj.
  - destruct (desc_inv _ _ Hkj) as [E|(q & Hq & [E|E])].
    + left. subst k. auto with heap.
    + replace q with p in Hq by lia. auto.
    + lia.
  - destruct (desc_inv _ _ Hkj) as [E|(q & Hq & [E|E])].
    + left. subst k. auto with heap.
    + lia.
    + replace q with p in Hq by lia. auto.
Qed.

Lemma desc_parent i j :
  0 <= i -> desc i j -> j <> i -> 0 < j /\ desc i ((j - 1) / 2).
Proof.
  intros Hi H N. destruct (desc_inv _ _ H) as [->|(p & Hp & Hc)]; [contradiction|].
  pose proof (desc_le _ _ Hi Hp).
  assert ((j - 1) / 2 = p) as ->.
  { destruct Hc as [->| ->].
    - replace (2 * p + 1 - 1) with (p * 2) by lia. apply Z.div_mul. lia.
    - replace (2 * p + 2 - 1) with (1 + p * 2) by lia.
      rewrite Z.div_add by lia. reflexivity. }
  split; [destruct Hc; lia|exact Hp].
Qed.

Lemma desc_dec i j : 0 <= i -> desc i j \/ ~ desc i j.
Proof.
  intros Hi.
  assert (H : forall n : nat, forall j, j < Z.of_nat n -> desc i j \/ ~ desc i j).
  { induction n as [|n IH]; intros j' Hj.
    - right. intros D. apply (desc_le _ _ Hi) in D. lia.
    - destruct (Z.eq_dec j' i) as [->|N]; [left; constructor|].
      destruct (Z_le_dec j' 0) as [L|L].
      + right. intros D. apply (desc_le _ _ Hi) in D. lia.
      + destruct (IH ((j' - 1) / 2)) as [D|D].
        * assert ((j' - 1) / 2 < j'); [|lia].
          apply Z.div_lt_upper_bound; lia.
        * left. assert (E : j' = 2 * ((j' - 1) / 2) + 1 \/ j' = 2 * ((j' - 1) / 2) + 2).
          { pose proof (Z.div_mod (j' - 1) 2 ltac:(lia)).
            pose proof (Z.mod_pos_bound (j' - 1) 2 ltac:(lia)). lia. }
          destruct E as [E|E]; rewrite E; constructor; exact D.
        * right. intros D'. apply D. apply desc_parent; auto. }
  apply (H (Z.to_nat (j + 1))). lia.
Qed.

Lemma child_not_desc_sibling i c d j :
  0 <= i -> is_child i c -> is_child i d -> c <> d -> desc c j -> ~ desc d j.
Proof.
  intros Hi Hc Hd N Dc Dd.
  assert (0 <= c) by (destruct Hc; lia).
  assert (0 <= d) by (destruct Hd; lia).
  destruct (desc_chain c d j) as [D|D]; auto.
  - destruct (desc_parent c d) as (_ & D'); auto.
    assert ((d - 1) / 2 = i) as E.
    { destruct Hd as [->| ->].
      - replace (2 * i + 1 - 1) with (i * 2) by lia. apply Z.div_mul. lia.
      - replace (2 * i + 2 - 1) with (1 + i * 2) by lia.
        rewrite Z.div_add by lia. reflexivity. }
    rewrite E in D'. apply desc_le in D'; auto. destruct Hc; lia.
  - destruct (desc_parent d c) as (_ & D'); auto.
    assert ((c - 1) / 2 = i) as E.
    { destruct Hc as [->| ->].
      - replace (2 * i + 1 - 1) with (i * 2) by lia. apply Z.div_mul. lia.
      - replace (2 * i + 2 - 1) with (1 + i * 2) by lia.
        rewrite Z.div_add by lia. reflexivity. }
    rewrite E in D'. apply desc_le in D'; auto. destruct Hd; lia.
Qed.

Lemma child_of_child i c g : is_child i c -> is_child c g -> is_gchild i g.
Proof. unfold is_child, is_gchild. lia. Qed.

Lemma gchild_parent i g :
  is_gchild i g -> exists c, is_child i c /\ is_child c g.
Proof.
  unfold is_child, is_gchild. intros [->|[->|[->| ->]]].
  - exists (2 * i + 1). lia.
  - exists (2 * i + 1). lia.
  - exists (2 * i + 2). lia.
  - exists (2 * i + 2). lia.
Qed.

(** A proper descendant is a child, a grandchild, or lies strictly
    below a grandchild. *)
Lemma desc_cases i j :
  desc i j -> j <> i ->
  is_child i j \/ is_gchild i j \/
  exists g, is_gchild i g /\ desc g j /\ g <> j.
Proof.
  intros H N. destruct (desc_step _ _ H N) as (c & Hc & Dc).
  destruct (Z.eq_dec j c) as [->|Nc]; [left; exact Hc|].
  destruct (desc_step _ _ Dc Nc) as (g & Hg & Dg).
  right. destruct (Z.eq_dec j g) as [->|Ng].
  - left. eapply child_of_child; eauto.
  - right. exists g. repeat split; auto. eapply child_of_child; eauto.
Qed.

(** ** Levels *)

Lemma min_level_lvl i : 0 <= i < word_modulus - 1 -> min_level i = lvl i.
Proof. apply min_level_log2. Qed.

Lemma lvl_root : lvl 0 = true.
Proof. reflexivity. Qed.

Lemma lvl_child i c : 0 <= i -> is_child i c -> lvl c = negb (lvl i).
Proof.
  intros Hi [->| ->]; unfold lvl.
  - replace (2 * i + 1 + 1) with (2 * (i + 1)) by lia.
    rewrite Z.log2_double by lia. rewrite Z.even_succ. symmetry. apply Z.negb_even.
  - replace (2 * i + 2 + 1) with (2 * (i + 1) + 1) by lia.
    rewrite Z.log2_succ_double by lia. rewrite Z.even_succ. symmetry. apply Z.negb_even.
Qed.

Lemma lvl_gchild i g : 0 <= i -> is_gchild i g -> lvl g = lvl i.
Proof.
  intros Hi Hg. destruct (gchild_parent _ _ Hg) as (c & Hc & Hcg).
  rewrite (lvl_child c g), (lvl_child i c); auto.
  - apply negb_involutive.
  - destruct Hc; lia.
Qed.

(** ** The order relation of the heap *)

Lemma ord_neg pol a k j : ord pol (neg a) k j <-> ord (negb pol) a k j.
Proof.
  unfold ord. rewrite !rd_neg.
  destruct (lvl k), pol; simpl; lia.
Qed.

Lemma okx_neg pol a n X : okx pol (neg a) n X <-> okx (negb pol) a n X.
Proof.
  unfold okx. split; intros H k j Hk D N L;
    destruct (H k j Hk D N L) as [E|E]; auto; right; apply ord_neg; auto.
Qed.

Lemma heap_ok_neg pol a n : heap_ok pol (neg a) n <-> heap_ok (negb pol) a n.
Proof.
  unfold heap_ok. split; intros H k j Hk D N L; specialize (H k j Hk D N L);
    apply ord_neg; auto.
Qed.

Lemma okx_heap_ok pol a n : okx pol a n (fun _ _ => False) <-> heap_ok pol a n.
Proof.
  split; intros H k j Hk D N L.
  - destruct (H k j Hk D N L) as [[]|E]. exact E.
  - right. apply H; auto.
Qed.

Lemma ord_ext pol a b k j :
  rd b k = rd a k -> rd b j = rd a j -> ord pol a k j -> ord pol b k j.
Proof. unfold ord. intros -> ->. auto. Qed.

(** ** What the lookups return *)

Lemma child_spec i c :
  0 <= i < index_limit -> (child i c = true <-> is_child i c).
Proof.
  intros Hi. unfold child, is_child.
  rewrite left_eq, right_eq by bounds.
  rewrite orb_true_iff, !Z.eqb_eq. reflexivity.
Qed.

Ltac cmp_cases :=
  repeat match goal with
         | |- context [?x <=? ?y] => destruct (Z.leb_spec x y)
         | |- context [?x <? ?y] => destruct (Z.ltb_spec x y)
         end.

Lemma min_child_spec a i r :
  0 <= i -> r < index_limit -> 2 * i + 1 <= r ->
  min_child a i r = (true, snd (min_child a i r)) /\
  is_child i (snd (min_child a i r)) /\ snd (min_child a i r) <= r /\
  forall j, is_child i j -> j <= r ->
            rd a (snd (min_child a i r)) <= rd a j.
Proof.
  intros Hi Hr Hc. unfold min_child, is_child.
  rewrite left_eq, right_eq by bounds.
  cmp_cases; cbn [andb fst snd]; repeat split; try lia;
    try (intros j [->| ->] Hj; lia).
Qed.

Lemma min_gchild_none a i r :
  0 <= i -> r < index_limit -> i <= r -> r < 4 * i + 3 ->
  fst (min_gchild a i r) = false.
Proof.
  intros Hi Hr Hir Hc. unfold min_gchild.
  rewrite (left_eq i), (left_eq (2 * i + 1)) by bounds.
  cmp_cases; cbn [andb fst snd]; auto; lia.
Qed.

Lemma min_gchild_spec a i r :
  0 <= i -> r < index_limit -> 4 * i + 3 <= r ->
  fst (min_gchild a i r) = true /\
  is_gchild i (snd (min_gchild a i r)) /\ snd (min_gchild a i r) <= r /\
  forall j, is_gchild i j -> j <= r ->
            rd a (snd (min_gchild a i r)) <= rd a j.
Proof.
  intros Hi Hr Hc. unfold min_gchild, is_gchild.
  rewrite (left_eq i), (right_eq i) by bounds.
  rewrite (left_eq (2 * i + 1)), (right_eq (2 * i + 1)) by bounds.
  rewrite (left_eq (2 * i + 2)), (right_eq (2 * i + 2)) by bounds.
  replace (2 * (2 * i + 1) + 1) with (4 * i + 3) by lia.
  replace (2 * (2 * i + 1) + 2) with (4 * i + 4) by lia.
  replace (2 * (2 * i + 2) + 1) with (4 * i + 5) by lia.
  replace (2 * (2 * i + 2) + 2) with (4 * i + 6) by lia.
  destruct (Z.leb_spec (4 * i + 3) r); [|lia]. cbv zeta.
  set (m1 := if (4 * i + 4 <=? r) && (rd a (4 * i + 4) <? rd a (4 * i + 3))
             then 4 * i + 4 else 4 * i + 3).
  assert (H1 : (m1 = 4 * i + 3 \/ m1 = 4 * i + 4) /\ m1 <= r /\
               rd a m1 <= rd a (4 * i + 3) /\
               (4 * i + 4 <= r -> rd a m1 <= rd a (4 * i + 4))).
  { subst m1. cmp_cases; cbn [andb]; lia. }
  clearbody m1.
  set (m2 := if (4 * i + 5 <=? r) && (rd a (4 * i + 5) <? rd a m1)
             then 4 * i + 5 else m1).
  assert (H2 : (m2 = 4 * i + 3 \/ m2 = 4 * i + 4 \/ m2 = 4 * i + 5) /\ m2 <= r /\
               rd a m2 <= rd a (4 * i + 3) /\
               (4 * i + 4 <= r -> rd a m2 <= rd a (4 * i + 4)) /\
               (4 * i + 5 <= r -> rd a m2 <= rd a (4 * i + 5))).
  { subst m2. cmp_cases; cbn [andb]; lia. }
  clearbody m2. clear H1 m1.
  set (m3 := if (4 * i + 6 <=? r) && (rd a (4 * i + 6) <? rd a m2)
             then 4 * i + 6 else m2).
  assert (H3 : (m3 = 4 * i + 3 \/ m3 = 4 * i + 4 \/ m3 = 4 * i + 5 \/ m3 = 4 * i + 6)
               /\ m3 <= r /\
               rd a m3 <= rd a (4 * i + 3) /\
               (4 * i + 4 <= r -> rd a m3 <= rd a (4 * i + 4)) /\
               (4 * i + 5 <= r -> rd a m3 <= rd a (4 * i + 5)) /\
               (4 * i + 6 <= r -> rd a m3 <= rd a (4 * i + 6))).
  { subst m3. cmp_cases; cbn [andb]; lia. }
  clearbody m3. clear H2 m2. cbn [fst snd].
  repeat split; try tauto.
  intros j [->|[->|[->| ->]]] Hj; tauto.
Qed.

Lemma min_child_or_gchild_spec a i r :
  0 <= i -> r < index_limit -> 2 * i + 1 <= r ->
  fst (min_child_or_gchild a i r) = true /\
  (is_child i (snd (min_child_or_gchild a i r)) \/
   is_gchild i (snd (min_child_or_gchild a i r))) /\
  snd (min_child_or_gchild a i r) <= r /\
  forall j, is_child i j \/ is_gchild i j -> j <= r ->
            rd a (snd (min_child_or_gchild a i r)) <= rd a j.
Proof.
  intros Hi Hr Hc. unfold min_child_or_gchild.
  destruct (min_child_spec a i r Hi Hr Hc) as (E & C1 & C2 & C3).
  rewrite E. cbn [fst snd]. set (m := snd (min_child a i r)) in *.
  destruct (Z_le_dec (4 * i + 3) r) as [G|G].
  - destruct (min_gchild_spec a i r Hi Hr G) as (E' & G1 & G2 & G3).
    rewrite E'. cbn [andb]. set (g := snd (min_gchild a i r)) in *.
    destruct (Z.ltb_spec (rd a g) (rd a m)); cbn [fst snd];
      repeat split; auto.
    + intros j [Hj|Hj] L; [specialize (C3 j Hj L); lia|auto].
    + intros j [Hj|Hj] L; [auto|specialize (G3 j Hj L); lia].
  - rewrite min_gchild_none by lia. cbn [andb fst snd].
    repeat split; auto.
    intros j [Hj|Hj] L; [auto|unfold is_gchild in Hj; lia].
Qed.

(** ** Sifting down *)

Lemma desc_lt i k : 0 <= i -> desc i k -> k <> i -> 2 * i + 1 <= k.
Proof.
  intros Hi D N. destruct (desc_step _ _ D N) as (c & Hc & Dc).
  assert (0 <= c) by (destruct Hc; lia).
  pose proof (desc_le _ _ H Dc). destruct Hc; lia.
Qed.

Lemma gchild_parent_eq i m :
  0 <= i -> is_gchild i m ->
  is_child i ((m - 1) / 2) /\ is_child ((m - 1) / 2) m.
Proof.
  intros Hi Hm. destruct (gchild_parent _ _ Hm) as (c & Hc & Hcm).
  assert ((m - 1) / 2 = c) as ->; [|auto].
  destruct Hcm as [->| ->].
  - replace (2 * c + 1 - 1) with (c * 2) by lia. apply Z.div_mul. lia.
  - replace (2 * c + 2 - 1) with (1 + c * 2) by lia.
    rewrite Z.div_add by lia. reflexivity.
Qed.

(** Between an index and one of its grandchildren lies only the
    grandchild's parent. *)
Lemma between_gchild i k m :
  0 <= i -> is_gchild i m -> desc i k -> desc k m ->
  k = i \/ k = (m - 1) / 2 \/ k = m.
Proof.
  intros Hi Hm Dik Dkm.
  destruct (Z.eq_dec k i) as [|Ni]; [auto|].
  destruct (Z.eq_dec k m) as [|Nm]; [auto|].
  right; left.
  destruct (gchild_parent_eq i m Hi Hm) as (Hp & Hpm).
  set (p := (m - 1) / 2) in *.
  pose proof (desc_lt i k Hi Dik Ni).
  assert (Hk : 0 <= k) by lia.
  destruct (desc_parent k m Hk Dkm ltac:(lia)) as (_ & Dkp). fold p in Dkp.
  destruct (Z.eq_dec p k) as [|Np]; [auto|].
  pose proof (desc_lt k p Hk Dkp Np). destruct Hp; lia.
Qed.

Section SiftDown.
Variable pol : bool.
Variable r : Z.
Hypothesis Hr : r < index_limit.

Lemma sift_down_min_loop_stop fuel a i :
  sift_down_min_loop fuel a i r false = Some a.
Proof. destruct fuel; reflexivity. Qed.

Lemma sub_ok_intro a i :
  0 <= i -> lvl i = pol -> below_ok pol r a i ->
  (forall j, desc i j -> j <> i -> j <= r -> rd a i <= rd a j) ->
  sub_ok pol r a i.
Proof.
  intros Hi Hl Hb Hm k j Dk Dj N L.
  destruct (Z.eq_dec k i) as [->|Nk].
  - unfold ord. rewrite Hl, eqb_reflx. apply Hm; auto.
  - apply Hb; auto.
Qed.

Lemma min_is_least a i :
  0 <= i -> 2 * i + 1 <= r -> lvl i = pol -> below_ok pol r a i ->
  forall j, desc i j -> j <> i -> j <= r ->
            rd a (snd (min_child_or_gchild a i r)) <= rd a j.
Proof.
  intros Hi Hc Hl Hb j D N L.
  destruct (min_child_or_gchild_spec a i r Hi Hr Hc) as (_ & _ & _ & Hmin).
  destruct (desc_cases _ _ D N) as [C|[G|(g & G & Dg & Ng)]].
  - apply Hmin; auto.
  - apply Hmin; auto.
  - assert (0 <= g) by (unfold is_gchild in G; lia).
    pose proof (desc_le _ _ H Dg).
    assert (rd a g <= rd a j).
    { assert (O : ord pol a g j).
      { apply Hb; auto. apply desc_gchild; auto. unfold is_gchild in G; lia. }
      unfold ord in O. rewrite (lvl_gchild i g), Hl, eqb_reflx in O; auto. }
    specialize (Hmin g (or_intror G)). lia.
Qed.

Lemma acts_max a i c j :
  0 <= i -> lvl i = pol -> below_ok pol r a i -> is_child i c ->
  desc c j -> c <> j -> j <= r -> rd a j <= rd a c.
Proof.
  intros Hi Hl Hb Hc D N L.
  assert (O : ord pol a c j).
  { apply Hb; auto. apply desc_child; auto. destruct Hc; lia. }
  unfold ord in O. rewrite (lvl_child i c), Hl in O; auto.
  destruct pol; exact O.
Qed.
End SiftDown.

Section SiftDownCore.
Variable pol : bool.
Variable r : Z.
Hypothesis Hr : r < index_limit.

Lemma sift_post_refl a i :
  0 <= i -> lvl i = pol -> below_ok pol r a i ->
  (forall j, desc i j -> j <> i -> j <= r -> rd a i <= rd a j) ->
  sift_post pol r a a i.
Proof.
  intros Hi Hl Hb Hm. split; [|split; [|split; [|split]]]; auto.
  - apply sub_ok_intro; auto.
  - intros j _ _. reflexivity.
  - intros j D L. exists j. auto.
Qed.

(** The min of the children and grandchildren is a child and is
    smaller than the root: one swap settles the subtree. *)
Lemma sift_post_child a i m :
  0 <= i -> Z.of_nat (length a) > r -> lvl i = pol -> below_ok pol r a i ->
  is_child i m -> m <= r ->
  (forall j, desc i j -> j <> i -> j <= r -> rd a m <= rd a j) ->
  rd a m < rd a i ->
  sift_post pol r a (swap a m i) i.
Proof.
  intros Hi Hlen Hl Hb Hc Hmr Hmin Hlt.
  assert (Hm0 : i < m <= 2 * i + 2) by (destruct Hc; lia).
  assert (Hrd : forall j, 0 <= j ->
            rd (swap a m i) j =
            if j =? i then rd a m else if j =? m then rd a i else rd a j).
  { intros j Hj. apply rd_swap; lia. }
  split; [|split; [|split; [|split]]].
  - apply length_swap.
  - apply swap_perm; lia.
  - intros k j Dk Dj N L.
    pose proof (desc_le _ _ Hi Dk) as Lk.
    assert (Lj : 2 * k + 1 <= j) by (apply desc_lt; auto; lia).
    destruct (Z.eq_dec k i) as [->|Nk].
    + unfold ord. rewrite Hl, eqb_reflx. rewrite !Hrd by lia.
      rewrite Z.eqb_refl. destruct (Z.eqb_spec j i); [lia|].
      destruct (Z.eqb_spec j m); [lia|]. apply Hmin; auto.
    + pose proof (desc_lt i k Hi Dk Nk).
      destruct (Z.eq_dec k m) as [->|Nkm].
      * pose proof (acts_max pol r a i m j Hi Hl Hb Hc Dj N L).
        unfold ord. rewrite (lvl_child i m), Hl by auto.
        replace (Bool.eqb (negb pol) pol) with false by (destruct pol; reflexivity).
        rewrite !Hrd by lia. rewrite Z.eqb_refl.
        destruct (Z.eqb_spec m i); [lia|].
        destruct (Z.eqb_spec j i); [lia|].
        destruct (Z.eqb_spec j m); lia.
      * apply (ord_ext pol a); [| |apply Hb; auto].
        -- rewrite Hrd by lia.
           destruct (Z.eqb_spec k i); [lia|]. destruct (Z.eqb_spec k m); [lia|auto].
        -- rewrite Hrd by lia.
           destruct (Z.eqb_spec j i); [lia|].
           destruct (Z.eqb_spec j m); [destruct Hc; lia|auto].
  - intros j Hj Hout. rewrite Hrd by lia.
    destruct (Z.eqb_spec j i) as [->|].
    { destruct Hout as [O|O]; [exfalso; apply O; constructor|lia]. }
    destruct (Z.eqb_spec j m) as [->|]; auto.
    destruct Hout as [O|O]; [exfalso; apply O; apply desc_child; auto|lia].
  - intros j D L. pose proof (desc_le _ _ Hi D). rewrite Hrd by lia.
    destruct (Z.eqb_spec j i).
    { exists m. repeat split; auto. apply desc_child; auto. }
    destruct (Z.eqb_spec j m).
    { exists i. repeat split; auto; [constructor|lia]. }
    exists j. auto.
Qed.

Lemma gchild_swap_shape a i m :
  0 <= i -> Z.of_nat (length a) > r -> is_gchild i m -> m <= r ->
  let a1 := swap a m i in
  let a2 := if rd a1 (parent m) <? rd a1 m then swap a1 m (parent m) else a1 in
  after_gchild_swap a a2 i m /\ length a2 = length a /\ Permutation a2 a.
Proof.
  intros Hi Hlen Hg Hmr a1 a2. unfold after_gchild_swap.
  destruct (gchild_parent_eq i m Hi Hg) as (Hp & Hpm).
  assert (Hpar : parent m = (m - 1) / 2).
  { apply parent_eq. unfold is_gchild in Hg. bounds. }
  set (p := (m - 1) / 2) in *.
  assert (Hb : i < p < m /\ 0 <= i) by (destruct Hp, Hpm; lia).
  assert (H1 : forall j, 0 <= j ->
            rd a1 j = if j =? i then rd a m else if j =? m then rd a i else rd a j).
  { intros j Hj. apply rd_swap; lia. }
  assert (L1 : length a1 = length a) by apply length_swap.
  assert (P1 : Permutation a1 a) by (apply swap_perm; lia).
  subst a2. rewrite Hpar. rewrite (H1 p), (H1 m) by lia.
  rewrite Z.eqb_refl.
  destruct (Z.eqb_spec p i); [lia|]. destruct (Z.eqb_spec p m); [lia|].
  destruct (Z.eqb_spec m i); [lia|].
  destruct (Z.ltb_spec (rd a p) (rd a i)) as [C|C].
  - split; [|split].
    + intros j Hj. rewrite rd_swap by lia. rewrite (H1 p), (H1 m), (H1 j) by lia.
      rewrite Z.eqb_refl.
      destruct (Z.eqb_spec p i); [lia|]. destruct (Z.eqb_spec p m); [lia|].
      destruct (Z.eqb_spec m i); [lia|].
      destruct (Z.eqb_spec j p); destruct (Z.eqb_spec j m);
        destruct (Z.eqb_spec j i); try subst j; lia.
    + rewrite length_swap. exact L1.
    + etransitivity; [apply swap_perm; lia|exact P1].
  - split; [|split]; auto.
    intros j Hj. rewrite H1 by lia.
    destruct (Z.eqb_spec j p); destruct (Z.eqb_spec j m);
      destruct (Z.eqb_spec j i); try subst j; lia.
Qed.

Lemma below_ok_after_gchild_swap a a2 i m :
  0 <= i -> is_gchild i m -> below_ok pol r a i ->
  after_gchild_swap a a2 i m -> below_ok pol r a2 m.
Proof.
  intros Hi Hg Hb H2 k j Dk Nk Dj N L. unfold after_gchild_swap in H2.
  destruct (gchild_parent_eq i m Hi Hg) as (Hp & Hpm).
  set (p := (m - 1) / 2) in *.
  assert (Hb' : i < p < m /\ 0 <= i) by (destruct Hp, Hpm; lia).
  assert (Lk : 2 * m + 1 <= k) by (apply desc_lt; auto; lia).
  assert (Lj : 2 * k + 1 <= j) by (apply desc_lt; auto; lia).
  apply (ord_ext pol a).
  - rewrite H2 by lia.
    destruct (Z.eqb_spec k i); [lia|]. destruct (Z.eqb_spec k p); [lia|].
    destruct (Z.eqb_spec k m); [lia|reflexivity].
  - rewrite H2 by lia.
    destruct (Z.eqb_spec j i); [lia|]. destruct (Z.eqb_spec j p); [lia|].
    destruct (Z.eqb_spec j m); [lia|reflexivity].
  - apply Hb; auto; [|lia].
    apply desc_trans with m; auto. apply desc_gchild; auto.
Qed.

Lemma sift_post_gchild a a2 a' i m :
  0 <= i -> Z.of_nat (length a) > r -> lvl i = pol -> below_ok pol r a i ->
  is_gchild i m -> m <= r ->
  (forall j, desc i j -> j <> i -> j <= r -> rd a m <= rd a j) ->
  rd a m < rd a i ->
  after_gchild_swap a a2 i m -> length a2 = length a -> Permutation a2 a ->
  sift_post pol r a2 a' m ->
  sift_post pol r a a' i.
Proof.
  intros Hi Hlen Hl Hb Hg Hmr Hmin Hlt H2 L2 P2 (L' & P' & S' & O' & F').
  destruct (gchild_parent_eq i m Hi Hg) as (Hp & Hpm).
  unfold after_gchild_swap in H2.
  set (p := (m - 1) / 2) in *.
  assert (Hb' : i < p < m /\ 0 <= i) by (destruct Hp, Hpm; lia).
  assert (Dim : desc i m) by (apply desc_gchild; auto).
  assert (Dip : desc i p) by (apply desc_child; auto).
  assert (Dpm : desc p m) by (apply desc_child; auto).
  assert (Hyz : rd a m <= rd a p) by (apply Hmin; auto; lia).
  assert (Hmax : forall j, desc p j -> p <> j -> j <= r -> rd a j <= rd a p).
  { intros j D N L. eapply acts_max; eauto. }
  (* values read in the subtree of m after the recursive call *)
  assert (Hin : forall j, desc m j -> j <= r ->
            exists j', desc m j' /\ j' <= r /\
              rd a' j = if j' =? m then Z.min (rd a p) (rd a i) else rd a j').
  { intros j D L. destruct (F' j D L) as (j' & D' & L1 & E).
    exists j'. repeat split; auto. rewrite E.
    pose proof (desc_le m j' ltac:(lia) D'). rewrite H2 by lia.
    destruct (Z.eqb_spec j' i); [lia|]. destruct (Z.eqb_spec j' p); [lia|].
    reflexivity. }
  assert (Hout : forall j, 0 <= j -> ~ desc m j \/ r < j ->
            rd a' j = if j =? i then rd a m
                      else if j =? p then Z.max (rd a p) (rd a i) else rd a j).
  { intros j Hj D. rewrite (O' j Hj D). rewrite H2 by lia.
    destruct (Z.eqb_spec j i); auto. destruct (Z.eqb_spec j p); auto.
    destruct (Z.eqb_spec j m) as [->|]; auto.
    destruct D as [D|D]; [exfalso; apply D; constructor|lia]. }
  split; [|split; [|split; [|split]]].
  - congruence.
  - etransitivity; eauto.
  - intros k j Dk Dj N L.
    pose proof (desc_le _ _ Hi Dk) as Lk.
    assert (Lj : 2 * k + 1 <= j) by (apply desc_lt; auto; lia).
    destruct (desc_dec m k ltac:(lia)) as [Dmk|Dmk].
    { apply S'; auto. }
    destruct (desc_dec m j ltac:(lia)) as [Dmj|Dmj].
    + (* k is a proper ancestor of m *)
      assert (Dkm : desc k m).
      { destruct (desc_chain k m j) as [D|D]; auto; try lia. contradiction. }
      destruct (Hin j Dmj L) as (j' & D' & L1 & E).
      pose proof (desc_le m j' ltac:(lia) D') as Lj'.
      assert (Hj' : rd a m <= rd a' j /\ rd a' j <= Z.max (rd a p) (rd a i)).
      { rewrite E. destruct (Z.eqb_spec j' m); [lia|].
        split.
        - apply Hmin; auto; [|lia]. apply desc_trans with m; auto.
        - specialize (Hmax j'). 
          assert (rd a j' <= rd a p); [|lia].
          apply Hmax; auto; [|lia]. apply desc_trans with m; auto. }
      destruct (between_gchild i k m Hi Hg Dk Dkm) as [E'|[E'|E']];
        [|fold p in E'|]; subst k.
      * unfold ord. rewrite Hl, eqb_reflx.
        rewrite (Hout i) by auto. rewrite Z.eqb_refl. lia.
      * unfold ord. rewrite (lvl_child i p), Hl by auto.
        replace (Bool.eqb (negb pol) pol) with false by (destruct pol; reflexivity).
        rewrite (Hout p) by (auto; lia). rewrite Z.eqb_refl.
        destruct (Z.eqb_spec p i); lia.
      * exfalso. apply Dmk. constructor.
    + assert (Ek := Hout k ltac:(lia) (or_introl Dmk)).
      assert (Ej := Hout j ltac:(lia) (or_introl Dmj)).
      destruct (Z.eqb_spec j i); [lia|].
      destruct (Z.eq_dec k i) as [->|Nk].
      * unfold ord. rewrite Hl, eqb_reflx. rewrite Ek, Ej, Z.eqb_refl.
        destruct (Z.eqb_spec j p); [lia|]. apply Hmin; auto.
      * pose proof (desc_lt i k Hi Dk Nk).
        destruct (Z.eqb_spec k i); [lia|].
        destruct (Z.eqb_spec j p); [destruct Hp; lia|].
        destruct (Z.eqb_spec k p) as [->|].
        -- unfold ord. rewrite (lvl_child i p), Hl by auto.
           replace (Bool.eqb (negb pol) pol) with false by (destruct pol; reflexivity).
           rewrite Ek, Ej. specialize (Hmax j Dj N L). lia.
        -- apply (ord_ext pol a); auto.
  - intros j Hj D. rewrite Hout.
    + destruct (Z.eqb_spec j i) as [->|].
      { destruct D as [D|D]; [exfalso; apply D; constructor|lia]. }
      destruct (Z.eqb_spec j p) as [->|]; auto.
      destruct D as [D|D]; [exfalso; apply D; auto|lia].
    + exact Hj.
    + destruct D as [D|D]; auto. left. intros D'. apply D.
      apply desc_trans with m; auto.
  - intros j D L. pose proof (desc_le _ _ Hi D).
    assert (Cmax : Z.max (rd a p) (rd a i) = rd a p \/
                   Z.max (rd a p) (rd a i) = rd a i) by lia.
    assert (Cmin : Z.min (rd a p) (rd a i) = rd a p \/
                   Z.min (rd a p) (rd a i) = rd a i) by lia.
    destruct (desc_dec m j ltac:(lia)) as [Dmj|Dmj].
    + destruct (Hin j Dmj L) as (j' & D' & L1 & E). rewrite E.
      destruct (Z.eqb_spec j' m).
      * destruct Cmin as [->| ->]; [exists p|exists i];
          repeat split; auto; try lia. constructor.
      * exists j'. repeat split; auto. apply desc_trans with m; auto.
    + rewrite (Hout j ltac:(lia) (or_introl Dmj)).
      destruct (Z.eqb_spec j i); [exists m; repeat split; auto|].
      destruct (Z.eqb_spec j p); [|exists j; auto].
      destruct Cmax as [->| ->]; [exists p|exists i];
        repeat split; auto; try lia. constructor.
Qed.

Lemma sift_down_min_core : forall fuel a i,
  0 <= i <= r -> Z.of_nat (length a) > r -> lvl i = pol ->
  below_ok pol r a i -> (Z.to_nat (r - i) <= fuel)%nat ->
  exists a', sift_down_min_loop fuel a i r true = Some a' /\ sift_post pol r a a' i.
Proof.
  induction fuel as [|fuel IH]; intros a i Hi Hlen Hl Hb Hf;
    cbn [sift_down_min_loop andb]; rewrite left_eq by bounds;
    destruct (Z.leb_spec (2 * i + 1) r) as [Hc|Hc];
    try (exists a; split; [reflexivity|];
         apply sift_post_refl; auto; [lia|];
         intros j D N L; pose proof (desc_lt i j ltac:(lia) D N); lia).
  - lia.
  - destruct (min_child_or_gchild_spec a i r ltac:(lia) Hr Hc) as (_ & Hm & Hmr & _).
    pose proof (min_is_least pol r Hr a i ltac:(lia) Hc Hl Hb) as Hmin.
    set (m := snd (min_child_or_gchild a i r)) in *.
    destruct (child i m) eqn:Ec.
    + apply child_spec in Ec; [|lia].
      destruct (Z.ltb_spec (rd a m) (rd a i)) as [Hlt|Hge];
        rewrite sift_down_min_loop_stop.
      * eexists; split; [reflexivity|]. apply sift_post_child; auto; lia.
      * eexists; split; [reflexivity|]. apply sift_post_refl; auto; [lia|].
        intros j D N L. specialize (Hmin j D N L). lia.
    + assert (Hg : is_gchild i m).
      { destruct Hm as [C|G]; auto. apply child_spec in C; [congruence|lia]. }
      destruct (Z.ltb_spec (rd a m) (rd a i)) as [Hlt|Hge].
      * destruct (gchild_swap_shape a i m ltac:(lia) Hlen Hg Hmr) as (H2 & L2 & P2).
        cbv zeta in H2, L2, P2.
        set (a2 := if rd (swap a m i) (parent m) <? rd (swap a m i) m
                   then swap (swap a m i) m (parent m) else swap a m i) in *.
        destruct (IH a2 m) as (a' & E & Hpost).
        -- unfold is_gchild in Hg; lia.
        -- lia.
        -- rewrite (lvl_gchild i m); auto; lia.
        -- apply (below_ok_after_gchild_swap a a2 i m); auto; lia.
        -- unfold is_gchild in Hg; lia.
        -- exists a'. split; [exact E|].
           apply (sift_post_gchild a a2 a' i m); auto; lia.
      * rewrite sift_down_min_loop_stop.
        eexists; split; [reflexivity|]. apply sift_post_refl; auto; [lia|].
        intros j D N L. specialize (Hmin j D N L). lia.
Qed.
End SiftDownCore.

(** ** Sifting down inside a heap *)

Lemma frame_neg keep a a' : frame keep (neg a) a' -> frame keep a (neg a').
Proof.
  intros (L & P & K). split; [|split].
  - rewrite length_neg, L, length_neg. reflexivity.
  - apply neg_perm. rewrite neg_neg. exact P.
  - intros j Hj Hk. rewrite rd_neg, (K j Hj Hk), rd_neg. lia.
Qed.

Lemma frame_trans (k1 k2 k3 : Z -> Prop) a b c :
  (forall j, k3 j -> k1 j) -> (forall j, k3 j -> k2 j) ->
  frame k1 a b -> frame k2 b c -> frame k3 a c.
Proof.
  intros H1 H2 (L1 & P1 & K1) (L2 & P2 & K2). split; [|split].
  - congruence.
  - etransitivity; eauto.
  - intros j Hj Hk. rewrite K2, K1; auto.
Qed.

Lemma frame_weaken (k1 k2 : Z -> Prop) a b :
  (forall j, k2 j -> k1 j) -> frame k1 a b -> frame k2 a b.
Proof.
  intros H (L & P & K). split; [|split]; auto.
Qed.

Lemma tail_ok_neg pol a n c : tail_ok pol (neg a) n c <-> tail_ok (negb pol) a n c.
Proof.
  unfold tail_ok. split; intros H k j Hk D N L; specialize (H k j Hk D N L);
    apply ord_neg; auto.
Qed.

Section SiftDownUse.
Variable pol : bool.
Variable n : Z.
Hypothesis Hn : n <= index_limit.

(** The heap is in order except below [i]: sifting [i] down repairs it. *)
Lemma sift_down_min_repairs fuel a i :
  0 <= i < n -> n <= Z.of_nat (length a) -> lvl i = pol ->
  okx pol a n (fun k _ => k = i) -> (Z.to_nat n <= fuel)%nat ->
  exists a', sift_down_min fuel a i (n - 1) = Some a' /\
             heap_ok pol a' n /\ frame (untouched n i) a a'.
Proof.
  intros Hi Hlen Hl Hok Hf.
  assert (Hb : below_ok pol (n - 1) a i).
  { intros k j Dk Nk Dj N L.
    destruct (Hok k j) as [E|O]; auto; try lia.
    pose proof (desc_le i k ltac:(lia) Dk). lia. }
  destruct (sift_down_min_core pol (n - 1) ltac:(lia) fuel a i)
    as (a' & E & L' & P' & S' & O' & F'); auto; try lia.
  exists a'. split; [exact E|]. split.
  - intros k j Hk D N L.
    destruct (desc_dec i k ltac:(lia)) as [Dik|Dik].
    { apply S'; auto. lia. }
    assert (Ek : rd a' k = rd a k) by (apply O'; auto).
    destruct (desc_dec i j ltac:(lia)) as [Dij|Dij].
    + destruct (F' j Dij ltac:(lia)) as (j' & Dj' & Lj' & Ej).
      assert (Dki : desc k i).
      { destruct (desc_chain k i j) as [C|C]; auto; try lia. contradiction. }
      assert (Nki : k <> i) by (intros ->; apply Dik; constructor).
      pose proof (desc_le k i Hk Dki).
      pose proof (desc_le i j' ltac:(lia) Dj').
      destruct (Hok k j') as [C|C]; auto; try lia.
      * apply desc_trans with i; auto.
      * unfold ord in *. rewrite Ek, Ej. exact C.
    + destruct (Hok k j) as [C|C]; auto.
      * subst k. exfalso. apply Dij; auto.
      * apply (ord_ext pol a); auto. apply O'; auto.
        pose proof (desc_le k j Hk D). lia.
  - split; [|split]; auto.
    intros j Hj [K|K]; apply O'; auto. right. lia.
Qed.

(** One step of the bottom-up construction. *)
Lemma sift_down_min_extends fuel a i :
  0 <= i < n -> n <= Z.of_nat (length a) -> lvl i = pol ->
  tail_ok pol a n (i + 1) -> (Z.to_nat n <= fuel)%nat ->
  exists a', sift_down_min fuel a i (n - 1) = Some a' /\
             tail_ok pol a' n i /\ frame (untouched n i) a a'.
Proof.
  intros Hi Hlen Hl Hok Hf.
  assert (Hb : below_ok pol (n - 1) a i).
  { intros k j Dk Nk Dj N L. apply Hok; auto; try lia.
    pose proof (desc_lt i k ltac:(lia) Dk Nk). lia. }
  destruct (sift_down_min_core pol (n - 1) ltac:(lia) fuel a i)
    as (a' & E & L' & P' & S' & O' & F'); auto; try lia.
  exists a'. split; [exact E|]. split.
  - intros k j Hk D N L.
    destruct (desc_dec i k ltac:(lia)) as [Dik|Dik].
    { apply S'; auto. lia. }
    assert (Nki : k <> i) by (intros ->; apply Dik; constructor).
    assert (Dij : ~ desc i j).
    { intros Dij. destruct (desc_chain k i j) as [C|C]; auto; try lia.
      apply desc_le in C; lia. }
    pose proof (desc_le k j ltac:(lia) D).
    apply (ord_ext pol a); try (apply O'; auto; lia).
    apply Hok; auto. lia.
  - split; [|split]; auto.
    intros j Hj [K|K]; apply O'; auto. right. lia.
Qed.
End SiftDownUse.

Lemma sift_down_repairs fuel a n i :
  n <= index_limit -> 0 <= i < n -> n <= Z.of_nat (length a) ->
  okx true a n (fun k _ => k = i) -> (Z.to_nat n <= fuel)%nat ->
  exists a', sift_down fuel a i (n - 1) = Some a' /\
             min_max_heap a' n /\ frame (untouched n i) a a'.
Proof.
  intros Hn Hi Hlen Hok Hf. unfold sift_down.
  rewrite min_level_lvl by bounds. destruct (lvl i) eqn:Hl.
  - apply (sift_down_min_repairs true n Hn fuel a i); auto.
  - rewrite sift_down_max_neg.
    destruct (sift_down_min_repairs false n Hn fuel (neg a) i)
      as (a' & E & H & F); auto.
    + rewrite length_neg. exact Hlen.
    + apply okx_neg. exact Hok.
    + rewrite E. exists (neg a'). split; [reflexivity|]. split.
      * apply heap_ok_neg. exact H.
      * apply frame_neg. exact F.
Qed.

Lemma sift_down_extends fuel a n i :
  n <= index_limit -> 0 <= i < n -> n <= Z.of_nat (length a) ->
  tail_ok true a n (i + 1) -> (Z.to_nat n <= fuel)%nat ->
  exists a', sift_down fuel a i (n - 1) = Some a' /\
             tail_ok true a' n i /\ frame (untouched n i) a a'.
Proof.
  intros Hn Hi Hlen Hok Hf. unfold sift_down.
  rewrite min_level_lvl by bounds. destruct (lvl i) eqn:Hl.
  - apply (sift_down_min_extends true n Hn fuel a i); auto.
  - rewrite sift_down_max_neg.
    destruct (sift_down_min_extends false n Hn fuel (neg a) i)
      as (a' & E & H & F); auto.
    + rewrite length_neg. exact Hlen.
    + apply tail_ok_neg. exact Hok.
    + rewrite E. exists (neg a'). split; [reflexivity|]. split.
      * apply tail_ok_neg. exact H.
      * apply frame_neg. exact F.
Qed.

(** ** [make_heap] *)

Lemma make_heap_loop_ok inner a0 n : forall fuel a c,
  1 < n <= index_limit -> n <= Z.of_nat (length a) -> 0 <= c < n ->
  tail_ok true a n (c + 1) -> frame (fun j => n <= j) a0 a ->
  (Z.to_nat n <= inner)%nat -> (Z.to_nat c < fuel)%nat ->
  exists a', make_heap_loop fuel inner a c n false = Some a' /\
             min_max_heap a' n /\ frame (fun j => n <= j) a0 a'.
Proof.
  induction fuel as [|fuel IH]; intros a c Hn Hlen Hc Hok Hfr Hin Hf; [lia|].
  cbn [make_heap_loop negb]. rewrite pred_eq by bounds.
  destruct (sift_down_extends inner a n c) as (a1 & E & T & F); auto; try lia.
  rewrite E.
  assert (F1 : frame (fun j => n <= j) a0 a1).
  { eapply frame_trans; [| |exact Hfr|exact F]; auto.
    intros j Hj. right. exact Hj. }
  destruct (Z.eqb_spec c 0) as [->|Nc].
  - exists a1. split; [destruct fuel; reflexivity|]. split; auto.
  - rewrite pred_eq by bounds. apply IH; auto; try lia.
    + destruct F as (L & _). lia.
    + replace (c - 1 + 1) with c by lia. exact T.
Qed.

Lemma make_heap_ok fuel a n :
  0 <= n <= index_limit -> n <= Z.of_nat (length a) -> (Z.to_nat n <= fuel)%nat ->
  exists a', make_heap fuel a n = Some a' /\
             min_max_heap a' n /\ frame (fun j => n <= j) a a'.
Proof.
  intros Hn Hlen Hf. unfold make_heap.
  destruct (Z.ltb_spec 1 n) as [H1|H1].
  - rewrite pred_eq by bounds. rewrite parent_eq by bounds.
    assert (Hp : 0 <= (n - 1 - 1) / 2 < n).
    { split; [apply Z.div_pos; lia|]. apply Z.div_lt_upper_bound; lia. }
    apply make_heap_loop_ok; auto; try lia.
    + intros k j Hk D N L.
      pose proof (desc_lt k j ltac:(lia) D ltac:(lia)).
      pose proof (Z.div_mod (n - 1 - 1) 2 ltac:(lia)).
      pose proof (Z.mod_pos_bound (n - 1 - 1) 2 ltac:(lia)). lia.
    + split; [|split]; auto.
  - exists a. split; [reflexivity|]. split; [|split; [|split]]; auto.
    intros k j Hk D N L. pose proof (desc_lt k j Hk D ltac:(lia)). lia.
Qed.

(** ** The validator *)

Lemma ord_trans pol a k p j :
  lvl p = lvl k -> ord pol a k p -> ord pol a p j -> ord pol a k j.
Proof. unfold ord. intros ->. destruct (Bool.eqb (lvl k) pol); lia. Qed.

Lemma is_child_parent j : 0 < j -> is_child ((j - 1) / 2) j.
Proof.
  intros Hj. unfold is_child.
  pose proof (Z.div_mod (j - 1) 2 ltac:(lia)).
  pose proof (Z.mod_pos_bound (j - 1) 2 ltac:(lia)). lia.
Qed.

Lemma local_ok_heap_ok pol a n : local_ok pol a n <-> heap_ok pol a n.
Proof.
  split.
  - intros Hloc.
    assert (H : forall m : nat, forall j k, j < Z.of_nat m -> 0 <= k ->
                desc k j -> k <> j -> j < n -> ord pol a k j).
    { induction m as [|m IH]; intros j k Hm Hk D N L.
      { apply (desc_le _ _ Hk) in D. lia. }
      destruct (desc_parent k j Hk D ltac:(lia)) as (Hj & Dp).
      pose proof (is_child_parent j Hj) as Cp.
      set (p := (j - 1) / 2) in *.
      assert (Lp : k <= p < j).
      { split; [apply desc_le; auto|destruct Cp; lia]. }
      destruct (Z.eq_dec k p) as [->|Np]; [apply Hloc; auto|].
      destruct (desc_parent k p Hk Dp ltac:(lia)) as (Hp & Dq).
      pose proof (is_child_parent p Hp) as Cq.
      set (q := (p - 1) / 2) in *.
      assert (Lq : k <= q < p).
      { split; [apply desc_le; auto|destruct Cq; lia]. }
      destruct (Bool.bool_dec (lvl p) (lvl k)) as [E|E].
      - apply ord_trans with p; auto.
        + apply IH; auto; lia.
        + apply Hloc; auto; lia.
      - assert (Eq : lvl q = lvl k).
        { rewrite (lvl_child q p) in E by (auto; lia).
          destruct (lvl q), (lvl k); simpl in E; congruence. }
        assert (Gq : is_gchild q j) by (eapply child_of_child; eauto).
        destruct (Z.eq_dec k q) as [->|Nq]; [apply Hloc; auto|].
        apply ord_trans with q; auto.
        + apply IH; auto; lia.
        + apply Hloc; auto; lia. }
    intros k j Hk D N L. apply (H (Z.to_nat (j + 1)) j k); auto.
    pose proof (desc_le _ _ Hk D). lia.
  - intros H k j Hk C L. apply H; auto.
    + destruct C; [apply desc_child|apply desc_gchild]; auto.
    + unfold is_child, is_gchild in C. lia.
Qed.

Lemma node_check_spec a n s :
  0 <= s -> 2 * s + 1 < n -> n <= index_limit ->
  (node_check a n s = true <->
   forall j, is_child s j \/ is_gchild s j -> j < n -> ord true a s j).
Proof.
  intros Hs Hc Hn. unfold node_check. rewrite pred_eq by bounds.
  rewrite min_level_lvl by bounds. unfold ord.
  destruct (lvl s); cbn [Bool.eqb].
  - destruct (min_child_or_gchild_spec a s (n - 1) Hs ltac:(lia) ltac:(lia))
      as (E & C & L & M).
    rewrite E. cbn [negb orb].
    set (m := snd (min_child_or_gchild a s (n - 1))) in *.
    rewrite orb_true_iff, Z.ltb_lt, Z.eqb_eq. split.
    + intros H j Hj Lj. specialize (M j Hj). lia.
    + intros H. specialize (H m C). lia.
  - rewrite max_child_or_gchild_neg.
    destruct (min_child_or_gchild_spec (neg a) s (n - 1) Hs ltac:(lia) ltac:(lia))
      as (E & C & L & M).
    rewrite E. cbn [negb orb].
    set (m := snd (min_child_or_gchild (neg a) s (n - 1))) in *.
    rewrite orb_true_iff, Z.ltb_lt, Z.eqb_eq. split.
    + intros H j Hj Lj. specialize (M j Hj). rewrite !rd_neg in M. lia.
    + intros H. specialize (H m C). lia.
Qed.

Lemma is_heap_loop_step fuel a n i b :
  is_heap_loop (S fuel) a n i b =
  if b && has_parent i
  then is_heap_loop fuel a n (wrap (i - 1)) (b && node_check a n (parent i))
  else Some b.
Proof.
  cbn [is_heap_loop]. unfold node_check.
  destruct (b && has_parent i); [|reflexivity].
  destruct (min_level (parent i)); reflexivity.
Qed.

Lemma is_heap_loop_spec a n : forall fuel i b,
  n <= index_limit -> 0 <= i < n -> (Z.to_nat i <= fuel)%nat ->
  exists b', is_heap_loop fuel a n i b = Some b' /\
    (b' = true <->
     b = true /\ forall t, 1 <= t <= i -> node_check a n (parent t) = true).
Proof.
  induction fuel as [|fuel IH]; intros i b Hn Hi Hf.
  - assert (i = 0) as -> by lia. exists b. split.
    + cbn. rewrite andb_false_r. reflexivity.
    + split; [intros ->; split; auto; intros; lia|tauto].
  - rewrite is_heap_loop_step. unfold has_parent.
    destruct b; cbn [andb].
    + destruct (Z.ltb_spec 0 i) as [Hp|Hp].
      * rewrite pred_eq by bounds.
        destruct (IH (i - 1) (node_check a n (parent i))) as (b' & E & Hb);
          auto; try lia.
        exists b'. split; [exact E|]. rewrite Hb. split.
        -- intros (H1 & H2). split; auto. intros t Ht.
           destruct (Z.eq_dec t i) as [->|]; auto. apply H2. lia.
        -- intros (_ & H). split; [apply H; lia|]. intros t Ht. apply H. lia.
      * exists true. split; auto. split; auto. intros _. split; auto.
        intros t Ht. lia.
    + exists false. split; auto. split; [discriminate|tauto].
Qed.

Lemma is_heap_spec fuel a n :
  0 <= n <= index_limit -> (Z.to_nat n <= fuel)%nat ->
  exists b, is_heap fuel a n = Some b /\ (b = true <-> min_max_heap a n).
Proof.
  intros Hn Hf. unfold is_heap, min_max_heap.
  destruct (Z.ltb_spec 1 n) as [H1|H1].
  - rewrite pred_eq by bounds.
    destruct (is_heap_loop_spec a n fuel (n - 1) true) as (b & E & Hb);
      auto; try lia.
    exists b. split; [exact E|]. rewrite Hb, <- local_ok_heap_ok. split.
    + intros (_ & H) k j Hk C L.
      assert (Hc : 2 * k + 1 < n) by (unfold is_child, is_gchild in C; lia).
      specialize (H (2 * k + 1) ltac:(lia)).
      rewrite parent_left in H by bounds.
      apply (proj1 (node_check_spec a n k Hk Hc ltac:(lia)) H); auto.
    + intros H. split; auto. intros t Ht.
      rewrite parent_eq by bounds.
      pose proof (is_child_parent t ltac:(lia)) as C.
      set (s := (t - 1) / 2) in *.
      assert (0 <= s) by (apply Z.div_pos; lia).
      apply node_check_spec; auto.
      * destruct C; lia.
      * lia.
  - exists true. split; auto. split; auto. intros _ k j Hk D N L.
    pose proof (desc_lt k j Hk D ltac:(lia)). lia.
Qed.

(** ** Bubbling up *)

Lemma lvl_1 : lvl 1 = false.
Proof. reflexivity. Qed.

Lemma lvl_2 : lvl 2 = false.
Proof. reflexivity. Qed.

Lemma gparent_eq c :
  2 < c < word_modulus -> gparent c = ((c - 1) / 2 - 1) / 2.
Proof.
  intros Hc. unfold gparent. rewrite (parent_eq c) by lia.
  assert (1 <= (c - 1) / 2 < c).
  { split; [apply Z.div_le_lower_bound; lia|apply Z.div_lt_upper_bound; lia]. }
  rewrite parent_eq by lia. reflexivity.
Qed.

(** The proper ancestors of [c] are its parent and the ancestors of its
    parent. *)
Lemma ancestor_cases k c :
  0 <= k -> desc k c -> k <> c ->
  k = (c - 1) / 2 \/ (desc k ((c - 1) / 2) /\ k <> (c - 1) / 2).
Proof.
  intros Hk D N. destruct (desc_parent k c Hk D ltac:(lia)) as (_ & Dp).
  destruct (Z.eq_dec k ((c - 1) / 2)); auto.
Qed.

Section BubbleUp.
Variable pol : bool.
Variable n : Z.
Hypothesis Hn : n <= index_limit.
(** Pairs that are out of order for another reason and that the
    bubbling never looks at. *)
Variable Y : Z -> Z -> Prop.

Lemma bubble_up_min_loop_stop fuel a c :
  bubble_up_min_loop fuel a c true = Some a.
Proof. destruct fuel; reflexivity. Qed.

Lemma bubble_settled a c :
  0 <= c < n -> lvl c = pol -> (forall k j, Y k j -> ~ desc k c) ->
  okx pol a n (up_exc pol Y c) ->
  (2 < c -> rd a (((c - 1) / 2 - 1) / 2) <= rd a c) ->
  okx pol a n Y.
Proof.
  intros Hc Hl HY Hok Hg k j Hk D N L.
  destruct (Hok k j Hk D N L) as [[(-> & Hlk)|HYk]|O]; auto.
  right.
  destruct (ancestor_cases k c Hk D N) as [->|(Dp & Np)].
  { pose proof (is_child_parent c ltac:(pose proof (desc_le _ _ Hk D); lia)) as C.
    rewrite (lvl_child ((c - 1) / 2) c) in Hl by auto.
    rewrite <- Hl in Hlk. destruct (lvl ((c - 1) / 2)); discriminate. }
  set (p := (c - 1) / 2) in *.
  pose proof (desc_le _ _ Hk Dp) as Lp.
  pose proof (is_child_parent c ltac:(pose proof (desc_le _ _ Hk D); lia)) as Cp.
  fold p in Cp.
  pose proof (is_child_parent p ltac:(lia)) as Cq.
  set (q := (p - 1) / 2) in *.
  assert (Lc : 2 < c) by (destruct Cp, Cq; lia).
  specialize (Hg Lc).
  assert (Dqc : desc q c).
  { apply desc_trans with p; apply desc_child; auto. }
  assert (Hlq : lvl q = pol).
  { rewrite <- Hl. symmetry. apply lvl_gchild; [destruct Cq; lia|].
    eapply child_of_child; eauto. }
  destruct (ancestor_cases k p Hk Dp Np) as [->|(Dq & Nq)].
  - unfold ord. fold q. rewrite Hlq, eqb_reflx. exact Hg.
  - fold q in Dq, Nq.
    assert (Lq : q < p < c) by (destruct Cp, Cq; lia).
    destruct (Hok k q Hk Dq Nq ltac:(lia)) as [[(E & _)|HYq]|O].
    + lia.
    + exfalso. apply (HY _ _ HYq). exact D.
    + unfold ord in *. rewrite Hlk, eqb_reflx in *. lia.
Qed.

Lemma bubble_swap_ok a c :
  2 < c < n -> n <= Z.of_nat (length a) -> lvl c = pol ->
  (forall k j, Y k j -> ~ desc k c) ->
  okx pol a n (up_exc pol Y c) ->
  rd a c < rd a (((c - 1) / 2 - 1) / 2) ->
  okx pol (swap a c (((c - 1) / 2 - 1) / 2)) n (up_exc pol Y (((c - 1) / 2 - 1) / 2)).
Proof.
  intros Hc Hlen Hl HY Hok Hlt.
  pose proof (is_child_parent c ltac:(lia)) as Cp.
  set (p := (c - 1) / 2) in *.
  assert (Lp : 1 <= p < c) by (destruct Cp; lia).
  pose proof (is_child_parent p ltac:(lia)) as Cg.
  set (g := (p - 1) / 2) in *.
  assert (Lg : 0 <= g < p) by (destruct Cg; lia).
  assert (Dgp : desc g p) by (apply desc_child; auto).
  assert (Dpc : desc p c) by (apply desc_child; auto).
  assert (Dgc : desc g c) by (apply desc_trans with p; auto).
  assert (Hlg : lvl g = pol).
  { rewrite <- Hl. symmetry. apply lvl_gchild; [lia|].
    eapply child_of_child; eauto. }
  assert (Hlp : Bool.eqb (lvl p) pol = false).
  { rewrite (lvl_child g p), Hlg by (auto; lia). destruct pol; reflexivity. }
  assert (Hrd : forall x, 0 <= x ->
            rd (swap a c g) x =
            if x =? g then rd a c else if x =? c then rd a g else rd a x).
  { intros x Hx. apply rd_swap; lia. }
  (* facts taken from the order before the swap *)
  assert (Gd : forall j, desc g j -> j <> g -> j <> c -> j < n -> rd a g <= rd a j).
  { intros j D N1 N2 L.
    destruct (Hok g j) as [[(E & _)|HYg]|O]; auto; try lia.
    - exfalso. apply (HY _ _ HYg). exact Dgc.
    - unfold ord in O. rewrite Hlg, eqb_reflx in O. exact O. }
  intros k j Hk D N L.
  pose proof (desc_lt k j Hk D ltac:(lia)) as Lkj.
  unfold up_exc, ord. rewrite !Hrd by lia.
  destruct (Z.eqb_spec k g) as [->|Nkg].
  - (* the grandparent now holds the bubbled value *)
    right. rewrite Hlg, eqb_reflx. destruct (Z.eqb_spec j g); [lia|].
    destruct (Z.eqb_spec j c) as [->|Njc]; [lia|].
    specialize (Gd j D ltac:(lia) Njc L). lia.
  - destruct (Z.eqb_spec k c) as [->|Nkc].
    + right. rewrite Hl, eqb_reflx. destruct (Z.eqb_spec j g); [lia|].
      destruct (Z.eqb_spec j c); [lia|].
      apply Gd; auto; try lia. apply desc_trans with c; auto.
    + destruct (Z.eqb_spec j g) as [->|Njg].
      * destruct (Bool.bool_dec (lvl k) pol) as [E|E]; [left; left; auto|].
        right.
        assert (Dkc : desc k c) by (apply desc_trans with g; auto).
        destruct (Hok k c Hk Dkc Nkc ltac:(lia)) as [[(_ & E')|HYk]|O].
        -- contradiction.
        -- exfalso. apply (HY _ _ HYk). exact Dkc.
        -- unfold ord in O. destruct (Bool.eqb (lvl k) pol) eqn:Ek; [|exact O].
           apply eqb_prop in Ek. contradiction.
      * destruct (Z.eqb_spec j c) as [->|Njc].
        -- right.
           destruct (ancestor_cases k c Hk D N) as [E|(Dkp & Nkp)];
             [fold p in E|fold p in Dkp, Nkp].
           ++ subst k. rewrite Hlp. apply Gd; auto; lia.
           ++ destruct (ancestor_cases k p Hk Dkp Nkp) as [E|(Dkg & _)];
                [fold g in E; contradiction|fold g in Dkg].
              destruct (Hok k g Hk Dkg Nkg ltac:(lia)) as [[(E' & _)|HYk]|O];
                [lia| |exact O].
              exfalso. apply (HY _ _ HYk). exact D.
        -- destruct (Hok k j Hk D N L) as [[(E' & _)|HYk]|O]; auto.
           contradiction.
Qed.

Lemma bubble_up_min_core : forall fuel a c,
  0 <= c < n -> n <= Z.of_nat (length a) -> lvl c = pol ->
  (forall k j, Y k j -> ~ desc k c) ->
  okx pol a n (up_exc pol Y c) -> (Z.to_nat c <= fuel)%nat ->
  exists a', bubble_up_min_loop fuel a c false = Some a' /\
             okx pol a' n Y /\ frame (fun j => ~ desc j c) a a'.
Proof.
  induction fuel as [|fuel IH]; intros a c Hc Hlen Hl HY Hok Hf;
    cbn [bubble_up_min_loop negb andb]; unfold has_gparent;
    destruct (Z.ltb_spec 2 c) as [H2|H2];
    try (exists a; split; [reflexivity|]; split;
         [apply (bubble_settled a c); auto; lia
         |split; [|split]; auto]).
  - lia.
  - rewrite gparent_eq by bounds.
    set (g := ((c - 1) / 2 - 1) / 2) in *.
    pose proof (is_child_parent c ltac:(lia)) as Cp.
    pose proof (is_child_parent ((c - 1) / 2) ltac:(destruct Cp; lia)) as Cg.
    fold g in Cg.
    assert (Lg : 0 <= g < c) by (destruct Cp, Cg; lia).
    assert (Dgc : desc g c).
    { apply desc_trans with ((c - 1) / 2); apply desc_child; auto. }
    destruct (Z.ltb_spec (rd a c) (rd a g)) as [Hlt|Hge].
    + assert (Hlg : lvl g = pol).
      { rewrite <- Hl. symmetry. apply lvl_gchild; [lia|].
        eapply child_of_child; eauto. }
      assert (HYg : forall k j, Y k j -> ~ desc k g).
      { intros k j HYk D. apply (HY _ _ HYk). apply desc_trans with g; auto. }
      assert (Hok1 : okx pol (swap a c g) n (up_exc pol Y g)).
      { apply bubble_swap_ok; auto. lia. }
      assert (Hlen1 : n <= Z.of_nat (length (swap a c g))).
      { rewrite length_swap. exact Hlen. }
      destruct (IH (swap a c g) g ltac:(lia) Hlen1 Hlg HYg Hok1 ltac:(lia))
        as (a' & E & Hok' & (L' & P' & K')).
      exists a'. split; [exact E|]. split; [exact Hok'|].
      split; [|split].
      * rewrite L'. apply length_swap.
      * etransitivity; [exact P'|]. apply swap_perm; lia.
      * intros j Hj Dj. rewrite K'; auto.
        -- rewrite rd_swap by lia.
           destruct (Z.eqb_spec j g) as [->|]; [contradiction|].
           destruct (Z.eqb_spec j c) as [->|]; [|reflexivity].
           exfalso. apply Dj. constructor.
        -- intros D. apply Dj. apply desc_trans with g; auto.
    + rewrite bubble_up_min_loop_stop. exists a. split; [reflexivity|]. split.
      * apply (bubble_settled a c); auto.
      * split; [|split]; auto.
Qed.
End BubbleUp.

(** ** [bubble_up] *)

Lemma oneg_oneg o : oneg (oneg o) = o.
Proof. destruct o; simpl; rewrite ?neg_neg; reflexivity. Qed.

Lemma bubble_up_min_as_max fuel a c :
  bubble_up_min fuel a c = oneg (bubble_up_max fuel (neg a) c).
Proof. rewrite bubble_up_max_neg, neg_neg, oneg_oneg. reflexivity. Qed.

Lemma bubble_up_dispatch fuel a c :
  bubble_up fuel a c =
  if min_level c then bubble_up_from_min fuel a c
  else oneg (bubble_up_from_min fuel (neg a) c).
Proof.
  unfold bubble_up, bubble_up_from_min. destruct (min_level c); [reflexivity|].
  rewrite !rd_neg, ltb_neg, swap_neg.
  destruct (has_parent c && (rd a c <? rd a (parent c))).
  - apply bubble_up_min_as_max.
  - apply bubble_up_max_neg.
Qed.

Section BubbleFromMin.
Variable pol : bool.
Variable n : Z.
Hypothesis Hn : n <= index_limit.

(** No exchange with the parent: the value only moves along the
    levels of the kind of [c]. *)
Lemma bubble_up_min_fixes fuel a c :
  0 <= c < n -> n <= Z.of_nat (length a) -> lvl c = pol ->
  okx pol a n (fun _ j => j = c) ->
  (0 < c -> rd a c <= rd a ((c - 1) / 2)) ->
  (Z.to_nat n <= fuel)%nat ->
  exists a', bubble_up_min fuel a c = Some a' /\
             heap_ok pol a' n /\ frame (fun j => ~ desc j c) a a'.
Proof.
  intros Hc Hlen Hl Hok Hp Hf.
  destruct (bubble_up_min_core pol n Hn (fun _ _ => False) fuel a c)
    as (a' & E & Hok' & F); auto; try lia.
  - intros k j Hk D N L. unfold up_exc.
    destruct (Hok k j Hk D N L) as [->|O]; [|auto].
    destruct (Bool.bool_dec (lvl k) pol) as [Ek|Ek]; [auto|]. right.
    pose proof (desc_le _ _ Hk D) as Lk.
    pose proof (is_child_parent c ltac:(lia)) as Cp.
    specialize (Hp ltac:(lia)).
    set (p := (c - 1) / 2) in *.
    assert (Hnp : Bool.eqb (lvl k) pol = false) by (destruct (lvl k), pol; simpl; congruence).
    destruct (ancestor_cases k c Hk D N) as [E'|(Dp & Np)];
      [fold p in E'|fold p in Dp, Np].
    + subst k. unfold ord. rewrite Hnp. exact Hp.
    + destruct (Hok k p Hk Dp Np ltac:(destruct Cp; lia)) as [E'|O].
      * destruct Cp; lia.
      * unfold ord in *. rewrite Hnp in *. lia.
  - exists a'. split; [exact E|]. split; [|exact F].
    apply okx_heap_ok. exact Hok'.
Qed.

(** Exchange with the parent, then bubble the parent's slot up along
    the levels of the other kind. *)
Lemma bubble_up_swap_fixes fuel a c :
  0 < c < n -> n <= Z.of_nat (length a) -> lvl c = pol ->
  okx pol a n (fun k j => j = c \/ k = c) ->
  rd a ((c - 1) / 2) < rd a c ->
  (Z.to_nat n <= fuel)%nat ->
  exists a', bubble_up_max fuel (swap a c ((c - 1) / 2)) ((c - 1) / 2) = Some a' /\
             okx pol a' n (fun k _ => k = c) /\
             frame (fun j => ~ desc j c) a a' /\
             rd a' c = rd a ((c - 1) / 2).
Proof.
  intros Hc Hlen Hl Hok Hlt Hf.
  pose proof (is_child_parent c ltac:(lia)) as Cp.
  set (p := (c - 1) / 2) in *.
  assert (Lp : 0 <= p < c) by (destruct Cp; lia).
  assert (Dpc : desc p c) by (apply desc_child; auto).
  assert (Hlp : lvl p = negb pol).
  { rewrite (lvl_child p c) in Hl by (auto; lia).
    rewrite <- Hl. symmetry. apply negb_involutive. }
  assert (Hrd : forall x, 0 <= x ->
            rd (swap a c p) x =
            if x =? p then rd a c else if x =? c then rd a p else rd a x).
  { intros x Hx. apply rd_swap; lia. }
  rewrite bubble_up_max_neg.
  destruct (bubble_up_min_core (negb pol) n Hn (fun k _ => k = c) fuel
              (neg (swap a c p)) p)
    as (a' & E & Hok' & (L' & P' & K')); auto; try lia.
  - rewrite length_neg, length_swap. exact Hlen.
  - intros k j -> D. apply (desc_le c p) in D; lia.
  - apply okx_neg. rewrite negb_involutive.
    intros k j Hk D N L. unfold up_exc.
    pose proof (desc_lt k j Hk D ltac:(lia)) as Lkj.
    destruct (Z.eq_dec k c) as [->|Nkc]; [left; right; reflexivity|].
    assert (Pd : forall j, desc p j -> j <> p -> j <> c -> j < n -> rd a j <= rd a p).
    { intros x D' N1 N2 L1.
      destruct (Hok p x ltac:(lia) D' ltac:(lia) L1) as [[E'|E']|O]; try lia.
      unfold ord in O. rewrite Hlp in O.
      replace (Bool.eqb (negb pol) pol) with false in O by (destruct pol; reflexivity).
      exact O. }
    unfold ord. rewrite !Hrd by lia.
    destruct (Z.eqb_spec k c); [lia|].
    destruct (Z.eqb_spec k p) as [->|Nkp].
    + right. rewrite Hlp.
      replace (Bool.eqb (negb pol) pol) with false by (destruct pol; reflexivity).
      destruct (Z.eqb_spec j p); [lia|].
      destruct (Z.eqb_spec j c); [lia|].
      specialize (Pd j D ltac:(lia) ltac:(lia) L). lia.
    + destruct (Z.eqb_spec j p) as [->|Njp].
      * destruct (Bool.bool_dec (lvl k) (negb pol)) as [Ek|Ek]; [left; left; auto|].
        right.
        destruct (Hok k p Hk D N L) as [[E'|E']|O]; try lia.
        unfold ord in O.
        replace (Bool.eqb (lvl k) pol) with true in *
          by (destruct (lvl k), pol; simpl in *; congruence).
        lia.
      * destruct (Z.eqb_spec j c) as [->|Njc].
        -- right.
           destruct (ancestor_cases k c Hk D N) as [E'|(Dkp & _)];
             [fold p in E'; contradiction|fold p in Dkp].
           destruct (Hok k p Hk Dkp Nkp ltac:(lia)) as [[E'|E']|O]; try lia.
           exact O.
        -- destruct (Hok k j Hk D N L) as [[E'|E']|O]; try lia. right. exact O.
  - unfold bubble_up_min. rewrite E.
    exists (neg a'). split; [reflexivity|]. split; [|split].
    + apply okx_neg. exact Hok'.
    + split; [|split].
      * rewrite length_neg, L', length_neg. apply length_swap.
      * apply neg_perm. rewrite neg_neg. etransitivity; [exact P'|].
        apply neg_perm. apply swap_perm; lia.
      * intros j Hj Dj. rewrite rd_neg, K', rd_neg, Hrd; auto.
        -- destruct (Z.eqb_spec j p) as [->|]; [contradiction|].
           destruct (Z.eqb_spec j c) as [->|]; [|lia].
           exfalso. apply Dj. constructor.
        -- intros D. apply Dj. apply desc_trans with p; auto.
    + rewrite rd_neg, K', rd_neg, Hrd; try lia.
      * destruct (Z.eqb_spec c p); [lia|]. rewrite Z.eqb_refl. lia.
      * intros D. apply (desc_le c p) in D; lia.
Qed.

(** [bubble_up] on a slot whose value is arbitrary, with nothing in
    range below it: the case of [heap_insert]. *)
Lemma bubble_up_from_min_leaf fuel a c :
  0 <= c < n -> n <= 2 * c + 1 -> n <= Z.of_nat (length a) -> lvl c = pol ->
  okx pol a n (fun _ j => j = c) -> (Z.to_nat n <= fuel)%nat ->
  exists a', bubble_up_from_min fuel a c = Some a' /\
             heap_ok pol a' n /\ frame (fun j => ~ desc j c) a a'.
Proof.
  intros Hc Hleaf Hlen Hl Hok Hf. unfold bubble_up_from_min, has_parent.
  destruct (Z.ltb_spec 0 c) as [H0|H0]; cbn [andb].
  - rewrite parent_eq by bounds.
    destruct (Z.ltb_spec (rd a ((c - 1) / 2)) (rd a c)) as [Hlt|Hge].
    + destruct (bubble_up_swap_fixes fuel a c) as (a' & E & Hok' & F & _);
        auto; try lia.
      * intros k j Hk D N L. destruct (Hok k j Hk D N L); auto.
      * exists a'. split; [exact E|]. split; [|exact F].
        intros k j Hk D N L. destruct (Hok' k j Hk D N L) as [->|O]; auto.
        pose proof (desc_lt c j Hk D ltac:(lia)). lia.
    + apply bubble_up_min_fixes; auto.
  - apply bubble_up_min_fixes; auto. lia.
Qed.
End BubbleFromMin.

Lemma bubble_up_leaf fuel a n c :
  n <= index_limit -> 0 <= c < n -> n <= 2 * c + 1 -> n <= Z.of_nat (length a) ->
  okx true a n (fun _ j => j = c) -> (Z.to_nat n <= fuel)%nat ->
  exists a', bubble_up fuel a c = Some a' /\
             min_max_heap a' n /\ frame (fun j => ~ desc j c) a a'.
Proof.
  intros Hn Hc Hleaf Hlen Hok Hf. rewrite bubble_up_dispatch.
  rewrite min_level_lvl by bounds. destruct (lvl c) eqn:Hl.
  - apply (bubble_up_from_min_leaf true n Hn); auto.
  - destruct (bubble_up_from_min_leaf false n Hn fuel (neg a) c)
      as (a' & E & H & F); auto.
    + rewrite length_neg. exact Hlen.
    + apply okx_neg. exact Hok.
    + rewrite E. exists (neg a'). split; [reflexivity|]. split.
      * apply heap_ok_neg. exact H.
      * apply frame_neg. exact F.
Qed.

(** ** The occupied range as a multiset *)

Lemma occupied_length a n :
  0 <= n <= Z.of_nat (length a) -> length (occupied a n) = Z.to_nat n.
Proof. intros H. unfold occupied. rewrite length_firstn. lia. Qed.

Lemma rd_occupied a n j :
  0 <= j < n -> rd (occupied a n) j = rd a j.
Proof.
  intros H. unfold rd, occupied. rewrite nth_firstn.
  destruct (Nat.ltb_spec (Z.to_nat j) (Z.to_nat n)); [reflexivity|lia].
Qed.

Lemma In_occupied a n x :
  0 <= n <= Z.of_nat (length a) ->
  (In x (occupied a n) <-> exists j, 0 <= j < n /\ rd a j = x).
Proof.
  intros Hn. split.
  - intros H. destruct (In_nth _ _ 0 H) as (k & Hk & E).
    rewrite occupied_length in Hk by lia.
    exists (Z.of_nat k). split; [lia|].
    rewrite <- rd_occupied with (n := n) by lia.
    unfold rd. rewrite Nat2Z.id. exact E.
  - intros (j & Hj & <-). rewrite <- rd_occupied with (n := n) by lia.
    unfold rd. apply nth_In. rewrite occupied_length; lia.
Qed.

Lemma list_eq_rd (l1 l2 : list Z) :
  length l1 = length l2 -> (forall j, 0 <= j -> rd l1 j = rd l2 j) -> l1 = l2.
Proof.
  intros L H. apply (nth_ext l1 l2 0 0 L). intros k _.
  specialize (H (Z.of_nat k) ltac:(lia)). unfold rd in H.
  rewrite Nat2Z.id in H. exact H.
Qed.

Lemma rd_skipn a n j : 0 <= n -> 0 <= j -> rd (skipn (Z.to_nat n) a) j = rd a (n + j).
Proof.
  intros Hn Hj. unfold rd. rewrite nth_skipn. f_equal. lia.
Qed.

Lemma frame_occupied a a' n :
  0 <= n -> frame (fun j => n <= j) a a' ->
  Permutation (occupied a' n) (occupied a n).
Proof.
  intros Hn (L & P & K). unfold occupied.
  apply Permutation_app_inv_r with (l := skipn (Z.to_nat n) a).
  rewrite firstn_skipn.
  replace (skipn (Z.to_nat n) a) with (skipn (Z.to_nat n) a').
  - rewrite firstn_skipn. exact P.
  - apply list_eq_rd.
    + rewrite !length_skipn. lia.
    + intros j Hj. rewrite !rd_skipn by lia. apply K; lia.
Qed.

Lemma occupied_wr_last a n v :
  0 <= n < Z.of_nat (length a) -> occupied (wr a n v) (n + 1) = occupied a n ++ [v].
Proof.
  intros Hn. apply list_eq_rd.
  - rewrite length_app. rewrite !occupied_length; rewrite ?length_wr; simpl; lia.
  - intros j Hj. destruct (Z_lt_dec j (n + 1)) as [Lj|Lj].
    + rewrite rd_occupied by lia. rewrite rd_wr by lia.
      unfold rd at 2. destruct (Z.eqb_spec j n) as [->|Nj].
      * rewrite app_nth2; rewrite occupied_length by lia; [|lia].
        rewrite Nat.sub_diag. reflexivity.
      * rewrite app_nth1 by (rewrite occupied_length; lia).
        fold (rd (occupied a n) j). rewrite rd_occupied by lia. reflexivity.
    + unfold rd. rewrite !nth_overflow; auto.
      * rewrite length_app, occupied_length by lia. simpl. lia.
      * rewrite occupied_length; rewrite ?length_wr; lia.
Qed.

Lemma occupied_split_last a n :
  0 < n <= Z.of_nat (length a) ->
  occupied a n = occupied a (n - 1) ++ [rd a (n - 1)].
Proof.
  intros Hn. rewrite <- (occupied_wr_last a (n - 1) (rd a (n - 1))) by lia.
  rewrite wr_same_value. f_equal. lia.
Qed.

Lemma desc_root j : 0 <= j -> desc 0 j.
Proof.
  intros Hj.
  assert (H : forall m : nat, forall j, 0 <= j < Z.of_nat m -> desc 0 j).
  { induction m as [|m IH]; intros j' Hj'; [lia|].
    destruct (Z.eq_dec j' 0) as [->|N]; [constructor|].
    pose proof (is_child_parent j' ltac:(lia)) as C.
    apply desc_trans with ((j' - 1) / 2); [|apply desc_child; auto].
    apply IH. destruct C; lia. }
  apply (H (Z.to_nat (j + 1))). lia.
Qed.

(** ** [heap_min] and [heap_max] on a heap *)

Lemma heap_root_least a n j :
  min_max_heap a n -> 0 <= j < n -> rd a 0 <= rd a j.
Proof.
  intros H Hj. destruct (Z.eq_dec j 0) as [->|N]; [lia|].
  specialize (H 0 j ltac:(lia) (desc_root j ltac:(lia)) ltac:(lia) ltac:(lia)).
  unfold ord in H. rewrite lvl_root in H. exact H.
Qed.

Lemma heap_level1_greatest a n c j :
  min_max_heap a n -> is_child 0 c -> desc c j -> j < n -> rd a j <= rd a c.
Proof.
  intros H Hc D Hj. destruct (Z.eq_dec c j) as [->|N]; [lia|].
  specialize (H c j ltac:(destruct Hc; lia) D N Hj).
  unfold ord in H. rewrite (lvl_child 0 c), lvl_root in H by (auto; lia).
  exact H.
Qed.

Lemma max_slot_spec a n :
  1 <= n <= index_limit ->
  (n = 1 /\ max_slot a n = 0 /\ fst (max_child a 0 (wrap (n - 1))) = false) \/
  (1 < n /\ is_child 0 (max_slot a n) /\ max_slot a n < n /\
   fst (max_child a 0 (wrap (n - 1))) = true /\
   snd (max_child a 0 (wrap (n - 1))) = max_slot a n /\
   forall c, is_child 0 c -> c < n -> rd a c <= rd a (max_slot a n)).
Proof.
  intros Hn. unfold max_slot. rewrite pred_eq by bounds.
  rewrite max_child_neg.
  destruct (Z.eq_dec n 1) as [->|N].
  - left. repeat split; reflexivity.
  - right. destruct (min_child_spec (neg a) 0 (n - 1)) as (E & C & L & M); try lia.
    rewrite E. cbn [fst snd]. repeat split; auto; try lia.
    intros c Hc Lc. specialize (M c Hc ltac:(lia)). rewrite !rd_neg in M. lia.
Qed.

Lemma heap_max_slot_greatest a n j :
  1 <= n <= index_limit -> min_max_heap a n -> 0 <= j < n ->
  rd a j <= rd a (max_slot a n).
Proof.
  intros Hn H Hj.
  destruct (max_slot_spec a n Hn) as [(-> & E & _)|(H1 & C & L & _ & _ & M)].
  - replace j with 0 by lia. rewrite E. lia.
  - destruct (Z.eq_dec j 0) as [->|N].
    + pose proof (heap_root_least a n (max_slot a n) H ltac:(destruct C; lia)). lia.
    + destruct (desc_step 0 j (desc_root j ltac:(lia)) N) as (c & Hc & D).
      pose proof (desc_le c j ltac:(destruct Hc; lia) D).
      pose proof (heap_level1_greatest a n c j H Hc D ltac:(lia)).
      specialize (M c Hc ltac:(lia)). lia.
Qed.

Lemma max_slot_range a n : 1 <= n <= index_limit -> 0 <= max_slot a n < n.
Proof.
  intros Hn.
  destruct (max_slot_spec a n Hn) as [(-> & E & _)|(H1 & C & L & _)].
  - rewrite E. lia.
  - destruct C; lia.
Qed.

(** ** Running to completion *)

Lemma sift_down_min_runs r : r < index_limit -> forall fuel a i b,
  0 <= i < index_limit -> (Z.to_nat (r - i) <= fuel)%nat ->
  exists a', sift_down_min_loop fuel a i r b = Some a' /\ length a' = length a.
Proof.
  intros Hr. induction fuel as [|fuel IH]; intros a i b Hi Hf;
    cbn [sift_down_min_loop]; rewrite left_eq by bounds;
    destruct b; cbn [andb]; try (exists a; split; reflexivity);
    destruct (Z.leb_spec (2 * i + 1) r) as [Hc|Hc];
    try (exists a; split; reflexivity).
  - lia.
  - destruct (min_child_or_gchild_spec a i r ltac:(lia) Hr Hc) as (_ & Hm & Hmr & _).
    set (m := snd (min_child_or_gchild a i r)) in *.
    assert (Lm : i < m) by (unfold is_child, is_gchild in Hm; lia).
    destruct (child i m); destruct (rd a m <? rd a i);
      try (rewrite sift_down_min_loop_stop; eexists; split;
           [reflexivity|rewrite ?length_swap; reflexivity]).
    destruct (IH (if rd (swap a m i) (parent m) <? rd (swap a m i) m
                  then swap (swap a m i) m (parent m) else swap a m i) m true)
      as (a' & E & L); try lia.
    exists a'. split; [exact E|]. rewrite L.
    destruct (rd (swap a m i) (parent m) <? rd (swap a m i) m);
      rewrite ?length_swap; reflexivity.
Qed.

Lemma sift_down_runs fuel a i r :
  r < index_limit -> 0 <= i < index_limit -> (Z.to_nat (r - i) <= fuel)%nat ->
  exists a', sift_down fuel a i r = Some a' /\ length a' = length a.
Proof.
  intros Hr Hi Hf. unfold sift_down. destruct (min_level i).
  - apply sift_down_min_runs; auto.
  - rewrite sift_down_max_neg.
    destruct (sift_down_min_runs r Hr fuel (neg a) i true Hi Hf) as (a' & E & L).
    unfold sift_down_min. rewrite E. exists (neg a'). split; [reflexivity|].
    rewrite length_neg, L, length_neg. reflexivity.
Qed.

Lemma bubble_up_min_runs : forall fuel a c b,
  0 <= c < word_modulus -> (Z.to_nat c <= fuel)%nat ->
  exists a', bubble_up_min_loop fuel a c b = Some a' /\ length a' = length a.
Proof.
  induction fuel as [|fuel IH]; intros a c b Hc Hf;
    cbn [bubble_up_min_loop]; unfold has_gparent;
    destruct b; cbn [negb andb]; try (exists a; split; reflexivity);
    destruct (Z.ltb_spec 2 c) as [H2|H2]; try (exists a; split; reflexivity).
  - lia.
  - rewrite gparent_eq by lia.
    set (g := ((c - 1) / 2 - 1) / 2).
    assert (Lg : 0 <= g < c).
    { pose proof (is_child_parent c ltac:(lia)) as Cp.
      pose proof (is_child_parent ((c - 1) / 2) ltac:(destruct Cp; lia)) as Cg.
      fold g in Cg. destruct Cp, Cg; lia. }
    destruct (rd a c <? rd a g).
    + destruct (IH (swap a c g) g false) as (a' & E & L); try lia.
      exists a'. split; [exact E|]. rewrite L. apply length_swap.
    + rewrite bubble_up_min_loop_stop. exists a. split; reflexivity.
Qed.

Lemma bubble_up_runs fuel a c :
  0 <= c < word_modulus -> (Z.to_nat c <= fuel)%nat ->
  exists a', bubble_up fuel a c = Some a' /\ length a' = length a.
Proof.
  intros Hc Hf.
  assert (Hmin : forall x i, 0 <= i <= c ->
            exists a', bubble_up_min fuel x i = Some a' /\ length a' = length x).
  { intros x i Hi. apply bubble_up_min_runs; lia. }
  assert (Hmax : forall x i, 0 <= i <= c ->
            exists a', bubble_up_max fuel x i = Some a' /\ length a' = length x).
  { intros x i Hi. rewrite bubble_up_max_neg.
    destruct (Hmin (neg x) i Hi) as (a' & E & L). rewrite E.
    exists (neg a'). split; [reflexivity|].
    rewrite length_neg, L, length_neg. reflexivity. }
  assert (Hp : 0 < c -> 0 <= parent c <= c).
  { intros H0. rewrite parent_eq by lia.
    pose proof (is_child_parent c H0) as C. destruct C; lia. }
  unfold bubble_up, has_parent.
  destruct (min_level c); destruct (Z.ltb_spec 0 c) as [H0|H0]; cbn [andb];
    try (apply Hmin; lia); try (apply Hmax; lia).
  - destruct (rd a (parent c) <? rd a c); [|apply Hmin; lia].
    destruct (Hmax (swap a c (parent c)) (parent c) (Hp H0)) as (a' & E & L).
    exists a'. split; [exact E|]. rewrite L. apply length_swap.
  - destruct (rd a c <? rd a (parent c)); [|apply Hmax; lia].
    destruct (Hmin (swap a c (parent c)) (parent c) (Hp H0)) as (a' & E & L).
    exists a'. split; [exact E|]. rewrite L. apply length_swap.
Qed.

Lemma make_heap_loop_runs inner n : forall fuel a c,
  1 < n <= index_limit -> 0 <= c < n ->
  (Z.to_nat n <= inner)%nat -> (Z.to_nat c < fuel)%nat ->
  exists a', make_heap_loop fuel inner a c n false = Some a' /\ length a' = length a.
Proof.
  induction fuel as [|fuel IH]; intros a c Hn Hc Hin Hf; [lia|].
  cbn [make_heap_loop negb]. rewrite pred_eq by bounds.
  destruct (sift_down_runs inner a c (n - 1)) as (a1 & E & L); try lia.
  rewrite E. destruct (Z.eqb_spec c 0) as [->|Nc].
  - exists a1. split; [destruct fuel; reflexivity|exact L].
  - rewrite pred_eq by bounds.
    destruct (IH a1 (c - 1)) as (a' & E' & L'); try lia.
    exists a'. split; [exact E'|congruence].
Qed.

Lemma make_heap_runs fuel a n :
  0 <= n <= index_limit -> (Z.to_nat n <= fuel)%nat ->
  exists a', make_heap fuel a n = Some a' /\ length a' = length a.
Proof.
  intros Hn Hf. unfold make_heap. destruct (Z.ltb_spec 1 n) as [H1|H1].
  - rewrite pred_eq by bounds. rewrite parent_eq by bounds.
    assert (Hp : 0 <= (n - 1 - 1) / 2 < n - 1).
    { split; [apply Z.div_pos; lia|]. apply Z.div_lt_upper_bound; lia. }
    apply make_heap_loop_runs; lia.
  - exists a. split; reflexivity.
Qed.

Lemma is_heap_runs fuel a n :
  0 <= n <= index_limit -> (Z.to_nat n <= fuel)%nat ->
  exists b, is_heap fuel a n = Some b.
Proof.
  intros Hn Hf. destruct (is_heap_spec fuel a n Hn Hf) as (b & E & _).
  exists b. exact E.
Qed.

(** ** What sifting down leaves in place *)

Lemma sift_down_min_keeps r : r < index_limit -> forall fuel a i a' j,
  0 <= i <= r -> Z.of_nat (length a) > r -> 0 <= j -> j <> i ->
  rd a i <= rd a j ->
  sift_down_min_loop fuel a i r true = Some a' -> rd a' j = rd a j.
Proof.
  intros Hr. induction fuel as [|fuel IH]; intros a i a' j Hi Hlen Hj Nj Hle;
    cbn [sift_down_min_loop andb]; rewrite left_eq by bounds;
    destruct (Z.leb_spec (2 * i + 1) r) as [Hc|Hc];
    try discriminate; try (intros [= <-]; reflexivity).
  destruct (min_child_or_gchild_spec a i r ltac:(lia) Hr Hc) as (_ & Hm & Hmr & _).
  set (m := snd (min_child_or_gchild a i r)) in *.
  destruct (child i m) eqn:Ec.
  - apply child_spec in Ec; [|lia].
    assert (Lm : i < m) by (destruct Ec; lia).
    destruct (Z.ltb_spec (rd a m) (rd a i)) as [Hlt|Hge];
      rewrite sift_down_min_loop_stop; intros [= <-]; [|reflexivity].
    rewrite rd_swap by lia.
    destruct (Z.eqb_spec j i); [lia|].
    destruct (Z.eqb_spec j m) as [->|]; [lia|reflexivity].
  - assert (Hg : is_gchild i m).
    { destruct Hm as [C|G]; auto. apply child_spec in C; [congruence|lia]. }
    destruct (Z.ltb_spec (rd a m) (rd a i)) as [Hlt|Hge];
      [|rewrite sift_down_min_loop_stop; intros [= <-]; reflexivity].
    destruct (gchild_swap_shape r Hr a i m ltac:(lia) Hlen Hg Hmr) as (H2 & L2 & _).
    cbv zeta in H2, L2. unfold after_gchild_swap in H2.
    set (a2 := if rd (swap a m i) (parent m) <? rd (swap a m i) m
               then swap (swap a m i) m (parent m) else swap a m i) in *.
    destruct (gchild_parent_eq i m ltac:(lia) Hg) as (Hp & Hpm).
    set (p := (m - 1) / 2) in *.
    assert (Hb : i < p < m) by (destruct Hp, Hpm; lia).
    assert (Njm : j <> m) by (intros ->; lia).
    assert (E2 : rd a2 j = rd a j).
    { rewrite H2 by lia. destruct (Z.eqb_spec j i); [lia|].
      destruct (Z.eqb_spec j p) as [->|]; [lia|].
      destruct (Z.eqb_spec j m); [lia|reflexivity]. }
    intros E. rewrite <- E2. apply (IH a2 m a' j); auto; try lia.
    rewrite E2, H2 by lia.
    destruct (Z.eqb_spec m i); [lia|]. destruct (Z.eqb_spec m p); [lia|].
    rewrite Z.eqb_refl. lia.
Qed.

(** ** [heap_insert] *)

Lemma heap_ok_shrink pol a n m : m <= n -> heap_ok pol a n -> heap_ok pol a m.
Proof. intros Hm H k j Hk D N L. apply H; auto. lia. Qed.

Lemma heap_insert_ok fuel v a count max_size :
  0 <= count < max_size -> max_size <= index_limit ->
  max_size <= Z.of_nat (length a) ->
  min_max_heap a count -> (Z.to_nat count < fuel)%nat ->
  exists a', heap_insert fuel v a count max_size = Return (a', count + 1) /\
             min_max_heap a' (count + 1) /\ length a' = length a /\
             Permutation (occupied a' (count + 1)) (v :: occupied a count) /\
             forall j, count < j -> rd a' j = rd a j.
Proof.
  intros Hc Hm Hlen H Hf. unfold heap_insert.
  destruct (Z.ltb_spec count max_size) as [_|]; [|lia].
  rewrite (wrap_small (count + 1)) by bounds.
  rewrite pred_eq by bounds. replace (count + 1 - 1) with count by lia.
  destruct (bubble_up_leaf fuel (wr a count v) (count + 1) count)
    as (a' & E & H' & F); try lia.
  - rewrite length_wr. lia.
  - intros k j Hk D N L. destruct (Z.eq_dec j count) as [->|Nj]; [left; auto|].
    right. pose proof (desc_le k j Hk D).
    apply (ord_ext true a); try (apply rd_wr_other; lia).
    apply H; auto. lia.
  - rewrite E. cbn [lift]. exists a'. split; [reflexivity|].
    split; [exact H'|].
    assert (F' : frame (fun j => count + 1 <= j) (wr a count v) a').
    { eapply frame_weaken; [|exact F]. intros j Hj D.
      apply (desc_le j count) in D; lia. }
    split; [|split].
    + destruct F as (L & _). rewrite L. apply length_wr.
    + etransitivity; [apply frame_occupied; [lia|exact F']|].
      rewrite occupied_wr_last by lia.
      symmetry. apply Permutation_cons_append.
    + intros j Hj. destruct F' as (_ & _ & K). rewrite K by lia.
      apply rd_wr_other; lia.
Qed.

(** ** [heap_remove_min] *)

Lemma heap_remove_min_ok fuel a count :
  1 <= count <= index_limit -> count <= Z.of_nat (length a) ->
  min_max_heap a count -> (Z.to_nat count <= fuel)%nat ->
  exists a', heap_remove_min fuel a count = Return (rd a 0, a', count - 1) /\
             min_max_heap a' (count - 1) /\ length a' = length a /\
             Permutation (rd a 0 :: occupied a' (count - 1)) (occupied a count).
Proof.
  intros Hc Hlen H Hf. unfold heap_remove_min.
  destruct (Z.eqb_spec count 0); [lia|].
  rewrite pred_eq by bounds.
  set (a1 := swap a 0 (count - 1)).
  assert (Hrd : forall x, 0 <= x ->
            rd a1 x = if x =? count - 1 then rd a 0
                      else if x =? 0 then rd a (count - 1) else rd a x).
  { intros x Hx. apply rd_swap; lia. }
  assert (L1 : length a1 = length a) by apply length_swap.
  assert (P1 : Permutation (rd a 0 :: occupied a1 (count - 1)) (occupied a count)).
  { transitivity (occupied a1 count).
    - rewrite (occupied_split_last a1 count) by lia.
      rewrite Hrd, Z.eqb_refl by lia. apply Permutation_cons_append.
    - apply frame_occupied; [lia|]. split; [|split]; auto.
      + apply swap_perm; lia.
      + intros j Hj Hcj. rewrite Hrd by lia.
        destruct (Z.eqb_spec j (count - 1)); [lia|].
        destruct (Z.eqb_spec j 0); [lia|reflexivity]. }
  destruct (Z.ltb_spec 0 (count - 1)) as [H1|H1].
  - rewrite pred_eq by bounds.
    destruct (sift_down_repairs fuel a1 (count - 1) 0) as (a' & E & H' & F);
      try lia.
    + intros k j Hk D N L. destruct (Z.eq_dec k 0) as [->|Nk]; [left; auto|].
      right. pose proof (desc_lt k j Hk D ltac:(lia)).
      apply (ord_ext true a).
      * rewrite Hrd by lia. destruct (Z.eqb_spec k (count - 1)); [lia|].
        destruct (Z.eqb_spec k 0); [lia|reflexivity].
      * rewrite Hrd by lia. destruct (Z.eqb_spec j (count - 1)); [lia|].
        destruct (Z.eqb_spec j 0); [lia|reflexivity].
      * apply H; auto. lia.
    + rewrite E. cbn [lift]. exists a'. split; [reflexivity|].
      split; [exact H'|]. split.
      * destruct F as (L & _). congruence.
      * etransitivity; [|exact P1]. apply perm_skip.
        apply frame_occupied; [lia|].
        eapply frame_weaken; [|exact F]. intros j Hj. right. exact Hj.
  - exists a1. split; [reflexivity|]. split; [|split]; auto.
    intros k j Hk D N L. pose proof (desc_lt k j Hk D ltac:(lia)). lia.
Qed.

(** ** [heap_replace_at_index] *)

Lemma replace_dispatch fuel new_value index a count :
  count <> 0 -> index <= count ->
  heap_replace_at_index fuel new_value index a count =
  let old := rd a index in
  let a1 := wr a index (deref a new_value) in
  let v := deref a1 new_value in
  lift (if min_level index
        then replace_from_min fuel a1 v old index (wrap (count - 1))
        else oneg (replace_from_min fuel (neg a1) (- v) (- old) index (wrap (count - 1))))
       (fun a3 => Return (old, a3)).
Proof.
  intros Hc Hi. unfold heap_replace_at_index.
  destruct (Z.eqb_spec count 0); [contradiction|].
  destruct (Z.ltb_spec count index); [lia|].
  cbv zeta. f_equal. unfold replace_from_min.
  set (a1 := wr a index (deref a new_value)).
  set (v := deref a1 new_value). set (old := rd a index).
  rewrite (bubble_up_dispatch fuel a1 index). unfold sift_down.
  destruct (min_level index); [reflexivity|].
  rewrite !rd_neg, !ltb_neg.
  destruct (old <? v); [apply bubble_up_max_neg|].
  destruct (has_parent index && (v <? rd a1 (parent index))).
  - destruct (bubble_up_from_min fuel (neg a1) index) as [a2|]; [|reflexivity].
    cbn [oneg option_map]. rewrite sift_down_max_neg, neg_neg. reflexivity.
  - rewrite sift_down_max_neg. reflexivity.
Qed.

Section ReplaceFromMin.
Variable pol : bool.
Variable n : Z.
Hypothesis Hn : n <= index_limit.

Lemma replace_from_min_ok fuel a v index :
  0 <= index < n -> n <= Z.of_nat (length a) -> lvl index = pol ->
  heap_ok pol a n -> (Z.to_nat n <= fuel)%nat ->
  exists a3,
    replace_from_min fuel (wr a index v) v (rd a index) index (n - 1) = Some a3 /\
    heap_ok pol a3 n /\ frame (fun j => n <= j) (wr a index v) a3 /\
    forall j, 0 <= j -> j <> index -> ~ desc j index -> v <= rd a j ->
              rd a3 j = rd a j.
Proof.
  intros Hi Hlen Hl H Hf. unfold replace_from_min.
  set (a1 := wr a index v). set (old := rd a index).
  assert (L1 : length a1 = length a) by apply length_wr.
  assert (Hrd : forall x, 0 <= x -> rd a1 x = if x =? index then v else rd a x).
  { intros x Hx. apply rd_wr; lia. }
  assert (Hun : forall k j, 0 <= k -> desc k j -> k <> j -> j < n ->
                k <> index -> j <> index -> ord pol a1 k j).
  { intros k j Hk D N L Nk Nj. pose proof (desc_le k j Hk D).
    apply (ord_ext pol a); [| |apply H; auto].
    - rewrite Hrd by lia. destruct (Z.eqb_spec k index); [lia|reflexivity].
    - rewrite Hrd by lia. destruct (Z.eqb_spec j index); [lia|reflexivity]. }
  assert (Hdown : forall j, desc index j -> index <> j -> j < n ->
                  old <= rd a1 j).
  { intros j D N L. specialize (H index j ltac:(lia) D N L).
    unfold ord in H. rewrite Hl, eqb_reflx in H.
    pose proof (desc_le index j ltac:(lia) D).
    rewrite Hrd by lia. destruct (Z.eqb_spec j index); [lia|exact H]. }
  assert (Hup : forall k, 0 <= k -> desc k index -> k <> index ->
                if Bool.eqb (lvl k) pol then rd a1 k <= old else old <= rd a1 k).
  { intros k Hk D N. specialize (H k index Hk D N ltac:(lia)).
    unfold ord in H. pose proof (desc_le k index Hk D).
    rewrite Hrd by lia. destruct (Z.eqb_spec k index); [lia|exact H]. }
  assert (Hv : rd a1 index = v) by (rewrite Hrd, Z.eqb_refl by lia; reflexivity).
  assert (Hfr : forall (X : Z -> Prop) a3, frame X a1 a3 ->
            (forall j, n <= j -> X j) -> frame (fun j => n <= j) a1 a3).
  { intros X a3 F HX. eapply frame_weaken; [|exact F]. exact HX. }
  assert (Hkeep1 : forall j, 0 <= j -> j <> index -> rd a1 j = rd a j).
  { intros j Hj Nj. rewrite Hrd by lia.
    destruct (Z.eqb_spec j index); [lia|reflexivity]. }
  (* the order above [index] for the values of its parent's kind *)
  assert (Hparent : 0 < index -> v <= rd a1 ((index - 1) / 2) ->
            forall k, 0 <= k -> desc k index -> k <> index ->
                      Bool.eqb (lvl k) pol = false -> v <= rd a1 k).
  { intros H0 Hle k Hk D N Ek.
    pose proof (is_child_parent index H0) as Cp.
    destruct (ancestor_cases k index Hk D N) as [->|(Dp & Np)]; [exact Hle|].
    set (p := (index - 1) / 2) in *.
    assert (O : ord pol a1 k p).
    { apply Hun; auto; destruct Cp; lia. }
    unfold ord in O. rewrite Ek in O. lia. }
  destruct (Z.ltb_spec v old) as [Hlt|Hge].
  - (* the new value is smaller: only the levels of its kind above *)
    destruct (bubble_up_min_fixes pol n Hn fuel a1 index)
      as (a3 & E & H3 & F); auto; try lia.
    + intros k j Hk D N L.
      destruct (Z.eq_dec j index) as [->|Nj]; [left; reflexivity|right].
      destruct (Z.eq_dec k index) as [->|Nk]; [|apply Hun; auto].
      unfold ord. rewrite Hl, eqb_reflx, Hv.
      specialize (Hdown j D N L). lia.
    + intros H0. rewrite Hv.
      pose proof (is_child_parent index H0) as Cp.
      specialize (Hup ((index - 1) / 2) ltac:(destruct Cp; lia)
                      (desc_child _ _ Cp) ltac:(destruct Cp; lia)).
      rewrite (lvl_child ((index - 1) / 2) index) in Hl by (auto; destruct Cp; lia).
      rewrite <- Hl in Hup.
      destruct (lvl ((index - 1) / 2)); simpl in Hup; lia.
    + exists a3. split; [exact E|]. split; [exact H3|]. split.
      * apply (Hfr _ a3 F). intros j Hj D. apply (desc_le j index) in D; lia.
      * intros j Hj Nj Dj _. destruct F as (_ & _ & K).
        rewrite K by auto. apply Hkeep1; auto.
  - unfold has_parent. destruct (Z.ltb_spec 0 index) as [H0|H0]; cbn [andb].
    + rewrite parent_eq by bounds.
      pose proof (is_child_parent index H0) as Cp.
      set (p := (index - 1) / 2) in *.
      assert (Lp : 0 <= p < index) by (destruct Cp; lia).
      destruct (Z.ltb_spec (rd a1 p) v) as [Hpv|Hpv].
      * (* larger than the parent: exchange, bubble up, then sift down *)
        unfold bubble_up_from_min, has_parent.
        destruct (Z.ltb_spec 0 index); [|lia]. cbn [andb].
        rewrite parent_eq by bounds. fold p. rewrite Hv.
        destruct (Z.ltb_spec (rd a1 p) v); [|lia].
        destruct (bubble_up_swap_fixes pol n Hn fuel a1 index)
          as (a2 & E2 & Hok2 & F2 & V2); auto; try lia.
        { intros k j Hk D N L.
          destruct (Z.eq_dec j index) as [->|Nj]; [left; left; reflexivity|].
          destruct (Z.eq_dec k index) as [->|Nk]; [left; right; reflexivity|].
          right. apply Hun; auto. }
        { fold p. lia. }
        fold p in E2, V2. rewrite E2.
        destruct (sift_down_min_repairs pol n Hn fuel a2 index)
          as (a3 & E3 & H3 & F3); auto; try lia.
        { destruct F2 as (L2 & _). lia. }
        exists a3. split; [exact E3|]. split; [exact H3|]. split.
        -- eapply frame_trans; [| |exact F2|exact F3].
           ++ intros j Hj D. apply (desc_le j index) in D; lia.
           ++ intros j Hj. right. exact Hj.
        -- intros j Hj Nj Dj Hvj.
           destruct F2 as (L2 & _ & K2).
           assert (E : rd a2 j = rd a j).
           { rewrite K2 by auto. apply Hkeep1; auto. }
           rewrite <- E.
           apply (sift_down_min_keeps (n - 1) ltac:(lia) fuel a2 index a3 j);
             auto; lia.
      * destruct (sift_down_min_repairs pol n Hn fuel a1 index)
          as (a3 & E3 & H3 & F3); auto; try lia.
        { intros k j Hk D N L.
          destruct (Z.eq_dec k index) as [->|Nk]; [left; reflexivity|right].
          destruct (Z.eq_dec j index) as [->|Nj]; [|apply Hun; auto].
          unfold ord. rewrite Hv.
          specialize (Hup k Hk D N).
          destruct (Bool.eqb (lvl k) pol) eqn:Ek; [lia|].
          apply Hparent; auto. }
        exists a3. split; [exact E3|]. split; [exact H3|]. split.
        -- eapply frame_weaken; [|exact F3]. intros j Hj. right. exact Hj.
        -- intros j Hj Nj Dj Hvj. rewrite <- (Hkeep1 j) by auto.
           apply (sift_down_min_keeps (n - 1) ltac:(lia) fuel a1 index a3 j);
             auto; try lia.
           rewrite Hv, Hkeep1 by auto. exact Hvj.
    + assert (index = 0) as E0 by lia.
      destruct (sift_down_min_repairs pol n Hn fuel a1 index)
        as (a3 & E3 & H3 & F3); auto; try lia.
      { intros k j Hk D N L.
        destruct (Z.eq_dec k index) as [->|Nk]; [left; reflexivity|right].
        apply Hun; auto. pose proof (desc_lt k j Hk D ltac:(lia)). lia. }
      exists a3. split; [exact E3|]. split; [exact H3|]. split.
      -- eapply frame_weaken; [|exact F3]. intros j Hj. right. exact Hj.
      -- intros j Hj Nj Dj Hvj. rewrite <- (Hkeep1 j) by auto.
         apply (sift_down_min_keeps (n - 1) ltac:(lia) fuel a1 index a3 j);
           auto; try lia.
         rewrite Hv, Hkeep1 by auto. exact Hvj.
Qed.

(** Writing back the value of a slot without children changes nothing. *)
Lemma replace_from_min_leaf_same fuel a index :
  0 <= index < n -> n <= 2 * index + 1 -> lvl index = pol -> heap_ok pol a n ->
  replace_from_min fuel a (rd a index) (rd a index) index (n - 1) = Some a.
Proof.
  intros Hi Hleaf Hl H. unfold replace_from_min.
  rewrite Z.ltb_irrefl. unfold has_parent.
  assert (Hs : sift_down_min fuel a index (n - 1) = Some a).
  { unfold sift_down_min. destruct fuel; cbn [sift_down_min_loop andb];
      rewrite left_eq by bounds;
      (destruct (Z.leb_spec (2 * index + 1) (n - 1)); [lia|reflexivity]). }
  destruct (Z.ltb_spec 0 index) as [H0|H0]; cbn [andb]; [|exact Hs].
  rewrite parent_eq by bounds.
  pose proof (is_child_parent index H0) as Cp.
  set (p := (index - 1) / 2) in *.
  assert (Lp : 0 <= p < index) by (destruct Cp; lia).
  specialize (H p index ltac:(lia) (desc_child _ _ Cp) ltac:(lia) ltac:(lia)).
  unfold ord in H. rewrite (lvl_child p index) in Hl by (auto; lia).
  rewrite <- Hl in H.
  replace (Bool.eqb (lvl p) (negb (lvl p))) with false in H
    by (destruct (lvl p); reflexivity).
  destruct (Z.ltb_spec (rd a p) (rd a index)); [lia|exact Hs].
Qed.
End ReplaceFromMin.

Lemma upd_firstn l k n v :
  (n < k)%nat -> firstn k (upd l n v) = upd (firstn k l) n v.
Proof.
  revert k n. induction l as [|h t IH]; intros [|k] [|n] H; simpl; auto; try lia.
  f_equal. apply IH. lia.
Qed.

Lemma occupied_wr a n i v :
  0 <= i < n -> occupied (wr a i v) n = wr (occupied a n) i v.
Proof. intros H. unfold occupied, wr. apply upd_firstn. lia. Qed.

Lemma occupied_wr_perm a n i v :
  0 <= i < n -> n <= Z.of_nat (length a) ->
  Permutation (rd a i :: occupied (wr a i v) n) (v :: occupied a n).
Proof.
  intros Hi Hn. rewrite occupied_wr by lia.
  rewrite <- (rd_occupied a n i) by lia.
  unfold rd, wr. apply upd_perm_cons. rewrite occupied_length; lia.
Qed.

Lemma heap_replace_at_index_ok fuel new_value v index a n :
  n <= index_limit -> 0 <= index < n -> n <= Z.of_nat (length a) ->
  min_max_heap a n -> reads a new_value v -> (Z.to_nat n <= fuel)%nat ->
  exists a3,
    heap_replace_at_index fuel new_value index a n = Return (rd a index, a3) /\
    min_max_heap a3 n /\ frame (fun j => n <= j) (wr a index v) a3 /\
    (forall j, 0 <= j -> j <> index -> ~ desc j index -> rd a j = v -> rd a3 j = v) /\
    (n <= 2 * index + 1 -> rd a index = v -> a3 = a).
Proof.
  intros Hn Hi Hlen H (Hv & He) Hf.
  rewrite replace_dispatch by lia. cbv zeta. rewrite Hv.
  assert (Hv1 : deref (wr a index v) new_value = v).
  { destruct new_value as [x|e]; [exact Hv|]. cbn [deref] in *.
    rewrite rd_wr by lia. destruct (e =? index); auto. }
  rewrite Hv1. rewrite pred_eq by bounds.
  rewrite min_level_lvl by bounds. destruct (lvl index) eqn:Hl.
  - destruct (replace_from_min_ok true n Hn fuel a v index)
      as (a3 & E & H3 & F & K); auto.
    rewrite E. cbn [lift]. exists a3. split; [reflexivity|].
    split; [exact H3|]. split; [exact F|]. split.
    + intros j Hj Nj Dj Ej. rewrite K; auto. lia.
    + intros Hleaf Eold. rewrite <- Eold in E. rewrite wr_same_value in E.
      rewrite (replace_from_min_leaf_same true n Hn) in E; auto. congruence.
  - rewrite <- wr_neg, <- rd_neg.
    destruct (replace_from_min_ok false n Hn fuel (neg a) (- v) index)
      as (a3 & E & H3 & F & K); auto.
    { rewrite length_neg. exact Hlen. }
    { apply heap_ok_neg. exact H. }
    rewrite E. cbn [oneg option_map lift]. exists (neg a3).
    split; [reflexivity|]. split; [apply heap_ok_neg; exact H3|]. split.
    + apply frame_neg. rewrite <- wr_neg. exact F.
    + split.
      * intros j Hj Nj Dj Ej. rewrite rd_neg, K, rd_neg; auto; try lia.
        rewrite rd_neg. lia.
      * intros Hleaf Eold.
        assert (E' : - v = rd (neg a) index) by (rewrite rd_neg; lia).
        rewrite E' in E. rewrite wr_same_value in E.
        rewrite (replace_from_min_leaf_same false n Hn) in E; auto.
        -- injection E as <-. apply neg_neg.
        -- apply heap_ok_neg. exact H.
Qed.

(** ** [heap_remove_at_index] and [heap_remove_max] *)

Lemma heap_remove_at_index_ok fuel index a n :
  n <= index_limit -> 0 <= index < n -> n <= Z.of_nat (length a) ->
  min_max_heap a n -> (Z.to_nat n <= fuel)%nat ->
  exists a3,
    heap_remove_at_index fuel index a n = Return (rd a index, a3, n - 1) /\
    min_max_heap a3 (n - 1) /\ length a3 = length a /\
    Permutation (rd a index :: occupied a3 (n - 1)) (occupied a n).
Proof.
  intros Hn Hi Hlen H Hf. unfold heap_remove_at_index.
  destruct (Z.eqb_spec n 0); [lia|]. destruct (Z.ltb_spec n index); [lia|].
  rewrite pred_eq by bounds.
  destruct (heap_replace_at_index_ok fuel (Elem (n - 1)) (rd a (n - 1)) index a n)
    as (a3 & E & H3 & F & K & S); auto.
  { split; [reflexivity|lia]. }
  rewrite E. cbn [bind fst snd]. exists a3. split; [reflexivity|].
  split; [apply heap_ok_shrink with n; [lia|exact H3]|].
  assert (L3 : length a3 = length a).
  { destruct F as (L & _). rewrite L. apply length_wr. }
  split; [exact L3|].
  destruct (Z.eq_dec index (n - 1)) as [->|Ni].
  - rewrite (S ltac:(lia) eq_refl).
    rewrite (occupied_split_last a n) by lia. apply Permutation_cons_append.
  - assert (Elast : rd a3 (n - 1) = rd a (n - 1)).
    { apply K; auto; try lia. intros D. apply (desc_le (n - 1) index) in D; lia. }
    apply (Permutation_cons_inv (a := rd a (n - 1))).
    etransitivity; [apply perm_swap|].
    etransitivity; [|apply (occupied_wr_perm a n index); lia].
    apply perm_skip.
    etransitivity; [|apply frame_occupied; [lia|exact F]].
    rewrite (occupied_split_last a3 n) by lia. rewrite Elast.
    apply Permutation_cons_append.
Qed.

Lemma heap_remove_max_ok fuel a n :
  1 <= n <= index_limit -> n <= Z.of_nat (length a) ->
  min_max_heap a n -> (Z.to_nat n <= fuel)%nat ->
  exists a3,
    heap_remove_max fuel a n = Return (rd a (max_slot a n), a3, n - 1) /\
    min_max_heap a3 (n - 1) /\ length a3 = length a /\
    Permutation (rd a (max_slot a n) :: occupied a3 (n - 1)) (occupied a n).
Proof.
  intros Hn Hlen H Hf. unfold heap_remove_max.
  destruct (Z.eqb_spec n 0); [lia|].
  pose proof (max_slot_range a n Hn) as Hm.
  fold (max_slot a n).
  destruct (heap_remove_at_index_ok fuel (max_slot a n) a n)
    as (a3 & E & R); auto; try lia.
  rewrite E. cbn [bind fst snd]. exists a3. split; [|exact R].
  unfold max_slot. destruct (fst (max_child a 0 (wrap (n - 1)))); reflexivity.
Qed.

(** ** [heap_insert_circular] on a full heap *)

Lemma circular_slot a n :
  1 <= n <= index_limit ->
  (if 1 <? n then snd (max_child a 0 (wrap (n - 1))) else 0) = max_slot a n.
Proof.
  intros Hn.
  destruct (max_slot_spec a n Hn) as [(-> & E & _)|(H1 & _ & _ & _ & E & _)].
  - rewrite E. reflexivity.
  - destruct (Z.ltb_spec 1 n); [exact E|lia].
Qed.

Lemma heap_insert_circular_reject fuel v a n :
  1 <= n <= index_limit -> rd a (max_slot a n) <= v ->
  heap_insert_circular fuel v a n n = Return ((true, v), a, n).
Proof.
  intros Hn Hv. unfold heap_insert_circular. rewrite Z.eqb_refl. cbn [negb].
  rewrite circular_slot by lia.
  destruct (Z.ltb_spec v (rd a (max_slot a n))); [lia|reflexivity].
Qed.

Lemma heap_insert_circular_evict fuel v a n :
  1 <= n <= index_limit -> n <= Z.of_nat (length a) ->
  min_max_heap a n -> v < rd a (max_slot a n) -> (Z.to_nat n <= fuel)%nat ->
  exists a3,
    heap_insert_circular fuel v a n n =
      Return ((true, rd a (max_slot a n)), a3, n) /\
    min_max_heap a3 n /\ length a3 = length a /\
    Permutation (rd a (max_slot a n) :: occupied a3 n) (v :: occupied a n).
Proof.
  intros Hn Hlen H Hv Hf. unfold heap_insert_circular.
  rewrite Z.eqb_refl. cbn [negb]. rewrite circular_slot by lia.
  pose proof (max_slot_range a n Hn) as Hm.
  set (m := max_slot a n) in *.
  destruct (Z.ltb_spec v (rd a m)); [|lia].
  set (a1 := wr a m v).
  assert (Hrd1 : forall x, 0 <= x -> rd a1 x = if x =? m then v else rd a x).
  { intros x Hx. apply rd_wr; lia. }
  assert (L1 : length a1 = length a) by apply length_wr.
  assert (P1 : Permutation (rd a m :: occupied a1 n) (v :: occupied a n)).
  { apply occupied_wr_perm; lia. }
  destruct (Z.ltb_spec 1 n) as [H1|H1].
  - destruct (max_slot_spec a n Hn) as [(E & _)|(_ & C & _ & _ & _ & M)]; [lia|].
    fold m in C, M.
    assert (Lm : 1 <= m <= 2) by (destruct C; lia).
    set (a2 := if v <? rd a1 0 then swap a1 0 m else a1).
    assert (Hrd2 : forall x, 0 <= x ->
              rd a2 x = if x =? 0 then Z.min v (rd a 0)
                        else if x =? m then Z.max v (rd a 0) else rd a x).
    { intros x Hx. subst a2. rewrite (Hrd1 0) by lia.
      destruct (Z.eqb_spec 0 m); [lia|].
      destruct (Z.ltb_spec v (rd a 0)).
      - rewrite rd_swap by lia. rewrite (Hrd1 0), (Hrd1 m), (Hrd1 x) by lia.
        rewrite Z.eqb_refl. destruct (Z.eqb_spec 0 m); [lia|].
        destruct (Z.eqb_spec x m); destruct (Z.eqb_spec x 0); try subst x; lia.
      - rewrite Hrd1 by lia.
        destruct (Z.eqb_spec x m); destruct (Z.eqb_spec x 0); try subst x; lia. }
    assert (F2 : frame (fun j => n <= j) a1 a2).
    { subst a2. destruct (v <? rd a1 0).
      - split; [apply length_swap|]. split; [apply swap_perm; lia|].
        intros j Hj Lj. rewrite rd_swap by lia.
        destruct (Z.eqb_spec j m); [lia|]. destruct (Z.eqb_spec j 0); [lia|auto].
      - split; [|split]; auto. }
    rewrite pred_eq by bounds.
    destruct (sift_down_repairs fuel a2 n m) as (a3 & E3 & H3 & F3); auto; try lia.
    { destruct F2 as (L2 & _). lia. }
    { intros k j Hk D N L.
      destruct (Z.eq_dec k m) as [->|Nk]; [left; reflexivity|right].
      pose proof (desc_lt k j Hk D ltac:(lia)) as Lkj.
      unfold ord. rewrite !Hrd2 by lia.
      destruct (Z.eqb_spec j 0); [lia|].
      destruct (Z.eqb_spec k m); [lia|].
      destruct (Z.eqb_spec k 0) as [->|Nk0].
      - rewrite lvl_root. cbn [Bool.eqb].
        pose proof (heap_root_least a n j H ltac:(lia)).
        destruct (Z.eqb_spec j m); lia.
      - destruct (Z.eqb_spec j m) as [->|Nj]; [lia|].
        apply H; auto. }
    rewrite E3. cbn [lift]. exists a3. split; [reflexivity|].
    split; [exact H3|]. split.
    + destruct F3 as (L3 & _). destruct F2 as (L2 & _). congruence.
    + etransitivity; [|exact P1]. apply perm_skip.
      etransitivity; apply frame_occupied; try lia; [|exact F2].
      eapply frame_weaken; [|exact F3]. intros j Hj. right. exact Hj.
  - exists a1. split; [reflexivity|]. split; [|split]; auto.
    intros k j Hk D N L. pose proof (desc_lt k j Hk D ltac:(lia)). lia.
Qed.

(** ** The validator decides the heap order *)

Lemma is_heap_true_iff fuel a n :
  0 <= n <= index_limit -> (Z.to_nat n <= fuel)%nat ->
  (is_heap fuel a n = Some true <-> min_max_heap a n).
Proof.
  intros Hn Hf. destruct (is_heap_spec fuel a n Hn Hf) as (b & E & Hb).
  rewrite E. split.
  - intros [= ->]. apply Hb. reflexivity.
  - intros H. apply Hb in H. rewrite H. reflexivity.
Qed.

(** ** [make_heap] as a sequence of sifts *)

Lemma sift_next_none fuel size cs : fold_left (sift_next fuel size) cs None = None.
Proof. induction cs; simpl; auto. Qed.

Lemma countdown_S k : countdown (S k) = Z.of_nat (S k) :: countdown k.
Proof. reflexivity. Qed.

Lemma make_heap_loop_done fuel inner a c n :
  make_heap_loop fuel inner a c n true = Some a.
Proof. destruct fuel; reflexivity. Qed.

Lemma make_heap_loop_step fuel inner a c n :
  make_heap_loop (S fuel) inner a c n false =
  match sift_down inner a c (wrap (n - 1)) with
  | None => None
  | Some a1 => make_heap_loop fuel inner a1 (wrap (c - 1)) n (c =? 0)
  end.
Proof. reflexivity. Qed.

Lemma make_heap_loop_unroll inner n : forall fuel a (k : nat),
  1 <= n < word_modulus -> Z.of_nat k < word_modulus -> (k < fuel)%nat ->
  make_heap_loop fuel inner a (Z.of_nat k) n false =
  fold_left (sift_next inner n) (countdown k) (Some a).
Proof.
  induction fuel as [|fuel IH]; intros a k Hn Hk Hf; [lia|].
  rewrite make_heap_loop_step. rewrite pred_eq by lia.
  destruct k as [|k].
  - change (countdown 0) with [Z.of_nat 0]. unfold fold_left, sift_next.
    destruct (sift_down inner a (Z.of_nat 0) (n - 1)); [|reflexivity].
    change (Z.of_nat 0 =? 0) with true. apply make_heap_loop_done.
  - rewrite countdown_S. unfold fold_left at 1. fold (fold_left (sift_next inner n)).
    unfold sift_next at 2.
    destruct (sift_down inner a (Z.of_nat (S k)) (n - 1)) as [a1|];
      [|symmetry; apply sift_next_none].
    destruct (Z.eqb_spec (Z.of_nat (S k)) 0); [lia|].
    rewrite pred_eq by lia.
    replace (Z.of_nat (S k) - 1) with (Z.of_nat k) by lia.
    apply IH; lia.
Qed.

(** C6: on every array and every size that fits it, [make_heap] returns
    an array that [is_heap] accepts; it leaves the array as it is for
    a size of at most 1, and otherwise sifts down each index from
    [parent(size - 1)] down to [0] in that order; the elements are
    permuted among the first [size] slots. *)
Theorem make_heap_is_heap fuel a size :
  0 <= size <= index_limit -> size <= Z.of_nat (length a) ->
  (Z.to_nat size <= fuel)%nat ->
  exists a',
    make_heap fuel a size = Some a' /\
    is_heap fuel a' size = Some true /\
    Permutation (occupied a' size) (occupied a size) /\
    (size <= 1 -> a' = a) /\
    (1 < size ->
     sift_all fuel size (countdown (Z.to_nat (parent (size - 1)))) a = Some a').
Proof.
  intros Hn Hlen Hf.
  destruct (make_heap_ok fuel a size Hn Hlen Hf) as (a' & E & H & F).
  exists a'. split; [exact E|]. split; [apply is_heap_true_iff; auto|].
  split; [apply frame_occupied; [lia|exact F]|]. split.
  - intros H1. unfold make_heap in E.
    destruct (Z.ltb_spec 1 size); [lia|]. congruence.
  - intros H1. unfold make_heap in E.
    destruct (Z.ltb_spec 1 size); [|lia].
    rewrite pred_eq in E by bounds. rewrite <- E. unfold sift_all. symmetry.
    assert (Hp : 0 <= parent (size - 1) < size - 1).
    { rewrite parent_eq by bounds.
      split; [apply Z.div_pos; lia|apply Z.div_lt_upper_bound; lia]. }
    rewrite <- (Z2Nat.id (parent (size - 1))) at 1 by lia.
    apply make_heap_loop_unroll; try lia; bounds.
Qed.

Lemma make_heap_is_heap_witness :
  exists a',
    make_heap 7 [5; 1; 9; 3; 7; 2; 8] 7 = Some a' /\
    is_heap 7 a' 7 = Some true /\
    Permutation (occupied a' 7) (occupied [5; 1; 9; 3; 7; 2; 8] 7) /\
    (7 <= 1 -> a' = [5; 1; 9; 3; 7; 2; 8]) /\
    (1 < 7 ->
     sift_all 7 7 (countdown (Z.to_nat (parent (7 - 1)))) [5; 1; 9; 3; 7; 2; 8]
     = Some a').
Proof.
  apply (make_heap_is_heap 7 [5; 1; 9; 3; 7; 2; 8] 7).
  - rewrite index_limit_val. lia.
  - simpl. lia.
  - simpl. lia.
Defined.

(** ** Reference scans *)

Lemma fold_min_spec l : forall x,
  (fold_left Z.min l x = x \/ In (fold_left Z.min l x) l) /\
  fold_left Z.min l x <= x /\
  forall y, In y l -> fold_left Z.min l x <= y.
Proof.
  induction l as [|h t IH]; intros x; simpl.
  - split; [auto|]. split; [lia|]. intros y [].
  - destruct (IH (Z.min x h)) as (I1 & I2 & I3). split; [|split].
    + destruct I1 as [I1|I1]; [|auto]. rewrite I1.
      destruct (Z.min_spec x h) as [(_ & ->)|(_ & ->)]; auto.
    + lia.
    + intros y [<-|Hy]; [lia|apply I3; auto].
Qed.

Lemma scan_min_unique a n x :
  In x (occupied a n) -> (forall y, In y (occupied a n) -> x <= y) ->
  scan_min a n = x.
Proof.
  unfold scan_min. destruct (occupied a n) as [|h t]; [intros []|].
  intros Hx Hle. cbn [hd tl].
  destruct (fold_min_spec t h) as (I1 & I2 & I3).
  assert (In (fold_left Z.min t h) (h :: t)).
  { destruct I1 as [->|I1]; [left; reflexivity|right; exact I1]. }
  assert (fold_left Z.min t h <= x).
  { destruct Hx as [<-|Hx]; [exact I2|apply I3; exact Hx]. }
  specialize (Hle _ H). lia.
Qed.

Lemma scan_max_neg a n : scan_max a n = - scan_min (neg a) n.
Proof.
  unfold scan_max, scan_min, occupied, neg. rewrite firstn_map.
  destruct (firstn (Z.to_nat n) a) as [|h t]; [reflexivity|].
  cbn [map hd tl]. revert h. induction t as [|y t IH]; intros h; simpl; [lia|].
  rewrite IH. f_equal. f_equal. lia.
Qed.

Lemma scan_max_unique a n x :
  In x (occupied a n) -> (forall y, In y (occupied a n) -> y <= x) ->
  scan_max a n = x.
Proof.
  intros Hx Hle. rewrite scan_max_neg.
  rewrite (scan_min_unique (neg a) n (- x)); [lia| |].
  - unfold occupied, neg. rewrite firstn_map. apply in_map. exact Hx.
  - intros y Hy. unfold occupied, neg in Hy. rewrite firstn_map in Hy.
    apply in_map_iff in Hy. destruct Hy as (z & <- & Hz).
    specialize (Hle z Hz). lia.
Qed.

(** C2: [heap_min] and [heap_max] throw on an empty heap; on a
    non-empty heap that [is_heap] accepts they return the minimum and
    the maximum of the occupied slots as a full scan finds them, and
    [heap_max] reads [array[0]] for a single element and otherwise the
    larger of [array[1]] and, when occupied, [array[2]]. *)
Theorem heap_min_max_correct :
  (forall a,
     heap_min a 0 = Throw (runtime_error "Cannot get min value in empty heap.") /\
     heap_max a 0 = Throw (runtime_error "Cannot get max value in empty heap.")) /\
  (forall fuel a count,
     1 <= count <= index_limit -> count <= Z.of_nat (length a) ->
     (Z.to_nat count <= fuel)%nat -> is_heap fuel a count = Some true ->
     heap_min a count = Return (scan_min a count) /\
     heap_max a count = Return (scan_max a count) /\
     heap_max a count =
       Return (if count =? 1 then rd a 0
               else if 2 <? count then Z.max (rd a 1) (rd a 2) else rd a 1)).
Proof.
  split; [intros a; split; reflexivity|].
  intros fuel a n Hn Hlen Hf Hh.
  apply is_heap_true_iff in Hh; [|lia|exact Hf].
  assert (Hmin : heap_min a n = Return (rd a 0)).
  { unfold heap_min. destruct (Z.ltb_spec n 1); [lia|reflexivity]. }
  assert (Hmax : heap_max a n = Return (rd a (max_slot a n))).
  { unfold heap_max, max_slot. destruct (Z.ltb_spec n 1); [lia|].
    destruct (fst (max_child a 0 (wrap (n - 1)))); reflexivity. }
  split; [|split].
  - rewrite Hmin. f_equal. symmetry. apply scan_min_unique.
    + apply In_occupied; [lia|]. exists 0. split; [lia|reflexivity].
    + intros y Hy. apply In_occupied in Hy; [|lia].
      destruct Hy as (j & Hj & <-). apply (heap_root_least a n); auto.
  - rewrite Hmax. f_equal. symmetry. apply scan_max_unique.
    + apply In_occupied; [lia|]. exists (max_slot a n).
      split; [apply max_slot_range; lia|reflexivity].
    + intros y Hy. apply In_occupied in Hy; [|lia].
      destruct Hy as (j & Hj & <-). apply heap_max_slot_greatest; auto.
  - unfold heap_max. destruct (Z.ltb_spec n 1); [lia|]. f_equal.
    unfold max_child. rewrite pred_eq by bounds.
    change (left 0) with 1. change (right 0) with 2.
    destruct (Z.eqb_spec n 1) as [->|N1]; [reflexivity|].
    destruct (Z.leb_spec 1 (n - 1)); [|lia].
    destruct (Z.ltb_spec 2 n); destruct (Z.leb_spec 2 (n - 1)); try lia;
      cbn [andb fst snd]; [|reflexivity].
    destruct (Z.ltb_spec (rd a 1) (rd a 2)); lia.
Qed.

Lemma heap_min_max_correct_witness :
  heap_min [1; 7; 9; 3; 5; 2; 8] 7 = Return (scan_min [1; 7; 9; 3; 5; 2; 8] 7) /\
  heap_max [1; 7; 9; 3; 5; 2; 8] 7 = Return (scan_max [1; 7; 9; 3; 5; 2; 8] 7) /\
  heap_max [1; 7; 9; 3; 5; 2; 8] 7 =
    Return (if 7 =? 1 then rd [1; 7; 9; 3; 5; 2; 8] 0
            else if 2 <? 7
                 then Z.max (rd [1; 7; 9; 3; 5; 2; 8] 1) (rd [1; 7; 9; 3; 5; 2; 8] 2)
                 else rd [1; 7; 9; 3; 5; 2; 8] 1).
Proof.
  apply (proj2 heap_min_max_correct 7%nat [1; 7; 9; 3; 5; 2; 8] 7).
  - rewrite index_limit_val. lia.
  - simpl. lia.
  - simpl. lia.
  - vm_compute. reflexivity.
Defined.

(** C7: on a heap that [is_heap] accepts and for an index in the
    occupied range, [heap_remove_at_index] returns the value stored at
    that index and decrements [count] by one, and the first
    [count - 1] slots then hold the occupied elements without one
    occurrence of the returned value: the copy of the last element
    written over the removed slot does not survive as a duplicate. The
    result is again accepted by [is_heap]. *)
Theorem remove_at_index_multiset fuel index a count :
  1 <= count <= index_limit -> count <= Z.of_nat (length a) ->
  0 <= index < count -> (Z.to_nat count <= fuel)%nat ->
  is_heap fuel a count = Some true ->
  exists a',
    heap_remove_at_index fuel index a count = Return (rd a index, a', count - 1) /\
    Permutation (rd a index :: occupied a' (count - 1)) (occupied a count) /\
    is_heap fuel a' (count - 1) = Some true.
Proof.
  intros Hn Hlen Hi Hf Hh. apply is_heap_true_iff in Hh; [|lia|exact Hf].
  destruct (heap_remove_at_index_ok fuel index a count) as (a' & E & H' & _ & P);
    auto; try lia.
  exists a'. split; [exact E|]. split; [exact P|].
  apply is_heap_true_iff; auto; lia.
Qed.

Lemma remove_at_index_multiset_witness :
  exists a',
    heap_remove_at_index 7 3 [1; 7; 9; 3; 5; 2; 8] 7
      = Return (rd [1; 7; 9; 3; 5; 2; 8] 3, a', 7 - 1) /\
    Permutation (rd [1; 7; 9; 3; 5; 2; 8] 3 :: occupied a' (7 - 1))
                (occupied [1; 7; 9; 3; 5; 2; 8] 7) /\
    is_heap 7 a' (7 - 1) = Some true.
Proof.
  apply (remove_at_index_multiset 7 3 [1; 7; 9; 3; 5; 2; 8] 7).
  - rewrite index_limit_val. lia.
  - simpl. lia.
  - lia.
  - simpl. lia.
  - vm_compute. reflexivity.
Defined.

(** C5: on a full heap that [is_heap] accepts, with current maximum
    [mx], [heap_insert_circular] hands back [(true, value)] and leaves
    array and count as they are when [value] is not smaller than [mx];
    when [value < mx] it hands back [(true, mx)], keeps [count], and the
    array is the result of writing [value] over the slot of the
    maximum, exchanging it with slot 0 when it is smaller than the
    minimum, and sifting that slot down; the result is a heap of the
    former elements with [value] in place of one [mx]. *)
Theorem insert_circular_full fuel value a max_size mx :
  1 <= max_size <= index_limit -> max_size <= Z.of_nat (length a) ->
  (Z.to_nat max_size <= fuel)%nat ->
  is_heap fuel a max_size = Some true -> heap_max a max_size = Return mx ->
  (mx <= value ->
   heap_insert_circular fuel value a max_size max_size
   = Return ((true, value), a, max_size)) /\
  (value < mx ->
   exists m a',
     rd a m = mx /\ 0 <= m < max_size /\
     heap_insert_circular fuel value a max_size max_size
     = Return ((true, mx), a', max_size) /\
     (max_size = 1 -> a' = wr a m value) /\
     (1 < max_size ->
      sift_down fuel
        (if value <? rd a 0 then swap (wr a m value) 0 m else wr a m value)
        m (max_size - 1) = Some a') /\
     is_heap fuel a' max_size = Some true /\
     Permutation (mx :: occupied a' max_size) (value :: occupied a max_size)).
Proof.
  intros Hn Hlen Hf Hh Hmx. apply is_heap_true_iff in Hh; [|lia|exact Hf].
  assert (Emx : mx = rd a (max_slot a max_size)).
  { unfold heap_max in Hmx. destruct (Z.ltb_spec max_size 1); [lia|].
    injection Hmx as <-. unfold max_slot.
    destruct (fst (max_child a 0 (wrap (max_size - 1)))); reflexivity. }
  subst mx. split.
  - intros Hv. apply heap_insert_circular_reject; auto.
  - intros Hv.
    destruct (heap_insert_circular_evict fuel value a max_size)
      as (a' & E & H' & _ & P); auto.
    pose proof (max_slot_range a max_size Hn) as Hm.
    exists (max_slot a max_size), a'.
    split; [reflexivity|]. split; [exact Hm|]. split; [exact E|].
    assert (E0 : 1 < max_size ->
                 rd (wr a (max_slot a max_size) value) 0 = rd a 0).
    { intros H1.
      destruct (max_slot_spec a max_size Hn) as [(E1 & _)|(_ & C & _)]; [lia|].
      apply rd_wr_other; destruct C; lia. }
    unfold heap_insert_circular in E. rewrite Z.eqb_refl in E. cbn [negb] in E.
    rewrite circular_slot in E by lia.
    destruct (Z.ltb_spec value (rd a (max_slot a max_size))); [|lia].
    split; [|split; [|split]].
    + intros H1. destruct (Z.ltb_spec 1 max_size); [lia|]. congruence.
    + intros H1. destruct (Z.ltb_spec 1 max_size); [|lia].
      rewrite pred_eq in E by bounds. rewrite (E0 H1) in E.
      destruct (sift_down fuel _ (max_slot a max_size) (max_size - 1));
        cbn [lift] in E; congruence.
    + apply is_heap_true_iff; auto; lia.
    + exact P.
Qed.

Lemma insert_circular_full_witness :
  exists m a',
    rd [1; 7; 9; 3; 5; 2; 8] m = 9 /\ 0 <= m < 7 /\
    heap_insert_circular 7 0 [1; 7; 9; 3; 5; 2; 8] 7 7
    = Return ((true, 9), a', 7) /\
    (7 = 1 -> a' = wr [1; 7; 9; 3; 5; 2; 8] m 0) /\
    (1 < 7 ->
     sift_down 7
       (if 0 <? rd [1; 7; 9; 3; 5; 2; 8] 0
        then swap (wr [1; 7; 9; 3; 5; 2; 8] m 0) 0 m
        else wr [1; 7; 9; 3; 5; 2; 8] m 0)
       m (7 - 1) = Some a') /\
    is_heap 7 a' 7 = Some true /\
    Permutation (9 :: occupied a' 7) (0 :: occupied [1; 7; 9; 3; 5; 2; 8] 7).
Proof.
  apply (proj2 (insert_circular_full 7 0 [1; 7; 9; 3; 5; 2; 8] 7 9
                  ltac:(rewrite index_limit_val; lia) ltac:(simpl; lia)
                  ltac:(simpl; lia) ltac:(vm_compute; reflexivity)
                  ltac:(vm_compute; reflexivity))).
  lia.
Defined.

(** ** Sequences of public operations *)

Lemma heap_ok_small pol a n : n <= 1 -> heap_ok pol a n.
Proof.
  intros Hn k j Hk D N L. pose proof (desc_lt k j Hk D ltac:(lia)). lia.
Qed.

Lemma run_op_keeps fuel max_size o a count a' count' :
  max_size <= index_limit -> (Z.to_nat max_size <= fuel)%nat ->
  state_ok max_size a count -> valid_args o count ->
  run_op fuel max_size o a count = Return (a', count') ->
  state_ok max_size a' count'.
Proof.
  intros Hm Hf (Hlen & Hc & H) Hv E. destruct o as [v| | |v|v i|i]; cbn [run_op] in E.
  - destruct (Z_lt_dec count max_size) as [L|L].
    + destruct (heap_insert_ok fuel v a count max_size) as (b & Eb & Hb & Lb & _);
        auto; try lia.
      rewrite Eb in E. injection E as <- <-. repeat split; auto; lia.
    + unfold heap_insert in E. destruct (Z.ltb_spec count max_size); [lia|discriminate].
  - destruct (Z.eq_dec count 0) as [->|N]; [discriminate|].
    destruct (heap_remove_min_ok fuel a count) as (b & Eb & Hb & Lb & _);
      auto; try lia.
    rewrite Eb in E. cbn [bind fst snd] in E. injection E as <- <-.
    repeat split; auto; lia.
  - destruct (Z.eq_dec count 0) as [->|N]; [discriminate|].
    destruct (heap_remove_max_ok fuel a count) as (b & Eb & Hb & Lb & _);
      auto; try lia.
    rewrite Eb in E. cbn [bind fst snd] in E. injection E as <- <-.
    repeat split; auto; lia.
  - destruct (Z_lt_dec count max_size) as [L|L].
    + unfold heap_insert_circular in E.
      destruct (Z.eqb_spec count max_size); [lia|]. cbn [negb] in E.
      destruct (heap_insert_ok fuel v a count max_size) as (b & Eb & Hb & Lb & _);
        auto; try lia.
      rewrite Eb in E. cbn [bind fst snd] in E. injection E as <- <-.
      repeat split; auto; lia.
    + assert (count = max_size) as -> by lia.
      destruct (Z_le_dec 1 max_size) as [L1|L1].
      * destruct (Z_lt_dec v (rd a (max_slot a max_size))) as [Lv|Lv].
        -- destruct (heap_insert_circular_evict fuel v a max_size)
             as (b & Eb & Hb & Lb & _); auto; try lia.
           rewrite Eb in E. cbn [bind fst snd] in E. injection E as <- <-.
           repeat split; auto; lia.
        -- rewrite heap_insert_circular_reject in E by lia.
           cbn [bind fst snd] in E. injection E as <- <-.
           repeat split; auto; lia.
      * assert (max_size = 0) as -> by lia.
        unfold heap_insert_circular in E. cbn [Z.eqb Z.ltb Z.compare negb] in E.
        destruct (v <? rd a 0); cbn [bind fst snd] in E; injection E as <- <-;
          repeat split; rewrite ?length_wr; auto; try lia;
          apply heap_ok_small; lia.
  - cbn [valid_args] in Hv.
    destruct (heap_replace_at_index_ok fuel (Temp v) v i a count)
      as (b & Eb & Hb & (Lb & _) & _); auto; try lia.
    { split; [reflexivity|exact I]. }
    rewrite Eb in E. cbn [bind fst snd] in E. injection E as <- <-.
    rewrite length_wr in Lb. repeat split; auto; lia.
  - cbn [valid_args] in Hv.
    destruct (heap_remove_at_index_ok fuel i a count) as (b & Eb & Hb & Lb & _);
      auto; try lia.
    rewrite Eb in E. cbn [bind fst snd] in E. injection E as <- <-.
    repeat split; auto; lia.
Qed.

Lemma reachable_ok fuel max_size a count :
  0 <= max_size <= index_limit -> (Z.to_nat max_size <= fuel)%nat ->
  reachable fuel max_size a count -> state_ok max_size a count.
Proof.
  intros Hm Hf R. induction R as [a Hlen|a size a' Hlen Hs E|a count o a' count' R IH Hv E].
  - repeat split; auto; try lia. apply heap_ok_small. lia.
  - destruct (make_heap_ok fuel a size) as (b & Eb & Hb & (Lb & _)); try lia.
    assert (b = a') as -> by congruence.
    repeat split; auto; lia.
  - eapply run_op_keeps; eauto. lia.
Qed.

(** C1: in an array whose capacity [max_size] the index arithmetic can
    address, every state reached from the empty heap or from a
    [make_heap]-initialised array by successful calls of [heap_insert],
    [heap_remove_min], [heap_remove_max], [heap_insert_circular],
    [heap_replace_at_index] and [heap_remove_at_index] with indices in
    the occupied range is accepted by [is_heap]. *)
Theorem invariant_preserved fuel max_size a count :
  0 <= max_size <= index_limit -> (Z.to_nat max_size <= fuel)%nat ->
  reachable fuel max_size a count ->
  is_heap fuel a count = Some true.
Proof.
  intros Hm Hf R.
  destruct (reachable_ok fuel max_size a count Hm Hf R) as (_ & Hc & H).
  apply is_heap_true_iff; auto; lia.
Qed.

Lemma invariant_preserved_witness :
  is_heap 4 [0; 2; 3; 2] 3 = Some true.
Proof.
  apply (invariant_preserved 4 4 [0; 2; 3; 2] 3).
  - rewrite index_limit_val. lia.
  - simpl. lia.
  - apply (reach_op 4 4 [0; 2; 5; 2] 3 (ReplaceAt 3 2) [0; 2; 3; 2] 3);
      [|simpl; lia|vm_compute; reflexivity].
    apply (reach_op 4 4 [0; 7; 5; 2] 4 RemoveMax [0; 2; 5; 2] 3);
      [|exact I|vm_compute; reflexivity].
    apply (reach_op 4 4 [2; 9; 5; 7] 4 (InsertCircular 0) [0; 7; 5; 2] 4);
      [|exact I|vm_compute; reflexivity].
    apply (reach_op 4 4 [2; 9; 5; 0] 3 (Insert 7) [2; 9; 5; 7] 4);
      [|exact I|vm_compute; reflexivity].
    apply (reach_make_heap 4 4 [5; 9; 2; 0] 3 [2; 9; 5; 0]);
      [simpl; lia|lia|vm_compute; reflexivity].
Defined.

(** ** Inserting and draining *)

Lemma insert_all_ok fuel max_size : forall values a count,
  max_size <= index_limit -> max_size <= Z.of_nat (length a) ->
  0 <= count -> count + Z.of_nat (length values) <= max_size ->
  min_max_heap a count -> (Z.to_nat max_size <= fuel)%nat ->
  exists a',
    insert_all fuel values a count max_size
      = Return (a', count + Z.of_nat (length values)) /\
    min_max_heap a' (count + Z.of_nat (length values)) /\
    length a' = length a /\
    Permutation (occupied a' (count + Z.of_nat (length values)))
                (values ++ occupied a count).
Proof.
  induction values as [|v rest IH]; intros a count Hm Hlen Hc Hfit H Hf.
  - exists a. cbn [insert_all length Z.of_nat app]. rewrite Z.add_0_r. auto.
  - cbn [insert_all]. cbn [length] in *.
    destruct (heap_insert_ok fuel v a count max_size) as (a1 & E1 & H1 & L1 & P1 & _);
      auto; try lia.
    rewrite E1. cbn [bind fst snd].
    destruct (IH a1 (count + 1)) as (a' & E' & H' & L' & P'); auto; try lia.
    replace (count + 1 + Z.of_nat (length rest))
      with (count + Z.of_nat (S (length rest))) in * by lia.
    exists a'. split; [exact E'|]. split; [exact H'|]. split; [congruence|].
    etransitivity; [exact P'|].
    etransitivity; [apply Permutation_app_head; exact P1|].
    symmetry. apply Permutation_middle.
Qed.

Lemma drain_min_ok fuel : forall k a,
  Z.of_nat k <= index_limit -> Z.of_nat k <= Z.of_nat (length a) ->
  min_max_heap a (Z.of_nat k) -> (k <= fuel)%nat ->
  exists out,
    drain (heap_remove_min fuel) k a (Z.of_nat k) = Return out /\
    Permutation out (occupied a (Z.of_nat k)) /\ Sorted Z.le out.
Proof.
  induction k as [|k IH]; intros a Hk Hlen H Hf.
  - exists []. split; [reflexivity|]. split; [|constructor].
    unfold occupied. reflexivity.
  - cbn [drain].
    destruct (heap_remove_min_ok fuel a (Z.of_nat (S k))) as (a1 & E1 & H1 & L1 & P1);
      auto; try lia.
    rewrite E1. cbn [bind fst snd].
    replace (Z.of_nat (S k) - 1) with (Z.of_nat k) in * by lia.
    destruct (IH a1) as (out & E & P & Hs); auto; try lia.
    rewrite E. cbn [bind]. exists (rd a 0 :: out). split; [reflexivity|].
    split; [etransitivity; [apply perm_skip; exact P|exact P1]|].
    constructor; [exact Hs|].
    destruct out as [|h t]; constructor.
    assert (Hin : In h (occupied a (Z.of_nat (S k)))).
    { apply (Permutation_in h) in P1; [exact P1|].
      right. apply (Permutation_in h P). left. reflexivity. }
    apply In_occupied in Hin; [|lia]. destruct Hin as (j & Hj & <-).
    apply (heap_root_least a (Z.of_nat (S k))); auto.
Qed.

Lemma drain_max_ok fuel : forall k a,
  Z.of_nat k <= index_limit -> Z.of_nat k <= Z.of_nat (length a) ->
  min_max_heap a (Z.of_nat k) -> (k <= fuel)%nat ->
  exists out,
    drain (heap_remove_max fuel) k a (Z.of_nat k) = Return out /\
    Permutation out (occupied a (Z.of_nat k)) /\ Sorted Z.ge out.
Proof.
  induction k as [|k IH]; intros a Hk Hlen H Hf.
  - exists []. split; [reflexivity|]. split; [|constructor].
    unfold occupied. reflexivity.
  - cbn [drain].
    destruct (heap_remove_max_ok fuel a (Z.of_nat (S k))) as (a1 & E1 & H1 & L1 & P1);
      auto; try lia.
    rewrite E1. cbn [bind fst snd].
    replace (Z.of_nat (S k) - 1) with (Z.of_nat k) in * by lia.
    destruct (IH a1) as (out & E & P & Hs); auto; try lia.
    rewrite E. cbn [bind].
    exists (rd a (max_slot a (Z.of_nat (S k))) :: out). split; [reflexivity|].
    split; [etransitivity; [apply perm_skip; exact P|exact P1]|].
    constructor; [exact Hs|].
    destruct out as [|h t]; constructor.
    assert (Hin : In h (occupied a (Z.of_nat (S k)))).
    { apply (Permutation_in h) in P1; [exact P1|].
      right. apply (Permutation_in h P). left. reflexivity. }
    apply In_occupied in Hin; [|lia]. destruct Hin as (j & Hj & <-).
    apply Z.le_ge. apply heap_max_slot_greatest; auto. lia.
Qed.

(** C3: inserting [n] values with [heap_insert] into an empty array of
    capacity at least [n] and then calling [heap_remove_min] [n] times
    returns exactly those values in non-decreasing order; calling
    [heap_remove_max] [n] times instead returns them in non-increasing
    order. *)
Theorem round_trip_sorted fuel values a max_size :
  Z.of_nat (length values) <= max_size -> max_size <= index_limit ->
  max_size <= Z.of_nat (length a) -> (Z.to_nat max_size <= fuel)%nat ->
  exists a',
    insert_all fuel values a 0 max_size = Return (a', Z.of_nat (length values)) /\
    (exists out,
       drain (heap_remove_min fuel) (length values) a' (Z.of_nat (length values))
         = Return out /\
       Permutation out values /\ Sorted Z.le out) /\
    (exists out,
       drain (heap_remove_max fuel) (length values) a' (Z.of_nat (length values))
         = Return out /\
       Permutation out values /\ Sorted Z.ge out).
Proof.
  intros Hfit Hm Hlen Hf.
  destruct (insert_all_ok fuel max_size values a 0) as (a' & E & H & L & P);
    auto; try lia.
  { apply heap_ok_small. lia. }
  cbn [Z.add] in *. rewrite app_nil_r in P.
  exists a'. split; [exact E|]. split.
  - destruct (drain_min_ok fuel (length values) a') as (out & Eo & Po & So);
      auto; try lia.
    exists out. split; [exact Eo|]. split; [|exact So]. etransitivity; eauto.
  - destruct (drain_max_ok fuel (length values) a') as (out & Eo & Po & So);
      auto; try lia.
    exists out. split; [exact Eo|]. split; [|exact So]. etransitivity; eauto.
Qed.

Lemma round_trip_sorted_witness :
  exists a',
    insert_all 5 [4; 1; 3; 1; 5] [0; 0; 0; 0; 0] 0 5 = Return (a', 5) /\
    (exists out,
       drain (heap_remove_min 5) 5 a' 5 = Return out /\
       Permutation out [4; 1; 3; 1; 5] /\ Sorted Z.le out) /\
    (exists out,
       drain (heap_remove_max 5) 5 a' 5 = Return out /\
       Permutation out [4; 1; 3; 1; 5] /\ Sorted Z.ge out).
Proof.
  apply (round_trip_sorted 5 [4; 1; 3; 1; 5] [0; 0; 0; 0; 0] 5).
  - simpl. lia.
  - rewrite index_limit_val. lia.
  - simpl. lia.
  - simpl. lia.
Defined.

(** ** The range check of the by-index operations *)

Lemma replace_guard fuel new_value index a count :
  count <> 0 ->
  (heap_replace_at_index fuel new_value index a count
   = Throw (range_error "Index beyond end of heap.") <-> count < index).
Proof.
  intros Hc. unfold heap_replace_at_index.
  destruct (Z.eqb_spec count 0); [contradiction|].
  destruct (Z.ltb_spec count index) as [L|L].
  - split; auto.
  - split; [|lia]. cbv zeta.
    match goal with
    | |- lift ?o _ = _ -> _ => destruct o; cbn [lift]; discriminate
    end.
Qed.

(** C4, at the boundary: on the two-element heap [1; 5] stored in an
    array of capacity 3, the index [2 = count] is outside the occupied
    range, yet [heap_replace_at_index] and [heap_remove_at_index] do not
    throw: they return the unoccupied slot's value and change the array
    (and the count); only indices above [count] are rejected. *)
Theorem index_equal_count_accepted :
  is_heap 3 [1; 5; 9] 2 = Some true /\
  heap_replace_at_index 3 (Temp 0) 2 [1; 5; 9] 2 = Return (9, [0; 5; 1]) /\
  heap_remove_at_index 3 2 [1; 5; 9] 2 = Return (9, [1; 5; 5], 1) /\
  heap_replace_at_index 3 (Temp 0) 3 [1; 5; 9] 2
  = Throw (range_error "Index beyond end of heap.").
Proof. repeat split; vm_compute; reflexivity. Qed.

(** ** Ties in the lookups *)

Lemma min_child_first a i r :
  0 <= i -> r < index_limit -> 2 * i + 1 <= r ->
  forall c, is_child i c -> c <= r ->
    rd a (snd (min_child a i r)) <= rd a c /\
    (rd a c = rd a (snd (min_child a i r)) -> snd (min_child a i r) <= c).
Proof.
  intros Hi Hr Hc c Hcc Lc. unfold min_child.
  rewrite left_eq, right_eq by bounds.
  destruct Hcc as [->| ->]; cmp_cases; cbn [andb fst snd]; lia.
Qed.

Lemma min_gchild_first a i r :
  0 <= i -> r < index_limit -> 4 * i + 3 <= r ->
  forall c, is_gchild i c -> c <= r ->
    rd a (snd (min_gchild a i r)) <= rd a c /\
    (rd a c = rd a (snd (min_gchild a i r)) -> snd (min_gchild a i r) <= c).
Proof.
  intros Hi Hr Hc. unfold min_gchild, is_gchild.
  rewrite (left_eq i), (right_eq i) by bounds.
  rewrite (left_eq (2 * i + 1)), (right_eq (2 * i + 1)) by bounds.
  rewrite (left_eq (2 * i + 2)), (right_eq (2 * i + 2)) by bounds.
  replace (2 * (2 * i + 1) + 1) with (4 * i + 3) by lia.
  replace (2 * (2 * i + 1) + 2) with (4 * i + 4) by lia.
  replace (2 * (2 * i + 2) + 1) with (4 * i + 5) by lia.
  replace (2 * (2 * i + 2) + 2) with (4 * i + 6) by lia.
  destruct (Z.leb_spec (4 * i + 3) r); [|lia]. cbv zeta.
  set (m1 := if (4 * i + 4 <=? r) && (rd a (4 * i + 4) <? rd a (4 * i + 3))
             then 4 * i + 4 else 4 * i + 3).
  assert (H1 : (m1 = 4 * i + 3 \/ m1 = 4 * i + 4 /\ rd a m1 < rd a (4 * i + 3)) /\
               rd a m1 <= rd a (4 * i + 3) /\
               (4 * i + 4 <= r -> rd a m1 <= rd a (4 * i + 4))).
  { subst m1. cmp_cases; cbn [andb]; lia. }
  clearbody m1.
  set (m2 := if (4 * i + 5 <=? r) && (rd a (4 * i + 5) <? rd a m1)
             then 4 * i + 5 else m1).
  assert (H2 : (m2 = 4 * i + 3 \/
                m2 = 4 * i + 4 /\ rd a m2 < rd a (4 * i + 3) \/
                m2 = 4 * i + 5 /\ rd a m2 < rd a (4 * i + 3) /\
                  (4 * i + 4 <= r -> rd a m2 < rd a (4 * i + 4))) /\
               rd a m2 <= rd a (4 * i + 3) /\
               (4 * i + 4 <= r -> rd a m2 <= rd a (4 * i + 4)) /\
               (4 * i + 5 <= r -> rd a m2 <= rd a (4 * i + 5))).
  { subst m2. cmp_cases; cbn [andb]; lia. }
  clearbody m2. clear H1 m1.
  set (m3 := if (4 * i + 6 <=? r) && (rd a (4 * i + 6) <? rd a m2)
             then 4 * i + 6 else m2).
  assert (H3 : (m3 = 4 * i + 3 \/
                m3 = 4 * i + 4 /\ rd a m3 < rd a (4 * i + 3) \/
                m3 = 4 * i + 5 /\ rd a m3 < rd a (4 * i + 3) /\
                  (4 * i + 4 <= r -> rd a m3 < rd a (4 * i + 4)) \/
                m3 = 4 * i + 6 /\ rd a m3 < rd a (4 * i + 3) /\
                  (4 * i + 4 <= r -> rd a m3 < rd a (4 * i + 4)) /\
                  (4 * i + 5 <= r -> rd a m3 < rd a (4 * i + 5))) /\
               rd a m3 <= rd a (4 * i + 3) /\
               (4 * i + 4 <= r -> rd a m3 <= rd a (4 * i + 4)) /\
               (4 * i + 5 <= r -> rd a m3 <= rd a (4 * i + 5)) /\
               (4 * i + 6 <= r -> rd a m3 <= rd a (4 * i + 6))).
  { subst m3. cmp_cases; cbn [andb]; lia. }
  clearbody m3. clear H2 m2. cbn [fst snd].
  intros c [->|[->|[->| ->]]] Lc; lia.
Qed.

(** The claim with the right child examined first fails: on equal
    children the lookups return the left child. *)
Lemma right_first_tie_break_fails :
  ~ (forall a i r,
       left i <= r -> right i <= r -> rd a (left i) = rd a (right i) ->
       min_child a i r = (true, right i) /\ max_child a i r = (true, right i)).
Proof.
  intros H. specialize (H [0; 5; 5] 0 2).
  destruct H as (H & _); [vm_compute; discriminate|vm_compute; discriminate
                         |reflexivity|].
  vm_compute in H. discriminate.
Qed.

(** C9, amended: the lookups compare with strict [<] only and examine
    the left child before the right, and the grandchildren in the
    order [left(left)], [right(left)], [left(right)], [right(right)],
    which is the order of increasing index; a candidate examined
    earlier is kept against an equal one examined later, so each lookup
    returns the lowest index among the in-range candidates holding
    the extremal value, and on equal children [min_child] and
    [max_child] return the left child. *)
Theorem tie_break_left_first a i r :
  0 <= i <= r -> r < index_limit ->
  (left i <= r ->
   left i < right i /\
   (forall c, c = left i \/ c = right i -> c <= r ->
      (rd a (snd (min_child a i r)) <= rd a c /\
       (rd a c = rd a (snd (min_child a i r)) -> snd (min_child a i r) <= c)) /\
      (rd a c <= rd a (snd (max_child a i r)) /\
       (rd a c = rd a (snd (max_child a i r)) -> snd (max_child a i r) <= c))) /\
   (right i <= r -> rd a (left i) = rd a (right i) ->
    min_child a i r = (true, left i) /\ max_child a i r = (true, left i))) /\
  (left (left i) <= r ->
   left (left i) < right (left i) < left (right i) /\
   left (right i) < right (right i) /\
   (forall c, c = left (left i) \/ c = right (left i) \/
              c = left (right i) \/ c = right (right i) -> c <= r ->
      (rd a (snd (min_gchild a i r)) <= rd a c /\
       (rd a c = rd a (snd (min_gchild a i r)) -> snd (min_gchild a i r) <= c)) /\
      (rd a c <= rd a (snd (max_gchild a i r)) /\
       (rd a c = rd a (snd (max_gchild a i r)) -> snd (max_gchild a i r) <= c)))).
Proof.
  intros Hi Hr. split.
  - intros Hl. rewrite left_eq, right_eq in * by bounds.
    split; [lia|]. split.
    + intros c Hc Lc. split.
      * apply min_child_first; auto; try lia.
      * rewrite max_child_neg.
        destruct (min_child_first (neg a) i r ltac:(lia) Hr Hl c) as (M1 & M2);
          [unfold is_child; lia|auto|].
        rewrite !rd_neg in M1, M2. split; [lia|]. intros E. apply M2. lia.
    + intros Hrr E. unfold min_child, max_child.
      rewrite left_eq, right_eq by bounds. rewrite E.
      rewrite Z.ltb_irrefl, andb_false_r.
      destruct (Z.leb_spec (2 * i + 1) r); [auto|lia].
  - rewrite (left_eq i), (left_eq (2 * i + 1)) by bounds. intros Hl.
    rewrite (right_eq i), (right_eq (2 * i + 1)) by bounds.
    rewrite (left_eq (2 * i + 2)), (right_eq (2 * i + 2)) by bounds.
    split; [lia|]. split; [lia|].
    intros c Hc Lc.
    assert (G : is_gchild i c) by (unfold is_gchild; lia).
    split.
    + apply min_gchild_first; auto; lia.
    + rewrite max_gchild_neg.
      destruct (min_gchild_first (neg a) i r ltac:(lia) Hr ltac:(lia) c G Lc)
        as (M1 & M2).
      rewrite !rd_neg in M1, M2. split; [lia|]. intros E. apply M2. lia.
Qed.

Lemma tie_break_left_first_witness :
  min_child [0; 5; 5; 7; 7; 7; 7] 0 6 = (true, left 0) /\
  max_child [0; 5; 5; 7; 7; 7; 7] 0 6 = (true, left 0).
Proof.
  apply (proj1 (tie_break_left_first [0; 5; 5; 7; 7; 7; 7] 0 6
                  ltac:(lia) ltac:(rewrite index_limit_val; lia))).
  - vm_compute. discriminate.
  - vm_compute. discriminate.
  - reflexivity.
Defined.

(** ** Every operation runs to completion *)

Lemma bubble_up_max_runs fuel a c :
  0 <= c < word_modulus -> (Z.to_nat c <= fuel)%nat ->
  exists a', bubble_up_max fuel a c = Some a' /\ length a' = length a.
Proof.
  intros Hc Hf. rewrite bubble_up_max_neg.
  destruct (bubble_up_min_runs fuel (neg a) c false Hc Hf) as (a' & E & L).
  unfold bubble_up_min. rewrite E. exists (neg a'). split; [reflexivity|].
  rewrite length_neg, L, length_neg. reflexivity.
Qed.

Lemma sift_down_max_runs fuel a i r :
  r < index_limit -> 0 <= i < index_limit -> (Z.to_nat (r - i) <= fuel)%nat ->
  exists a', sift_down_max fuel a i r = Some a' /\ length a' = length a.
Proof.
  intros Hr Hi Hf. rewrite sift_down_max_neg.
  destruct (sift_down_min_runs r Hr fuel (neg a) i true Hi Hf) as (a' & E & L).
  unfold sift_down_min. rewrite E. exists (neg a'). split; [reflexivity|].
  rewrite length_neg, L, length_neg. reflexivity.
Qed.

Lemma heap_insert_finishes fuel v a count max_size :
  0 <= count < index_limit -> (Z.to_nat count <= fuel)%nat ->
  heap_insert fuel v a count max_size <> Unfinished.
Proof.
  intros Hc Hf. unfold heap_insert.
  destruct (count <? max_size); [|discriminate].
  rewrite (wrap_small (count + 1)) by bounds. rewrite pred_eq by bounds.
  replace (count + 1 - 1) with count by lia.
  destruct (bubble_up_runs fuel (wr a count v) count) as (a' & E & _);
    try bounds; auto.
  rewrite E. discriminate.
Qed.

Lemma heap_remove_min_finishes fuel a count :
  0 <= count < index_limit -> (Z.to_nat count <= fuel)%nat ->
  heap_remove_min fuel a count <> Unfinished.
Proof.
  intros Hc Hf. unfold heap_remove_min.
  destruct (Z.eqb_spec count 0); [discriminate|].
  rewrite pred_eq by bounds.
  destruct (Z.ltb_spec 0 (count - 1)); [|discriminate].
  rewrite pred_eq by bounds.
  destruct (sift_down_runs fuel (swap a 0 (count - 1)) 0 (count - 1 - 1))
    as (a' & E & _); try bounds; try lia.
  rewrite E. discriminate.
Qed.

Lemma heap_replace_at_index_finishes fuel new_value index a count :
  0 <= count < index_limit -> 0 <= index -> (Z.to_nat count <= fuel)%nat ->
  heap_replace_at_index fuel new_value index a count <> Unfinished.
Proof.
  intros Hc Hi Hf. unfold heap_replace_at_index.
  destruct (Z.eqb_spec count 0); [discriminate|].
  destruct (Z.ltb_spec count index); [discriminate|]. cbv zeta.
  rewrite pred_eq by bounds.
  set (a1 := wr a index (deref a new_value)).
  assert (Hs : forall x, exists a', sift_down fuel x index (count - 1) = Some a').
  { intros x. destruct (sift_down_runs fuel x index (count - 1)) as (a' & E & _);
      try bounds; try lia. exists a'. exact E. }
  assert (Hb : exists a', bubble_up fuel a1 index = Some a').
  { destruct (bubble_up_runs fuel a1 index) as (a' & E & _); try bounds; try lia.
    exists a'. exact E. }
  assert (Hmin : exists a', bubble_up_min fuel a1 index = Some a').
  { destruct (bubble_up_min_runs fuel a1 index false) as (a' & E & _);
      try bounds; try lia. exists a'. exact E. }
  assert (Hmax : exists a', bubble_up_max fuel a1 index = Some a').
  { destruct (bubble_up_max_runs fuel a1 index) as (a' & E & _);
      try bounds; try lia. exists a'. exact E. }
  destruct Hb as (b & Eb), Hmin as (bm & Em), Hmax as (bM & EM).
  destruct (Hs b) as (sb & Esb), (Hs a1) as (sa & Esa).
  repeat match goal with
         | |- context [if ?c then _ else _] => destruct c
         end;
    rewrite ?Eb, ?Em, ?EM; cbv beta iota; rewrite ?Esb, ?Esa; discriminate.
Qed.

Lemma heap_remove_at_index_finishes fuel index a count :
  0 <= count < index_limit -> 0 <= index -> (Z.to_nat count <= fuel)%nat ->
  heap_remove_at_index fuel index a count <> Unfinished.
Proof.
  intros Hc Hi Hf. unfold heap_remove_at_index.
  destruct (Z.eqb_spec count 0); [discriminate|].
  destruct (Z.ltb_spec count index); [discriminate|].
  pose proof (heap_replace_at_index_finishes fuel (Elem (wrap (count - 1)))
                index a count Hc Hi Hf) as Hfin.
  destruct (heap_replace_at_index fuel (Elem (wrap (count - 1))) index a count);
    cbn [bind]; [discriminate|discriminate|contradiction].
Qed.

Lemma heap_remove_max_finishes fuel a count :
  0 <= count < index_limit -> (Z.to_nat count <= fuel)%nat ->
  heap_remove_max fuel a count <> Unfinished.
Proof.
  intros Hc Hf. unfold heap_remove_max.
  destruct (Z.eqb_spec count 0); [discriminate|]. cbv zeta.
  set (m2 := if fst (max_child a 0 (wrap (count - 1)))
             then snd (max_child a 0 (wrap (count - 1))) else 0).
  assert (Hm : 0 <= m2).
  { pose proof (max_slot_range a count ltac:(lia)) as R.
    unfold max_slot in R. fold m2 in R. lia. }
  pose proof (heap_remove_at_index_finishes fuel m2 a count Hc Hm Hf) as Hfin.
  destruct (heap_remove_at_index fuel m2 a count);
    cbn [bind]; [discriminate|discriminate|contradiction].
Qed.

Lemma heap_insert_circular_finishes fuel v a count max_size :
  0 <= count < index_limit -> (Z.to_nat count <= fuel)%nat ->
  heap_insert_circular fuel v a count max_size <> Unfinished.
Proof.
  intros Hc Hf. unfold heap_insert_circular.
  destruct (Z.eqb_spec count max_size) as [<-|N]; cbn [negb].
  - cbv zeta.
    set (m := if 1 <? count then snd (max_child a 0 (wrap (count - 1))) else 0).
    destruct (v <? rd a m); [|discriminate].
    destruct (Z.ltb_spec 1 count) as [H1|H1]; [|discriminate].
    rewrite pred_eq by bounds.
    assert (Hm : 0 <= m < index_limit).
    { pose proof (circular_slot a count ltac:(lia)) as E. fold m in E.
      destruct (Z.ltb_spec 1 count); [|lia].
      pose proof (max_slot_range a count ltac:(lia)). lia. }
    destruct (sift_down_runs fuel
                (if v <? rd (wr a m v) 0 then swap (wr a m v) 0 m else wr a m v)
                m (count - 1)) as (a' & E & _); try bounds; try lia.
    rewrite E. discriminate.
  - pose proof (heap_insert_finishes fuel v a count max_size Hc Hf) as Hfin.
    destruct (heap_insert fuel v a count max_size);
      cbn [bind]; [discriminate|discriminate|contradiction].
Qed.

(** C10: every loop ends. With a bound on the iterations that is at
    least the distance the index can still travel -- towards the
    leaves up to [right_index] for the sifts, towards the root for the
    bubbles, the size for [make_heap] and [is_heap] -- each repair
    primitive returns an array, and each public operation returns or
    throws, on every array and for every index and count the index
    arithmetic can address. *)
Theorem operations_terminate :
  (forall fuel a sift_index right_index,
     right_index < index_limit -> 0 <= sift_index <= right_index ->
     (Z.to_nat (right_index - sift_index) <= fuel)%nat ->
     (exists a', sift_down_min fuel a sift_index right_index = Some a') /\
     (exists a', sift_down_max fuel a sift_index right_index = Some a') /\
     (exists a', sift_down fuel a sift_index right_index = Some a')) /\
  (forall fuel a bubble_index,
     0 <= bubble_index < index_limit -> (Z.to_nat bubble_index <= fuel)%nat ->
     (exists a', bubble_up_min fuel a bubble_index = Some a') /\
     (exists a', bubble_up_max fuel a bubble_index = Some a') /\
     (exists a', bubble_up fuel a bubble_index = Some a')) /\
  (forall fuel a count value new_value index max_size,
     0 <= count < index_limit -> 0 <= index -> (Z.to_nat count <= fuel)%nat ->
     (exists a', make_heap fuel a count = Some a') /\
     (exists b, is_heap fuel a count = Some b) /\
     heap_insert fuel value a count max_size <> Unfinished /\
     heap_min a count <> Unfinished /\
     heap_max a count <> Unfinished /\
     heap_insert_circular fuel value a count max_size <> Unfinished /\
     heap_replace_at_index fuel new_value index a count <> Unfinished /\
     heap_remove_at_index fuel index a count <> Unfinished /\
     heap_remove_min fuel a count <> Unfinished /\
     heap_remove_max fuel a count <> Unfinished).
Proof.
  split; [|split].
  - intros fuel a i r Hr Hi Hf. split; [|split].
    + destruct (sift_down_min_runs r Hr fuel a i true) as (a' & E & _);
        auto; try lia. exists a'. exact E.
    + destruct (sift_down_max_runs fuel a i r) as (a' & E & _);
        auto; try lia. exists a'. exact E.
    + destruct (sift_down_runs fuel a i r) as (a' & E & _);
        auto; try lia. exists a'. exact E.
  - intros fuel a c Hc Hf.
    assert (Hw : 0 <= c < word_modulus) by bounds. split; [|split].
    + destruct (bubble_up_min_runs fuel a c false) as (a' & E & _); auto.
      exists a'. exact E.
    + destruct (bubble_up_max_runs fuel a c) as (a' & E & _); auto.
      exists a'. exact E.
    + destruct (bubble_up_runs fuel a c) as (a' & E & _); auto.
      exists a'. exact E.
  - intros fuel a count v nv index max_size Hc Hi Hf.
    split; [|split; [|split; [|split; [|split; [|split; [|split; [|split; [|split]]]]]]]].
    + destruct (make_heap_runs fuel a count) as (a' & E & _); auto; try lia.
      exists a'. exact E.
    + apply is_heap_runs; auto. lia.
    + apply heap_insert_finishes; auto.
    + unfold heap_min. destruct (count <? 1); discriminate.
    + unfold heap_max. destruct (count <? 1); discriminate.
    + apply heap_insert_circular_finishes; auto.
    + apply heap_replace_at_index_finishes; auto.
    + apply heap_remove_at_index_finishes; auto.
    + apply heap_remove_min_finishes; auto.
    + apply heap_remove_max_finishes; auto.
Qed.

Lemma operations_terminate_witness :
  (exists a', sift_down_min 6 [5; 1; 9; 3; 7; 2; 8] 0 6 = Some a') /\
  (exists a', sift_down_max 6 [5; 1; 9; 3; 7; 2; 8] 0 6 = Some a') /\
  (exists a', sift_down 6 [5; 1; 9; 3; 7; 2; 8] 0 6 = Some a').
Proof.
  apply (proj1 operations_terminate 6%nat [5; 1; 9; 3; 7; 2; 8] 0 6).
  - rewrite index_limit_val. lia.
  - lia.
  - simpl. lia.
Defined.

(** ** The public operations on a heap: values, counts and multisets *)

Lemma heap_root_is_scan_min a n :
  1 <= n <= Z.of_nat (length a) -> min_max_heap a n -> scan_min a n = rd a 0.
Proof.
  intros Hn H. apply scan_min_unique.
  - apply In_occupied; [lia|]. exists 0. split; [lia|reflexivity].
  - intros y Hy. apply In_occupied in Hy; [|lia].
    destruct Hy as (j & Hj & <-). apply (heap_root_least a n); auto.
Qed.

Lemma heap_max_slot_is_scan_max a n :
  1 <= n <= index_limit -> n <= Z.of_nat (length a) -> min_max_heap a n ->
  scan_max a n = rd a (max_slot a n).
Proof.
  intros Hn Hlen H. apply scan_max_unique.
  - apply In_occupied; [lia|]. exists (max_slot a n).
    split; [apply max_slot_range; lia|reflexivity].
  - intros y Hy. apply In_occupied in Hy; [|lia].
    destruct Hy as (j & Hj & <-). apply heap_max_slot_greatest; auto.
Qed.

Lemma heap_max_reads_slot a n :
  1 <= n -> heap_max a n = Return (rd a (max_slot a n)).
Proof.
  intros Hn. unfold heap_max, max_slot. destruct (Z.ltb_spec n 1); [lia|].
  destruct (fst (max_child a 0 (wrap (n - 1)))); reflexivity.
Qed.

(** X1: on a heap with room left, [heap_insert] returns with [count]
    advanced by one; the occupied slots then hold the former elements
    and the new value, form a heap again, and the slots beyond the new
    element are as before. *)
Theorem heap_insert_adds fuel value a count max_size :
  0 <= count < max_size -> max_size <= index_limit ->
  max_size <= Z.of_nat (length a) -> (Z.to_nat count < fuel)%nat ->
  is_heap fuel a count = Some true ->
  exists a',
    heap_insert fuel value a count max_size = Return (a', count + 1) /\
    is_heap fuel a' (count + 1) = Some true /\
    Permutation (occupied a' (count + 1)) (value :: occupied a count) /\
    length a' = length a /\
    forall j, count < j -> rd a' j = rd a j.
Proof.
  intros Hc Hm Hlen Hf Hh. apply is_heap_true_iff in Hh; [|lia|lia].
  destruct (heap_insert_ok fuel value a count max_size) as (a' & E & H & L & P & K);
    auto.
  exists a'. split; [exact E|]. split; [apply is_heap_true_iff; auto; lia|].
  auto.
Qed.

Lemma heap_insert_adds_witness :
  exists a',
    heap_insert 4 0 [2; 9; 5; 7] 3 4 = Return (a', 3 + 1) /\
    is_heap 4 a' (3 + 1) = Some true /\
    Permutation (occupied a' (3 + 1)) (0 :: occupied [2; 9; 5; 7] 3) /\
    length a' = length [2; 9; 5; 7] /\
    forall j, 3 < j -> rd a' j = rd [2; 9; 5; 7] j.
Proof.
  apply (heap_insert_adds 4 0 [2; 9; 5; 7] 3 4).
  - lia.
  - rewrite index_limit_val. lia.
  - simpl. lia.
  - simpl. lia.
  - vm_compute. reflexivity.
Defined.

(** X2: on a non-empty heap [heap_remove_min] returns the minimum of
    the occupied slots, the value [heap_min] reads; [count] drops by
    one and the remaining slots hold the former elements without one
    occurrence of it, again as a heap. *)
Theorem heap_remove_min_returns_min fuel a count :
  1 <= count <= index_limit -> count <= Z.of_nat (length a) ->
  (Z.to_nat count <= fuel)%nat -> is_heap fuel a count = Some true ->
  exists a',
    heap_remove_min fuel a count = Return (scan_min a count, a', count - 1) /\
    heap_min a count = Return (scan_min a count) /\
    Permutation (scan_min a count :: occupied a' (count - 1)) (occupied a count) /\
    is_heap fuel a' (count - 1) = Some true /\
    length a' = length a.
Proof.
  intros Hc Hlen Hf Hh. apply is_heap_true_iff in Hh; [|lia|lia].
  destruct (heap_remove_min_ok fuel a count) as (a' & E & H & L & P); auto.
  rewrite heap_root_is_scan_min by (auto; lia).
  exists a'. split; [exact E|]. split.
  - unfold heap_min. destruct (Z.ltb_spec count 1); [lia|reflexivity].
  - split; [exact P|]. split; [apply is_heap_true_iff; auto; lia|exact L].
Qed.

Lemma heap_remove_min_returns_min_witness :
  exists a',
    heap_remove_min 7 [1; 7; 9; 3; 5; 2; 8] 7
      = Return (scan_min [1; 7; 9; 3; 5; 2; 8] 7, a', 7 - 1) /\
    heap_min [1; 7; 9; 3; 5; 2; 8] 7 = Return (scan_min [1; 7; 9; 3; 5; 2; 8] 7) /\
    Permutation (scan_min [1; 7; 9; 3; 5; 2; 8] 7 :: occupied a' (7 - 1))
                (occupied [1; 7; 9; 3; 5; 2; 8] 7) /\
    is_heap 7 a' (7 - 1) = Some true /\
    length a' = length [1; 7; 9; 3; 5; 2; 8].
Proof.
  apply (heap_remove_min_returns_min 7 [1; 7; 9; 3; 5; 2; 8] 7).
  - rewrite index_limit_val. lia.
  - simpl. lia.
  - simpl. lia.
  - vm_compute. reflexivity.
Defined.

(** X3: on a non-empty heap [heap_remove_max] returns the maximum of
    the occupied slots, the value [heap_max] reads; [count] drops by
    one and the remaining slots hold the former elements without one
    occurrence of it, again as a heap. *)
Theorem heap_remove_max_returns_max fuel a count :
  1 <= count <= index_limit -> count <= Z.of_nat (length a) ->
  (Z.to_nat count <= fuel)%nat -> is_heap fuel a count = Some true ->
  exists a',
    heap_remove_max fuel a count = Return (scan_max a count, a', count - 1) /\
    heap_max a count = Return (scan_max a count) /\
    Permutation (scan_max a count :: occupied a' (count - 1)) (occupied a count) /\
    is_heap fuel a' (count - 1) = Some true /\
    length a' = length a.
Proof.
  intros Hc Hlen Hf Hh. apply is_heap_true_iff in Hh; [|lia|lia].
  destruct (heap_remove_max_ok fuel a count) as (a' & E & H & L & P); auto.
  rewrite heap_max_slot_is_scan_max by (auto; lia).
  exists a'. split; [exact E|]. split; [apply heap_max_reads_slot; lia|].
  split; [exact P|]. split; [apply is_heap_true_iff; auto; lia|exact L].
Qed.

Lemma heap_remove_max_returns_max_witness :
  exists a',
    heap_remove_max 7 [1; 7; 9; 3; 5; 2; 8] 7
      = Return (scan_max [1; 7; 9; 3; 5; 2; 8] 7, a', 7 - 1) /\
    heap_max [1; 7; 9; 3; 5; 2; 8] 7 = Return (scan_max [1; 7; 9; 3; 5; 2; 8] 7) /\
    Permutation (scan_max [1; 7; 9; 3; 5; 2; 8] 7 :: occupied a' (7 - 1))
                (occupied [1; 7; 9; 3; 5; 2; 8] 7) /\
    is_heap 7 a' (7 - 1) = Some true /\
    length a' = length [1; 7; 9; 3; 5; 2; 8].
Proof.
  apply (heap_remove_max_returns_max 7 [1; 7; 9; 3; 5; 2; 8] 7).
  - rewrite index_limit_val. lia.
  - simpl. lia.
  - simpl. lia.
  - vm_compute. reflexivity.
Defined.

(** X4: on a heap and for an index in the occupied range,
    [heap_replace_at_index] returns the value stored there; whether the
    new value is smaller or larger, the occupied slots then hold the
    former elements with the new value in place of one occurrence of
    the old one, again as a heap, and the slots beyond [count] are as
    before. *)
Theorem heap_replace_at_index_updates fuel value index a count :
  count <= index_limit -> 0 <= index < count -> count <= Z.of_nat (length a) ->
  (Z.to_nat count <= fuel)%nat -> is_heap fuel a count = Some true ->
  exists a',
    heap_replace_at_index fuel (Temp value) index a count
      = Return (rd a index, a') /\
    is_heap fuel a' count = Some true /\
    Permutation (rd a index :: occupied a' count) (value :: occupied a count) /\
    length a' = length a /\
    forall j, count <= j -> rd a' j = rd a j.
Proof.
  intros Hc Hi Hlen Hf Hh. apply is_heap_true_iff in Hh; [|lia|lia].
  destruct (heap_replace_at_index_ok fuel (Temp value) value index a count)
    as (a' & E & H & F & _); auto.
  { split; [reflexivity|exact I]. }
  exists a'. split; [exact E|]. split; [apply is_heap_true_iff; auto; lia|].
  split; [|split].
  - etransitivity; [|apply (occupied_wr_perm a count index value); lia].
    apply perm_skip. apply frame_occupied; [lia|exact F].
  - destruct F as (L & _). rewrite L. apply length_wr.
  - intros j Hj. destruct F as (_ & _ & K). rewrite K by lia.
    apply rd_wr_other; lia.
Qed.

Lemma heap_replace_at_index_updates_witness :
  exists a',
    heap_replace_at_index 7 (Temp 10) 3 [1; 7; 9; 3; 5; 2; 8] 7
      = Return (rd [1; 7; 9; 3; 5; 2; 8] 3, a') /\
    is_heap 7 a' 7 = Some true /\
    Permutation (rd [1; 7; 9; 3; 5; 2; 8] 3 :: occupied a' 7)
                (10 :: occupied [1; 7; 9; 3; 5; 2; 8] 7) /\
    length a' = length [1; 7; 9; 3; 5; 2; 8] /\
    forall j, 7 <= j -> rd a' j = rd [1; 7; 9; 3; 5; 2; 8] j.
Proof.
  apply (heap_replace_at_index_updates 7 10 3 [1; 7; 9; 3; 5; 2; 8] 7).
  - rewrite index_limit_val. lia.
  - lia.
  - simpl. lia.
  - simpl. lia.
  - vm_compute. reflexivity.
Defined.

(** X5: [is_heap] decides the min-max order. It answers [true] exactly
    when every index on a min level holds a value not above that of
    any of its descendants among the occupied slots and every index on
    a max level one not below; checking children and grandchildren
    only, as it does, is enough. *)
Theorem is_heap_decides_order fuel a count :
  0 <= count <= index_limit -> (Z.to_nat count <= fuel)%nat ->
  exists b,
    is_heap fuel a count = Some b /\
    (b = true <->
     forall k j, 0 <= k -> desc k j -> k <> j -> j < count ->
                 if min_level k then rd a k <= rd a j else rd a j <= rd a k) /\
    (b = true <->
     forall k j, 0 <= k -> is_child k j \/ is_gchild k j -> j < count ->
                 if min_level k then rd a k <= rd a j else rd a j <= rd a k).
Proof.
  intros Hc Hf. destruct (is_heap_spec fuel a count Hc Hf) as (b & E & Hb).
  assert (Hord : forall k j, 0 <= k -> desc k j -> j < count ->
            (ord true a k j <->
             if min_level k then rd a k <= rd a j else rd a j <= rd a k)).
  { intros k j Hk D L. pose proof (desc_le k j Hk D).
    unfold ord. rewrite min_level_lvl by bounds.
    destruct (lvl k); reflexivity. }
  exists b. split; [exact E|]. split.
  - rewrite Hb. unfold min_max_heap, heap_ok. split.
    + intros H k j Hk D N L. apply (proj1 (Hord k j Hk D L)). apply H; auto.
    + intros H k j Hk D N L. apply (proj2 (Hord k j Hk D L)). apply H; auto.
  - rewrite Hb. unfold min_max_heap. rewrite <- local_ok_heap_ok.
    unfold local_ok. split.
    + intros H k j Hk C L.
      assert (D : desc k j)
        by (destruct C; [apply desc_child|apply desc_gchild]; auto).
      apply (proj1 (Hord k j Hk D L)). apply H; auto.
    + intros H k j Hk C L.
      assert (D : desc k j)
        by (destruct C; [apply desc_child|apply desc_gchild]; auto).
      apply (proj2 (Hord k j Hk D L)). apply H; auto.
Qed.

Lemma is_heap_decides_order_witness :
  exists b,
    is_heap 7 [1; 7; 9; 3; 5; 2; 0] 7 = Some b /\
    (b = true <->
     forall k j, 0 <= k -> desc k j -> k <> j -> j < 7 ->
                 if min_level k
                 then rd [1; 7; 9; 3; 5; 2; 0] k <= rd [1; 7; 9; 3; 5; 2; 0] j
                 else rd [1; 7; 9; 3; 5; 2; 0] j <= rd [1; 7; 9; 3; 5; 2; 0] k) /\
    (b = true <->
     forall k j, 0 <= k -> is_child k j \/ is_gchild k j -> j < 7 ->
                 if min_level k
                 then rd [1; 7; 9; 3; 5; 2; 0] k <= rd [1; 7; 9; 3; 5; 2; 0] j
                 else rd [1; 7; 9; 3; 5; 2; 0] j <= rd [1; 7; 9; 3; 5; 2; 0] k).
Proof.
  apply (is_heap_decides_order 7 [1; 7; 9; 3; 5; 2; 0] 7).
  - rewrite index_limit_val. lia.
  - simpl. lia.
Defined.

(** ** The lookups and the navigation *)

Lemma min_child_none a i r :
  0 <= i < index_limit -> r < 2 * i + 1 -> min_child a i r = (false, 0).
Proof.
  intros Hi Hc. unfold min_child. rewrite left_eq by bounds.
  destruct (Z.leb_spec (2 * i + 1) r); [lia|reflexivity].
Qed.

(** X6: [min_child_or_gchild] and [max_child_or_gchild] report a
    result exactly when the left child is in range, and the index
    they return is then an in-range child or grandchild holding
    the smallest, respectively the largest, value among all in-range
    children and grandchildren. *)
Theorem child_or_gchild_extremal a i r :
  0 <= i < index_limit -> r < index_limit ->
  fst (min_child_or_gchild a i r) = (left i <=? r) /\
  fst (max_child_or_gchild a i r) = (left i <=? r) /\
  (left i <= r ->
   ((is_child i (snd (min_child_or_gchild a i r)) \/
     is_gchild i (snd (min_child_or_gchild a i r))) /\
    snd (min_child_or_gchild a i r) <= r) /\
   ((is_child i (snd (max_child_or_gchild a i r)) \/
     is_gchild i (snd (max_child_or_gchild a i r))) /\
    snd (max_child_or_gchild a i r) <= r) /\
   forall j, is_child i j \/ is_gchild i j -> j <= r ->
     rd a (snd (min_child_or_gchild a i r)) <= rd a j /\
     rd a j <= rd a (snd (max_child_or_gchild a i r))).
Proof.
  intros Hi Hr. rewrite max_child_or_gchild_neg. rewrite left_eq by bounds.
  destruct (Z.leb_spec (2 * i + 1) r) as [Hc|Hc].
  - destruct (min_child_or_gchild_spec a i r ltac:(lia) Hr Hc) as (E1 & C1 & L1 & M1).
    destruct (min_child_or_gchild_spec (neg a) i r ltac:(lia) Hr Hc)
      as (E2 & C2 & L2 & M2).
    split; [exact E1|]. split; [exact E2|]. intros _.
    split; [auto|]. split; [auto|]. intros j Hj Lj. split; [auto|].
    specialize (M2 j Hj Lj). rewrite !rd_neg in M2. lia.
  - unfold min_child_or_gchild. rewrite !min_child_none by lia.
    cbn [fst]. split; [reflexivity|]. split; [reflexivity|]. lia.
Qed.

Lemma child_or_gchild_extremal_witness :
  fst (min_child_or_gchild [5; 1; 9; 3; 7; 2; 8] 0 6) = (left 0 <=? 6) /\
  fst (max_child_or_gchild [5; 1; 9; 3; 7; 2; 8] 0 6) = (left 0 <=? 6) /\
  (left 0 <= 6 ->
   ((is_child 0 (snd (min_child_or_gchild [5; 1; 9; 3; 7; 2; 8] 0 6)) \/
     is_gchild 0 (snd (min_child_or_gchild [5; 1; 9; 3; 7; 2; 8] 0 6))) /\
    snd (min_child_or_gchild [5; 1; 9; 3; 7; 2; 8] 0 6) <= 6) /\
   ((is_child 0 (snd (max_child_or_gchild [5; 1; 9; 3; 7; 2; 8] 0 6)) \/
     is_gchild 0 (snd (max_child_or_gchild [5; 1; 9; 3; 7; 2; 8] 0 6))) /\
    snd (max_child_or_gchild [5; 1; 9; 3; 7; 2; 8] 0 6) <= 6) /\
   forall j, is_child 0 j \/ is_gchild 0 j -> j <= 6 ->
     rd [5; 1; 9; 3; 7; 2; 8] (snd (min_child_or_gchild [5; 1; 9; 3; 7; 2; 8] 0 6))
       <= rd [5; 1; 9; 3; 7; 2; 8] j /\
     rd [5; 1; 9; 3; 7; 2; 8] j
       <= rd [5; 1; 9; 3; 7; 2; 8]
             (snd (max_child_or_gchild [5; 1; 9; 3; 7; 2; 8] 0 6))).
Proof.
  apply (child_or_gchild_extremal [5; 1; 9; 3; 7; 2; 8] 0 6).
  - rewrite index_limit_val. lia.
  - rewrite index_limit_val. lia.
Defined.

(** X7: for a node inside the heap, [min_child] and [max_child] report
    a result exactly when some child is in range, and [min_gchild] and
    [max_gchild] exactly when some grandchild is in range although they
    test the first grandchild only; the index returned is then an
    in-range child, respectively grandchild, holding the extremal value
    among those in range. *)
Theorem child_and_gchild_lookups a i r :
  0 <= i <= r -> r < index_limit ->
  (fst (min_child a i r) = true <-> exists c, is_child i c /\ c <= r) /\
  (fst (max_child a i r) = true <-> exists c, is_child i c /\ c <= r) /\
  (fst (min_gchild a i r) = true <-> exists g, is_gchild i g /\ g <= r) /\
  (fst (max_gchild a i r) = true <-> exists g, is_gchild i g /\ g <= r) /\
  ((exists c, is_child i c /\ c <= r) ->
   is_child i (snd (min_child a i r)) /\ snd (min_child a i r) <= r /\
   is_child i (snd (max_child a i r)) /\ snd (max_child a i r) <= r /\
   forall c, is_child i c -> c <= r ->
     rd a (snd (min_child a i r)) <= rd a c /\
     rd a c <= rd a (snd (max_child a i r))) /\
  ((exists g, is_gchild i g /\ g <= r) ->
   is_gchild i (snd (min_gchild a i r)) /\ snd (min_gchild a i r) <= r /\
   is_gchild i (snd (max_gchild a i r)) /\ snd (max_gchild a i r) <= r /\
   forall g, is_gchild i g -> g <= r ->
     rd a (snd (min_gchild a i r)) <= rd a g /\
     rd a g <= rd a (snd (max_gchild a i r))).
Proof.
  intros Hi Hr. rewrite max_child_neg, max_gchild_neg.
  assert (Hc : forall x, (fst (min_child x i r) = true <->
                          exists c, is_child i c /\ c <= r)).
  { intros x. destruct (Z_le_dec (2 * i + 1) r) as [L|L].
    - destruct (min_child_spec x i r ltac:(lia) Hr L) as (E & C & Lc & _).
      rewrite E. cbn [fst]. split; [intros _; eauto|reflexivity].
    - rewrite min_child_none by lia. cbn [fst]. split; [discriminate|].
      intros (c & C & Lc). unfold is_child in C. lia. }
  assert (Hg : forall x, (fst (min_gchild x i r) = true <->
                          exists g, is_gchild i g /\ g <= r)).
  { intros x. destruct (Z_le_dec (4 * i + 3) r) as [L|L].
    - destruct (min_gchild_spec x i r ltac:(lia) Hr L) as (E & G & Lg & _).
      rewrite E. split; [intros _; eauto|reflexivity].
    - rewrite min_gchild_none by lia. split; [discriminate|].
      intros (g & G & Lg). unfold is_gchild in G. lia. }
  split; [apply Hc|]. split; [apply Hc|]. split; [apply Hg|]. split; [apply Hg|].
  split.
  - intros (c0 & C0 & L0).
    assert (L : 2 * i + 1 <= r) by (unfold is_child in C0; lia).
    destruct (min_child_spec a i r ltac:(lia) Hr L) as (_ & C1 & L1 & M1).
    destruct (min_child_spec (neg a) i r ltac:(lia) Hr L) as (_ & C2 & L2 & M2).
    repeat (split; [assumption|]). intros c C Lc. split; [auto|].
    specialize (M2 c C Lc). rewrite !rd_neg in M2. lia.
  - intros (g0 & G0 & L0).
    assert (L : 4 * i + 3 <= r) by (unfold is_gchild in G0; lia).
    destruct (min_gchild_spec a i r ltac:(lia) Hr L) as (_ & C1 & L1 & M1).
    destruct (min_gchild_spec (neg a) i r ltac:(lia) Hr L) as (_ & C2 & L2 & M2).
    repeat (split; [assumption|]). intros g G Lg. split; [auto|].
    specialize (M2 g G Lg). rewrite !rd_neg in M2. lia.
Qed.

Lemma child_and_gchild_lookups_witness :
  fst (min_gchild [5; 1; 9; 3; 7; 2; 8] 0 4) = true <->
  exists g, is_gchild 0 g /\ g <= 4.
Proof.
  apply (proj1 (proj2 (proj2 (child_and_gchild_lookups [5; 1; 9; 3; 7; 2; 8] 0 4
                                ltac:(lia) ltac:(rewrite index_limit_val; lia))))).
Defined.

(** X8: the navigation functions invert each other where no index
    overflows: the parent of either child and the grandparent of each
    grandchild of [i] is [i], children have a parent and grandchildren
    a grandparent, and every index but the root is the left or the
    right child of its parent, which lies before it. *)
Theorem navigation_round_trip i :
  0 <= i < index_limit - 1 ->
  parent (left i) = i /\ parent (right i) = i /\
  gparent (left (left i)) = i /\ gparent (right (left i)) = i /\
  gparent (left (right i)) = i /\ gparent (right (right i)) = i /\
  has_parent (left i) = true /\ has_parent (right i) = true /\
  has_gparent (left (left i)) = true /\ has_gparent (right (right i)) = true /\
  child i (left i) = true /\ child i (right i) = true /\
  (0 < i ->
   (i = left (parent i) \/ i = right (parent i)) /\ 0 <= parent i < i /\
   child (parent i) i = true) /\
  (has_gparent i = true -> 0 <= gparent i < parent i).
Proof.
  intros Hi.
  assert (El : left i = 2 * i + 1) by (apply left_eq; bounds).
  assert (Er : right i = 2 * i + 2) by (apply right_eq; bounds).
  assert (Ell : left (left i) = 4 * i + 3) by (rewrite El, left_eq by bounds; lia).
  assert (Erl : right (left i) = 4 * i + 4) by (rewrite El, right_eq by bounds; lia).
  assert (Elr : left (right i) = 4 * i + 5) by (rewrite Er, left_eq by bounds; lia).
  assert (Err : right (right i) = 4 * i + 6) by (rewrite Er, right_eq by bounds; lia).
  assert (Pl : parent (2 * i + 1) = i) by (apply parent_left; lia).
  assert (Pr : parent (2 * i + 2) = i) by (apply parent_right; lia).
  assert (Pll : parent (4 * i + 3) = 2 * i + 1)
    by (rewrite parent_eq by bounds; symmetry;
        apply (Z.div_unique _ 2 _ 0); lia).
  assert (Prl : parent (4 * i + 4) = 2 * i + 1)
    by (rewrite parent_eq by bounds; symmetry;
        apply (Z.div_unique _ 2 _ 1); lia).
  assert (Plr : parent (4 * i + 5) = 2 * i + 2)
    by (rewrite parent_eq by bounds; symmetry;
        apply (Z.div_unique _ 2 _ 0); lia).
  assert (Prr : parent (4 * i + 6) = 2 * i + 2)
    by (rewrite parent_eq by bounds; symmetry;
        apply (Z.div_unique _ 2 _ 1); lia).
  unfold gparent, has_parent, has_gparent, child.
  rewrite Ell, Erl, Elr, Err, El, Er, Pll, Prl, Plr, Prr, Pl, Pr.
  rewrite !Z.eqb_refl, orb_true_r.
  repeat (split; [reflexivity || (apply Z.ltb_lt; lia)|]).
  split.
  - intros H0. rewrite parent_eq by bounds.
    pose proof (is_child_parent i H0) as C.
    assert (B : 0 <= (i - 1) / 2 < i) by (destruct C; lia).
    rewrite left_eq, right_eq by bounds.
    split; [destruct C; lia|]. split; [exact B|].
    apply orb_true_iff. rewrite !Z.eqb_eq. destruct C; lia.
  - intros H2. apply Z.ltb_lt in H2. rewrite (parent_eq i) by bounds.
    pose proof (is_child_parent i ltac:(lia)) as C.
    assert (B : 1 <= (i - 1) / 2 < i) by (destruct C; lia).
    rewrite parent_eq by bounds.
    pose proof (is_child_parent ((i - 1) / 2) ltac:(lia)) as C'.
    destruct C'; lia.
Qed.

Lemma navigation_round_trip_witness :
  parent (left 5) = 5 /\ parent (right 5) = 5 /\
  gparent (left (left 5)) = 5 /\ gparent (right (left 5)) = 5 /\
  gparent (left (right 5)) = 5 /\ gparent (right (right 5)) = 5 /\
  has_parent (left 5) = true /\ has_parent (right 5) = true /\
  has_gparent (left (left 5)) = true /\ has_gparent (right (right 5)) = true /\
  child 5 (left 5) = true /\ child 5 (right 5) = true /\
  (0 < 5 ->
   (5 = left (parent 5) \/ 5 = right (parent 5)) /\ 0 <= parent 5 < 5 /\
   child (parent 5) 5 = true) /\
  (has_gparent 5 = true -> 0 <= gparent 5 < parent 5).
Proof.
  apply (navigation_round_trip 5). rewrite index_limit_val. lia.
Defined.

(** X9: the levels alternate. Both children of an index lie on a level
    of the other kind, all four grandchildren on one of the same kind;
    accordingly the parent of an index lies on the other kind of level
    and its grandparent on the same kind, the root being on a min
    level. *)
Theorem levels_alternate i :
  0 <= i < index_limit - 1 ->
  min_level 0 = true /\
  min_level (left i) = negb (min_level i) /\
  min_level (right i) = negb (min_level i) /\
  min_level (left (left i)) = min_level i /\
  min_level (right (left i)) = min_level i /\
  min_level (left (right i)) = min_level i /\
  min_level (right (right i)) = min_level i /\
  (has_parent i = true -> min_level (parent i) = negb (min_level i)) /\
  (has_gparent i = true -> min_level (gparent i) = min_level i).
Proof.
  intros Hi.
  assert (El : left i = 2 * i + 1) by (apply left_eq; bounds).
  assert (Er : right i = 2 * i + 2) by (apply right_eq; bounds).
  assert (Ell : left (left i) = 4 * i + 3) by (rewrite El, left_eq by bounds; lia).
  assert (Erl : right (left i) = 4 * i + 4) by (rewrite El, right_eq by bounds; lia).
  assert (Elr : left (right i) = 4 * i + 5) by (rewrite Er, left_eq by bounds; lia).
  assert (Err : right (right i) = 4 * i + 6) by (rewrite Er, right_eq by bounds; lia).
  rewrite Ell, Erl, Elr, Err, El, Er.
  rewrite !min_level_lvl by bounds.
  split; [reflexivity|].
  split; [apply lvl_child; unfold is_child; lia|].
  split; [apply lvl_child; unfold is_child; lia|].
  split; [apply lvl_gchild; unfold is_gchild; lia|].
  split; [apply lvl_gchild; unfold is_gchild; lia|].
  split; [apply lvl_gchild; unfold is_gchild; lia|].
  split; [apply lvl_gchild; unfold is_gchild; lia|].
  unfold has_parent, has_gparent, gparent. split.
  - intros H0. apply Z.ltb_lt in H0. rewrite parent_eq by bounds.
    pose proof (is_child_parent i H0) as C.
    assert (B : 0 <= (i - 1) / 2 < i) by (destruct C; lia).
    rewrite min_level_lvl by bounds.
    rewrite (lvl_child ((i - 1) / 2) i) by (auto; lia).
    symmetry. apply negb_involutive.
  - intros H2. apply Z.ltb_lt in H2. rewrite (parent_eq i) by bounds.
    pose proof (is_child_parent i ltac:(lia)) as C.
    assert (B : 1 <= (i - 1) / 2 < i) by (destruct C; lia).
    rewrite parent_eq by bounds.
    pose proof (is_child_parent ((i - 1) / 2) ltac:(lia)) as C'.
    assert (B' : 0 <= ((i - 1) / 2 - 1) / 2 < i) by (destruct C'; lia).
    rewrite min_level_lvl by bounds. symmetry. apply lvl_gchild; [lia|].
    eapply child_of_child; eauto.
Qed.

Lemma levels_alternate_witness :
  min_level 0 = true /\
  min_level (left 5) = negb (min_level 5) /\
  min_level (right 5) = negb (min_level 5) /\
  min_level (left (left 5)) = min_level 5 /\
  min_level (right (left 5)) = min_level 5 /\
  min_level (left (right 5)) = min_level 5 /\
  min_level (right (right 5)) = min_level 5 /\
  (has_parent 5 = true -> min_level (parent 5) = negb (min_level 5)) /\
  (has_gparent 5 = true -> min_level (gparent 5) = min_level 5).
Proof.
  apply (levels_alternate 5). rewrite index_limit_val. lia.
Defined.

(** X10: each max variant is the min variant run on the negated array:
    the three max lookups return what the min lookups return there,
    and [sift_down_max] and [bubble_up_max] return the negation of what
    [sift_down_min] and [bubble_up_min] return there, for every array,
    index and iteration bound. *)
Theorem max_variants_mirror_min fuel a i r :
  max_child a i r = min_child (neg a) i r /\
  max_gchild a i r = min_gchild (neg a) i r /\
  max_child_or_gchild a i r = min_child_or_gchild (neg a) i r /\
  sift_down_max fuel a i r = option_map neg (sift_down_min fuel (neg a) i r) /\
  bubble_up_max fuel a i = option_map neg (bubble_up_min fuel (neg a) i) /\
  neg (neg a) = a.
Proof.
  split; [apply max_child_neg|]. split; [apply max_gchild_neg|].
  split; [apply max_child_or_gchild_neg|].
  split; [apply sift_down_max_neg|]. split; [apply bubble_up_max_neg|].
  apply neg_neg.
Qed.

(** ** The repair primitives on arbitrary arrays and on heaps *)

Lemma frame_refl keep a : frame keep a a.
Proof. split; [|split]; auto. Qed.

Lemma sift_down_min_frame r : r < index_limit -> forall fuel a i,
  0 <= i < index_limit -> r < Z.of_nat (length a) ->
  (Z.to_nat (r - i) <= fuel)%nat ->
  exists a', sift_down_min_loop fuel a i r true = Some a' /\
             frame (fun j => ~ desc i j \/ r < j) a a'.
Proof.
  intros Hr. induction fuel as [|fuel IH]; intros a i Hi Hlen Hf;
    cbn [sift_down_min_loop andb]; rewrite left_eq by bounds;
    destruct (Z.leb_spec (2 * i + 1) r) as [Hc|Hc];
    try (exists a; split; [reflexivity|apply frame_refl]).
  - lia.
  - destruct (min_child_or_gchild_spec a i r ltac:(lia) Hr Hc) as (_ & Hm & Hmr & _).
    set (m := snd (min_child_or_gchild a i r)) in *.
    destruct (child i m) eqn:Ec.
    + apply child_spec in Ec; [|lia].
      assert (Lm : i < m) by (destruct Ec; lia).
      destruct (rd a m <? rd a i); rewrite sift_down_min_loop_stop;
        eexists; (split; [reflexivity|]); [|apply frame_refl].
      split; [apply length_swap|]. split; [apply swap_perm; lia|].
      intros j Hj K. rewrite rd_swap by lia.
      destruct (Z.eqb_spec j i) as [->|];
        [destruct K as [K|K]; [exfalso; apply K; constructor|lia]|].
      destruct (Z.eqb_spec j m) as [->|];
        [destruct K as [K|K]; [exfalso; apply K; apply desc_child; auto|lia]|].
      reflexivity.
    + assert (Hg : is_gchild i m).
      { destruct Hm as [C|G]; auto. apply child_spec in C; [congruence|lia]. }
      destruct (Z.ltb_spec (rd a m) (rd a i)) as [Hlt|Hge];
        [|rewrite sift_down_min_loop_stop; eexists;
          split; [reflexivity|apply frame_refl]].
      destruct (gchild_swap_shape r Hr a i m ltac:(lia) ltac:(lia) Hg Hmr)
        as (H2 & L2 & P2).
      cbv zeta in H2, L2, P2. unfold after_gchild_swap in H2.
      set (a2 := if rd (swap a m i) (parent m) <? rd (swap a m i) m
                 then swap (swap a m i) m (parent m) else swap a m i) in *.
      destruct (gchild_parent_eq i m ltac:(lia) Hg) as (Hp & Hpm).
      set (p := (m - 1) / 2) in *.
      assert (Hb : i < p < m) by (destruct Hp, Hpm; lia).
      destruct (IH a2 m) as (a' & E & L' & P' & K'); try lia.
      exists a'. split; [exact E|]. split; [congruence|].
      split; [etransitivity; eauto|].
      intros j Hj K. transitivity (rd a2 j).
      * apply K'; [exact Hj|].
        destruct K as [K|K]; [left|right; exact K].
        intros D. apply K. eapply desc_trans; [apply desc_gchild; eauto|exact D].
      * rewrite H2 by lia.
        destruct (Z.eqb_spec j i) as [->|];
          [destruct K as [K|K]; [exfalso; apply K; constructor|lia]|].
        destruct (Z.eqb_spec j p) as [->|];
          [destruct K as [K|K]; [exfalso; apply K; apply desc_child; auto|lia]|].
        destruct (Z.eqb_spec j m) as [->|];
          [destruct K as [K|K]; [exfalso; apply K; apply desc_gchild; auto|lia]|].
        reflexivity.
Qed.

Lemma bubble_up_min_frame : forall fuel a c,
  0 <= c < Z.of_nat (length a) -> c < word_modulus -> (Z.to_nat c <= fuel)%nat ->
  exists a', bubble_up_min_loop fuel a c false = Some a' /\
             frame (fun j => ~ desc j c) a a'.
Proof.
  induction fuel as [|fuel IH]; intros a c Hc Hw Hf;
    cbn [bubble_up_min_loop negb andb]; unfold has_gparent;
    destruct (Z.ltb_spec 2 c) as [H2|H2];
    try (exists a; split; [reflexivity|apply frame_refl]).
  - lia.
  - rewrite gparent_eq by lia.
    pose proof (is_child_parent c ltac:(lia)) as Cp.
    pose proof (is_child_parent ((c - 1) / 2) ltac:(destruct Cp; lia)) as Cg.
    set (p := (c - 1) / 2) in *. set (g := (p - 1) / 2) in *.
    assert (Lg : 0 <= g < c) by (destruct Cp, Cg; lia).
    assert (Dg : desc g c) by (eapply desc_trans; apply desc_child; eauto).
    destruct (rd a c <? rd a g).
    + destruct (IH (swap a c g) g) as (a' & E & L & P & K);
        rewrite ?length_swap; try lia.
      exists a'. split; [exact E|]. split; [rewrite L; apply length_swap|].
      split; [etransitivity; [exact P|apply swap_perm; lia]|].
      intros j Hj Kj. transitivity (rd (swap a c g) j).
      * apply K; auto. intros D. apply Kj. eapply desc_trans; eauto.
      * rewrite rd_swap by lia.
        destruct (Z.eqb_spec j g) as [->|]; [exfalso; apply Kj; exact Dg|].
        destruct (Z.eqb_spec j c) as [->|]; [exfalso; apply Kj; constructor|].
        reflexivity.
    + rewrite bubble_up_min_loop_stop. exists a.
      split; [reflexivity|apply frame_refl].
Qed.

Lemma sift_down_min_noop pol fuel a i n :
  n <= index_limit -> 0 <= i < n -> lvl i = pol -> heap_ok pol a n ->
  (1 <= fuel)%nat -> sift_down_min fuel a i (n - 1) = Some a.
Proof.
  intros Hn Hi Hl H Hf. destruct fuel as [|fuel]; [lia|].
  unfold sift_down_min. cbn [sift_down_min_loop andb]. rewrite left_eq by bounds.
  destruct (Z.leb_spec (2 * i + 1) (n - 1)) as [Hc|Hc]; [|reflexivity].
  destruct (min_child_or_gchild_spec a i (n - 1) ltac:(lia) ltac:(lia) Hc)
    as (_ & Hm & Hmr & _).
  set (m := snd (min_child_or_gchild a i (n - 1))) in *.
  assert (Hle : rd a i <= rd a m).
  { assert (D : desc i m) by (destruct Hm; [apply desc_child|apply desc_gchild]; auto).
    specialize (H i m ltac:(lia) D ltac:(unfold is_child, is_gchild in Hm; lia)
                  ltac:(lia)).
    unfold ord in H. rewrite Hl, Bool.eqb_reflx in H. exact H. }
  destruct (Z.ltb_spec (rd a m) (rd a i)); [lia|].
  destruct (child i m); apply sift_down_min_loop_stop.
Qed.

Lemma parent_not_below pol a c n :
  0 < c < n -> lvl c = pol -> heap_ok pol a n -> rd a c <= rd a ((c - 1) / 2).
Proof.
  intros Hc Hl H.
  pose proof (is_child_parent c ltac:(lia)) as Cp.
  set (p := (c - 1) / 2) in *.
  assert (Lp : 0 <= p < c) by (destruct Cp; lia).
  specialize (H p c ltac:(lia) (desc_child _ _ Cp) ltac:(lia) ltac:(lia)).
  unfold ord in H. rewrite (lvl_child p c) in Hl by (auto; lia).
  rewrite <- Hl in H.
  replace (Bool.eqb (lvl p) (negb (lvl p))) with false in H
    by (destruct (lvl p); reflexivity).
  exact H.
Qed.

Lemma bubble_up_from_min_noop pol fuel a c n :
  n <= index_limit -> 0 <= c < n -> lvl c = pol -> heap_ok pol a n ->
  (1 <= fuel)%nat -> bubble_up_from_min fuel a c = Some a.
Proof.
  intros Hn Hc Hl H Hf. unfold bubble_up_from_min, has_parent.
  assert (Hb : bubble_up_min fuel a c = Some a).
  { destruct fuel as [|fuel]; [lia|].
    unfold bubble_up_min. cbn [bubble_up_min_loop negb andb]. unfold has_gparent.
    destruct (Z.ltb_spec 2 c) as [H2|H2]; [|reflexivity].
    rewrite gparent_eq by bounds.
    pose proof (is_child_parent c ltac:(lia)) as Cp.
    pose proof (is_child_parent ((c - 1) / 2) ltac:(destruct Cp; lia)) as Cg.
    set (p := (c - 1) / 2) in *. set (g := (p - 1) / 2) in *.
    assert (Lg : 0 <= g < c) by (destruct Cp, Cg; lia).
    assert (G : is_gchild g c) by (eapply child_of_child; eauto).
    specialize (H g c ltac:(lia) (desc_gchild _ _ G) ltac:(lia) ltac:(lia)).
    unfold ord in H. rewrite (lvl_gchild g c) in Hl by (auto; lia).
    rewrite Hl, Bool.eqb_reflx in H.
    destruct (Z.ltb_spec (rd a c) (rd a g)); [lia|].
    apply bubble_up_min_loop_stop. }
  destruct (Z.ltb_spec 0 c) as [H0|H0]; cbn [andb]; [|exact Hb].
  rewrite parent_eq by bounds.
  pose proof (parent_not_below pol a c n ltac:(lia) Hl H).
  destruct (Z.ltb_spec (rd a ((c - 1) / 2)) (rd a c)); [lia|exact Hb].
Qed.

Lemma sift_down_noop fuel a i n :
  n <= index_limit -> 0 <= i < n -> min_max_heap a n -> (1 <= fuel)%nat ->
  sift_down fuel a i (n - 1) = Some a.
Proof.
  intros Hn Hi H Hf. unfold sift_down. rewrite min_level_lvl by bounds.
  destruct (lvl i) eqn:Hl.
  - apply (sift_down_min_noop true); auto.
  - rewrite sift_down_max_neg.
    rewrite (sift_down_min_noop false fuel (neg a) i n); auto.
    + cbn [oneg option_map]. rewrite neg_neg. reflexivity.
    + apply heap_ok_neg. exact H.
Qed.

Lemma bubble_up_noop fuel a c n :
  n <= index_limit -> 0 <= c < n -> min_max_heap a n -> (1 <= fuel)%nat ->
  bubble_up fuel a c = Some a.
Proof.
  intros Hn Hc H Hf. rewrite bubble_up_dispatch. rewrite min_level_lvl by bounds.
  destruct (lvl c) eqn:Hl.
  - apply (bubble_up_from_min_noop true fuel a c n); auto.
  - rewrite (bubble_up_from_min_noop false fuel (neg a) c n); auto.
    + cbn [oneg option_map]. rewrite neg_neg. reflexivity.
    + apply heap_ok_neg. exact H.
Qed.

Lemma make_heap_loop_noop inner a n :
  n <= index_limit -> min_max_heap a n -> (1 <= inner)%nat ->
  forall fuel c, 0 <= c < n -> (Z.to_nat c < fuel)%nat ->
  make_heap_loop fuel inner a c n false = Some a.
Proof.
  intros Hn H Hin. induction fuel as [|fuel IH]; intros c Hc Hf; [lia|].
  cbn [make_heap_loop negb]. rewrite pred_eq by bounds.
  rewrite sift_down_noop by auto.
  destruct (Z.eqb_spec c 0) as [->|Nc].
  - destruct fuel; reflexivity.
  - rewrite pred_eq by bounds. apply IH; lia.
Qed.

Lemma replace_from_min_same pol fuel a index n :
  n <= index_limit -> 0 <= index < n -> lvl index = pol -> heap_ok pol a n ->
  (1 <= fuel)%nat ->
  replace_from_min fuel a (rd a index) (rd a index) index (n - 1) = Some a.
Proof.
  intros Hn Hi Hl H Hf. unfold replace_from_min.
  rewrite Z.ltb_irrefl. unfold has_parent.
  pose proof (sift_down_min_noop pol fuel a index n Hn Hi Hl H Hf) as Hs.
  destruct (Z.ltb_spec 0 index) as [H0|H0]; cbn [andb]; [|exact Hs].
  rewrite parent_eq by bounds.
  pose proof (parent_not_below pol a index n ltac:(lia) Hl H).
  destruct (Z.ltb_spec (rd a ((index - 1) / 2)) (rd a index)); [lia|exact Hs].
Qed.

(** X11: on any array, heap or not, [sift_down] from [sift_index] up to
    [right_index] returns within [right_index - sift_index] iterations;
    the result has the same length and the same multiset of values,
    and differs from the input only in slots of the subtree of
    [sift_index] that are not beyond [right_index]. *)
Theorem sift_down_changes_subtree_only fuel a sift_index right_index :
  0 <= sift_index < index_limit -> right_index < index_limit ->
  right_index < Z.of_nat (length a) ->
  (Z.to_nat (right_index - sift_index) <= fuel)%nat ->
  exists a', sift_down fuel a sift_index right_index = Some a' /\
    length a' = length a /\ Permutation a' a /\
    forall j, 0 <= j -> ~ desc sift_index j \/ right_index < j -> rd a' j = rd a j.
Proof.
  intros Hi Hr Hlen Hf. unfold sift_down. destruct (min_level sift_index).
  - apply (sift_down_min_frame right_index Hr fuel a sift_index); auto.
  - rewrite sift_down_max_neg.
    destruct (sift_down_min_frame right_index Hr fuel (neg a) sift_index)
      as (a' & E & F); auto.
    + rewrite length_neg. exact Hlen.
    + unfold sift_down_min. rewrite E. exists (neg a'). split; [reflexivity|].
      apply frame_neg in F. exact F.
Qed.

Lemma sift_down_changes_subtree_only_witness :
  exists a', sift_down 5 [9; 1; 8; 4; 7; 3; 2] 1 5 = Some a' /\
    length a' = length [9; 1; 8; 4; 7; 3; 2] /\
    Permutation a' [9; 1; 8; 4; 7; 3; 2] /\
    forall j, 0 <= j -> ~ desc 1 j \/ 5 < j ->
              rd a' j = rd [9; 1; 8; 4; 7; 3; 2] j.
Proof.
  apply (sift_down_changes_subtree_only 5 [9; 1; 8; 4; 7; 3; 2] 1 5).
  - rewrite index_limit_val. lia.
  - rewrite index_limit_val. lia.
  - simpl. lia.
  - simpl. lia.
Defined.

(** X12: on any array, heap or not, [bubble_up] from [bubble_index]
    returns within [bubble_index] iterations; the result has the same
    length and the same multiset of values, and differs from the input
    only in [bubble_index] and its ancestors. *)
Theorem bubble_up_changes_ancestors_only fuel a bubble_index :
  0 <= bubble_index < Z.of_nat (length a) -> bubble_index < word_modulus ->
  (Z.to_nat bubble_index <= fuel)%nat ->
  exists a', bubble_up fuel a bubble_index = Some a' /\
    length a' = length a /\ Permutation a' a /\
    forall j, 0 <= j -> ~ desc j bubble_index -> rd a' j = rd a j.
Proof.
  intros Hc Hw Hf. set (c := bubble_index) in *.
  assert (Hmin : forall x i, 0 <= i <= c -> length x = length a -> desc i c ->
            exists a', bubble_up_min fuel x i = Some a' /\
                       frame (fun j => ~ desc j c) x a').
  { intros x i Hi Lx D.
    destruct (bubble_up_min_frame fuel x i) as (a' & E & F); try lia.
    exists a'. split; [exact E|]. apply (frame_weaken (fun j => ~ desc j i)); auto.
    intros j Kj Dj. apply Kj. eapply desc_trans; eauto. }
  assert (Hmax : forall x i, 0 <= i <= c -> length x = length a -> desc i c ->
            exists a', bubble_up_max fuel x i = Some a' /\
                       frame (fun j => ~ desc j c) x a').
  { intros x i Hi Lx D. rewrite bubble_up_max_neg.
    destruct (Hmin (neg x) i Hi) as (a' & E & F); auto.
    - rewrite length_neg. exact Lx.
    - rewrite E. exists (neg a'). split; [reflexivity|]. apply frame_neg. exact F. }
  assert (Hp : 0 < c -> 0 <= parent c < c /\ desc (parent c) c).
  { intros H0. rewrite parent_eq by lia.
    pose proof (is_child_parent c H0) as C.
    split; [destruct C; lia|apply desc_child; exact C]. }
  assert (Hsw : 0 < c -> frame (fun j => ~ desc j c) a (swap a c (parent c))).
  { intros H0. destruct (Hp H0) as (Lp & Dp).
    split; [apply length_swap|]. split; [apply swap_perm; lia|].
    intros j Hj Kj. rewrite rd_swap by lia.
    destruct (Z.eqb_spec j (parent c)) as [->|]; [exfalso; apply Kj; exact Dp|].
    destruct (Z.eqb_spec j c) as [->|]; [exfalso; apply Kj; constructor|].
    reflexivity. }
  assert (Hself : desc c c) by constructor.
  unfold bubble_up, has_parent.
  destruct (min_level c); destruct (Z.ltb_spec 0 c) as [H0|H0]; cbn [andb];
    try (apply Hmin; auto; lia); try (apply Hmax; auto; lia).
  - destruct (rd a (parent c) <? rd a c); [|apply Hmin; auto; lia].
    destruct (Hp H0) as (Lp & Dp).
    destruct (Hmax (swap a c (parent c)) (parent c)) as (a' & E & F);
      auto; try lia; [apply length_swap|].
    exists a'. split; [exact E|].
    apply (frame_trans (fun j => ~ desc j c) (fun j => ~ desc j c)
                       (fun j => ~ desc j c) a (swap a c (parent c)) a'); auto.
  - destruct (rd a c <? rd a (parent c)); [|apply Hmax; auto; lia].
    destruct (Hp H0) as (Lp & Dp).
    destruct (Hmin (swap a c (parent c)) (parent c)) as (a' & E & F);
      auto; try lia; [apply length_swap|].
    exists a'. split; [exact E|].
    apply (frame_trans (fun j => ~ desc j c) (fun j => ~ desc j c)
                       (fun j => ~ desc j c) a (swap a c (parent c)) a'); auto.
Qed.

Lemma bubble_up_changes_ancestors_only_witness :
  exists a', bubble_up 6 [5; 9; 8; 4; 7; 3; 1] 6 = Some a' /\
    length a' = length [5; 9; 8; 4; 7; 3; 1] /\
    Permutation a' [5; 9; 8; 4; 7; 3; 1] /\
    forall j, 0 <= j -> ~ desc j 6 -> rd a' j = rd [5; 9; 8; 4; 7; 3; 1] j.
Proof.
  apply (bubble_up_changes_ancestors_only 6 [5; 9; 8; 4; 7; 3; 1] 6).
  - simpl. lia.
  - rewrite word_modulus_val. lia.
  - simpl. lia.
Defined.

(** X13: the step of the bottom-up construction. When every index
    after [i] is in order with its descendants among the first [n]
    slots, [sift_down] from [i] over these slots returns an array in
    which every index from [i] on is; it permutes the array and changes
    only slots of the subtree of [i] among the first [n]. *)
Theorem sift_down_extends_order fuel a n i :
  n <= index_limit -> 0 <= i < n -> n <= Z.of_nat (length a) ->
  (Z.to_nat n <= fuel)%nat ->
  (forall k j, i + 1 <= k -> desc k j -> k <> j -> j < n -> ord true a k j) ->
  exists a', sift_down fuel a i (n - 1) = Some a' /\
    (forall k j, i <= k -> desc k j -> k <> j -> j < n -> ord true a' k j) /\
    length a' = length a /\ Permutation a' a /\
    forall j, 0 <= j -> ~ desc i j \/ n <= j -> rd a' j = rd a j.
Proof.
  intros Hn Hi Hlen Hf Hok.
  destruct (sift_down_extends fuel a n i Hn Hi Hlen Hok Hf) as (a' & E & T & F).
  exists a'. split; [exact E|]. split; [exact T|]. exact F.
Qed.

Lemma sift_down_extends_order_witness :
  exists a', sift_down 7 [6; 7; 9; 3; 5; 2; 8] 0 (7 - 1) = Some a' /\
    (forall k j, 0 <= k -> desc k j -> k <> j -> j < 7 -> ord true a' k j) /\
    length a' = length [6; 7; 9; 3; 5; 2; 8] /\
    Permutation a' [6; 7; 9; 3; 5; 2; 8] /\
    forall j, 0 <= j -> ~ desc 0 j \/ 7 <= j ->
              rd a' j = rd [6; 7; 9; 3; 5; 2; 8] j.
Proof.
  apply (sift_down_extends_order 7 [6; 7; 9; 3; 5; 2; 8] 7 0).
  - rewrite index_limit_val. lia.
  - lia.
  - simpl. lia.
  - simpl. lia.
  - assert (H : min_max_heap [1; 7; 9; 3; 5; 2; 8] 7).
    { apply (is_heap_true_iff 7); [rewrite index_limit_val; lia|simpl; lia|].
      vm_compute. reflexivity. }
    intros k j Hk D N L. pose proof (desc_le k j ltac:(lia) D) as Lk.
    apply (ord_ext true [1; 7; 9; 3; 5; 2; 8]).
    + apply (rd_wr_other [1; 7; 9; 3; 5; 2; 8] 0 k 6); lia.
    + apply (rd_wr_other [1; 7; 9; 3; 5; 2; 8] 0 j 6); lia.
    + apply H; auto. lia.
Defined.

(** X14: one node out of order. When the first [n] slots are in
    min-max order except possibly between [i] and its descendants,
    [sift_down] from [i] returns a min-max heap on these slots, a
    permutation of the array that changes only slots of the subtree
    of [i] among the first [n]. *)
Theorem sift_down_repairs_one_node fuel a n i :
  n <= index_limit -> 0 <= i < n -> n <= Z.of_nat (length a) ->
  (Z.to_nat n <= fuel)%nat ->
  (forall k j, 0 <= k -> k <> i -> desc k j -> k <> j -> j < n -> ord true a k j) ->
  exists a', sift_down fuel a i (n - 1) = Some a' /\
    min_max_heap a' n /\ is_heap fuel a' n = Some true /\
    length a' = length a /\ Permutation a' a /\
    forall j, 0 <= j -> ~ desc i j \/ n <= j -> rd a' j = rd a j.
Proof.
  intros Hn Hi Hlen Hf Hok.
  destruct (sift_down_repairs fuel a n i Hn Hi Hlen) as (a' & E & H & F); auto.
  - intros k j Hk D N L. destruct (Z.eq_dec k i); [left; auto|right].
    apply Hok; auto.
  - exists a'. split; [exact E|]. split; [exact H|].
    split; [apply is_heap_true_iff; auto; lia|]. exact F.
Qed.

Lemma sift_down_repairs_one_node_witness :
  exists a', sift_down 7 [1; 4; 9; 3; 5; 2; 8] 1 (7 - 1) = Some a' /\
    min_max_heap a' 7 /\ is_heap 7 a' 7 = Some true /\
    length a' = length [1; 4; 9; 3; 5; 2; 8] /\
    Permutation a' [1; 4; 9; 3; 5; 2; 8] /\
    forall j, 0 <= j -> ~ desc 1 j \/ 7 <= j ->
              rd a' j = rd [1; 4; 9; 3; 5; 2; 8] j.
Proof.
  apply (sift_down_repairs_one_node 7 [1; 4; 9; 3; 5; 2; 8] 7 1).
  - rewrite index_limit_val. lia.
  - lia.
  - simpl. lia.
  - simpl. lia.
  - assert (H : min_max_heap [1; 7; 9; 3; 5; 2; 8] 7).
    { apply (is_heap_true_iff 7); [rewrite index_limit_val; lia|simpl; lia|].
      vm_compute. reflexivity. }
    intros k j Hk Nk D N L. pose proof (desc_le k j ltac:(lia) D) as Lk.
    destruct (Z.eq_dec j 1) as [->|Nj].
    + assert (k = 0) by lia. subst k. unfold ord. vm_compute. discriminate.
    + apply (ord_ext true [1; 7; 9; 3; 5; 2; 8]).
      * apply (rd_wr_other [1; 7; 9; 3; 5; 2; 8] 1 k 4); lia.
      * apply (rd_wr_other [1; 7; 9; 3; 5; 2; 8] 1 j 4); lia.
      * apply H; auto.
Defined.

(** X15: on a min-max heap the repairs find nothing to do: [sift_down]
    and [bubble_up] from any occupied index and [make_heap] over the
    occupied slots all return the array unchanged. *)
Theorem repairs_leave_heap_unchanged fuel a count i :
  0 <= count <= index_limit -> (Z.to_nat count <= fuel)%nat ->
  is_heap fuel a count = Some true -> 0 <= i < count ->
  sift_down fuel a i (count - 1) = Some a /\
  bubble_up fuel a i = Some a /\
  make_heap fuel a count = Some a.
Proof.
  intros Hn Hf Hh Hi. apply is_heap_true_iff in Hh; [|lia|exact Hf].
  split; [apply sift_down_noop; auto; lia|].
  split; [apply (bubble_up_noop fuel a i count); auto; lia|].
  unfold make_heap. destruct (Z.ltb_spec 1 count) as [H1|H1]; [|reflexivity].
  rewrite pred_eq by bounds. rewrite parent_eq by bounds.
  assert (Hp : 0 <= (count - 1 - 1) / 2 < count - 1).
  { split; [apply Z.div_pos; lia|]. apply Z.div_lt_upper_bound; lia. }
  apply make_heap_loop_noop; auto; lia.
Qed.

Lemma repairs_leave_heap_unchanged_witness :
  sift_down 7 [1; 7; 9; 3; 5; 2; 8] 0 (7 - 1) = Some [1; 7; 9; 3; 5; 2; 8] /\
  bubble_up 7 [1; 7; 9; 3; 5; 2; 8] 0 = Some [1; 7; 9; 3; 5; 2; 8] /\
  make_heap 7 [1; 7; 9; 3; 5; 2; 8] 7 = Some [1; 7; 9; 3; 5; 2; 8].
Proof.
  apply (repairs_leave_heap_unchanged 7 [1; 7; 9; 3; 5; 2; 8] 7 0).
  - rewrite index_limit_val. lia.
  - simpl. lia.
  - vm_compute. reflexivity.
  - lia.
Defined.

(** X16: in a min-max heap, replacing the value at an occupied index
    by the value it already holds returns that value and leaves the
    array as it was, and removing the last occupied slot returns its
    value and only lowers the count. *)
Theorem replace_same_and_remove_last fuel a count index :
  0 <= count <= index_limit -> count <= Z.of_nat (length a) ->
  (Z.to_nat count <= fuel)%nat ->
  is_heap fuel a count = Some true -> 0 <= index < count ->
  heap_replace_at_index fuel (Temp (rd a index)) index a count
    = Return (rd a index, a) /\
  heap_remove_at_index fuel (count - 1) a count
    = Return (rd a (count - 1), a, count - 1).
Proof.
  intros Hn Hlen Hf Hh Hi. apply is_heap_true_iff in Hh; [|lia|exact Hf].
  split.
  - rewrite replace_dispatch by lia. cbv zeta. cbn [deref].
    rewrite wr_same_value. rewrite pred_eq by bounds.
    rewrite min_level_lvl by bounds. destruct (lvl index) eqn:Hl.
    + rewrite (replace_from_min_same true fuel a index count
                 ltac:(lia) Hi Hl Hh ltac:(lia)).
      reflexivity.
    + rewrite <- (rd_neg a index).
      rewrite (replace_from_min_same false fuel (neg a) index count
                 ltac:(lia) Hi Hl (proj2 (heap_ok_neg false a count) Hh) ltac:(lia)).
      cbn [oneg option_map lift]. rewrite neg_neg. reflexivity.
  - unfold heap_remove_at_index.
    destruct (Z.eqb_spec count 0); [lia|].
    destruct (Z.ltb_spec count (count - 1)); [lia|].
    rewrite pred_eq by bounds.
    destruct (heap_replace_at_index_ok fuel (Elem (count - 1)) (rd a (count - 1))
                (count - 1) a count) as (a3 & E & _ & _ & _ & S); auto; try lia.
    + split; [reflexivity|lia].
    + rewrite E. cbn [bind fst snd].
      rewrite (S ltac:(lia) eq_refl). reflexivity.
Qed.

Lemma replace_same_and_remove_last_witness :
  heap_replace_at_index 7 (Temp (rd [1; 7; 9; 3; 5; 2; 8] 1)) 1
                        [1; 7; 9; 3; 5; 2; 8] 7
    = Return (rd [1; 7; 9; 3; 5; 2; 8] 1, [1; 7; 9; 3; 5; 2; 8]) /\
  heap_remove_at_index 7 (7 - 1) [1; 7; 9; 3; 5; 2; 8] 7
    = Return (rd [1; 7; 9; 3; 5; 2; 8] (7 - 1), [1; 7; 9; 3; 5; 2; 8], 7 - 1).
Proof.
  apply (replace_same_and_remove_last 7 [1; 7; 9; 3; 5; 2; 8] 7 1).
  - rewrite index_limit_val. lia.
  - simpl. lia.
  - simpl. lia.
  - vm_compute. reflexivity.
  - lia.
Defined.

(** ** Exceptions, streams of insertions and peeking after an insertion *)

Lemma lift_never_throws {A B : Type} (o : option A) (k : A -> outcome B) e :
  (forall x, k x <> Throw e) -> lift o k <> Throw e.
Proof. intros H. destruct o; cbn [lift]; [apply H|discriminate]. Qed.

Lemma bind_never_throws {A B : Type} (o : outcome A) (k : A -> outcome B) e :
  o <> Throw e -> (forall x, k x <> Throw e) -> bind o k <> Throw e.
Proof.
  intros Ho H. destruct o as [x|e'|]; cbn [bind]; [apply H| |discriminate].
  intros [= ->]. apply Ho. reflexivity.
Qed.

Lemma replace_never_throws fuel new_value index a count e :
  count <> 0 -> index <= count ->
  heap_replace_at_index fuel new_value index a count <> Throw e.
Proof.
  intros Hc Hi. unfold heap_replace_at_index.
  destruct (Z.eqb_spec count 0); [contradiction|].
  destruct (Z.ltb_spec count index); [lia|].
  cbv zeta. apply lift_never_throws. discriminate.
Qed.

Lemma remove_at_never_throws fuel index a count e :
  count <> 0 -> index <= count ->
  heap_remove_at_index fuel index a count <> Throw e.
Proof.
  intros Hc Hi. unfold heap_remove_at_index.
  destruct (Z.eqb_spec count 0); [contradiction|].
  destruct (Z.ltb_spec count index); [lia|].
  apply bind_never_throws; [apply replace_never_throws; auto|discriminate].
Qed.

Lemma heap_insert_never_throws fuel value a count max_size e :
  count < max_size -> heap_insert fuel value a count max_size <> Throw e.
Proof.
  intros Hc. unfold heap_insert. destruct (Z.ltb_spec count max_size); [|lia].
  cbv zeta. apply lift_never_throws. discriminate.
Qed.

Lemma max_slot_small a count :
  0 < count < word_modulus -> 0 <= max_slot a count <= count.
Proof.
  intros Hc. unfold max_slot. rewrite pred_eq by lia.
  rewrite max_child_neg. unfold min_child.
  change (left 0) with 1. change (right 0) with 2.
  destruct (Z.leb_spec 1 (count - 1)); cbn [fst snd]; [|lia].
  destruct (Z.leb_spec 2 (count - 1)); cbn [andb]; [|lia].
  destruct (rd (neg a) 2 <? rd (neg a) 1); lia.
Qed.

Lemma heap_insert_circular_below fuel v a count max_size :
  count < max_size ->
  heap_insert_circular fuel v a count max_size =
  bind (heap_insert fuel v a count max_size)
       (fun r => Return ((false, 0), fst r, snd r)).
Proof.
  intros Hc. unfold heap_insert_circular.
  destruct (Z.eqb_spec count max_size); [lia|]. reflexivity.
Qed.

Lemma insert_circular_all_ok fuel max_size :
  1 <= max_size <= index_limit -> (Z.to_nat max_size <= fuel)%nat ->
  forall values a count,
  max_size <= Z.of_nat (length a) -> 0 <= count <= max_size ->
  min_max_heap a count ->
  exists out a' count',
    insert_circular_all fuel values a count max_size = Return (out, a', count') /\
    count' = Z.min (count + Z.of_nat (length values)) max_size /\
    min_max_heap a' count' /\ length a' = length a /\
    Permutation (out ++ occupied a' count') (values ++ occupied a count) /\
    (forall x y, In x out -> In y (occupied a' count') -> y <= x) /\
    (forall b, count = max_size ->
       (forall y, In y (occupied a count) -> y <= b) ->
       forall y, In y (occupied a' count') -> y <= b).
Proof.
  intros Hm Hf. induction values as [|v rest IH]; intros a count Hlen Hc H.
  - exists [], a, count. cbn [insert_circular_all length app].
    split; [reflexivity|]. split; [lia|]. split; [exact H|].
    split; [reflexivity|]. split; [reflexivity|].
    split; [intros x y []|]. intros b _ Hb. exact Hb.
  - cbn [insert_circular_all]. destruct (Z.eq_dec count max_size) as [->|Nc].
    + assert (Hgr : forall y, In y (occupied a max_size) ->
                              y <= rd a (max_slot a max_size)).
      { intros y Hy. apply In_occupied in Hy; [|lia].
        destruct Hy as (j & Hj & <-). apply heap_max_slot_greatest; auto. }
      destruct (Z.le_gt_cases (rd a (max_slot a max_size)) v) as [Hv|Hv].
      * rewrite (heap_insert_circular_reject fuel v a max_size Hm Hv).
        cbn [bind fst snd].
        destruct (IH a max_size Hlen ltac:(lia) H)
          as (out & a' & count' & E & Ec & H' & L' & P & O & M).
        rewrite E. cbn [bind fst snd app].
        exists (v :: out), a', count'.
        split; [reflexivity|]. split; [cbn [length]; lia|]. split; [exact H'|].
        split; [exact L'|]. split; [|split].
        -- cbn [app]. apply perm_skip. exact P.
        -- intros x y [<-|Hx] Hy; [|apply O; auto].
           apply (M v eq_refl); auto. intros z Hz. specialize (Hgr z Hz). lia.
        -- exact M.
      * destruct (heap_insert_circular_evict fuel v a max_size Hm Hlen H
                    ltac:(lia) Hf) as (a1 & E1 & H1 & L1 & P1).
        rewrite E1. cbn [bind fst snd].
        destruct (IH a1 max_size ltac:(lia) ltac:(lia) H1)
          as (out & a' & count' & E & Ec & H' & L' & P & O & M).
        rewrite E. cbn [bind fst snd app].
        set (e := rd a (max_slot a max_size)) in *.
        assert (B1 : forall b, e <= b ->
                       forall y, In y (occupied a1 max_size) -> y <= b).
        { intros b Hb y Hy.
          assert (Hy' : In y (v :: occupied a max_size)).
          { apply (Permutation_in y P1). right. exact Hy. }
          destruct Hy' as [<-|Hy']; [lia|]. specialize (Hgr y Hy'). lia. }
        exists (e :: out), a', count'.
        split; [reflexivity|]. split; [cbn [length]; lia|]. split; [exact H'|].
        split; [congruence|]. split; [|split].
        -- cbn [app]. etransitivity; [apply perm_skip; exact P|].
           etransitivity; [apply Permutation_middle|].
           etransitivity; [apply Permutation_app_head; exact P1|].
           symmetry. apply Permutation_middle.
        -- intros x y [<-|Hx] Hy; [|apply O; auto].
           apply (M e eq_refl); auto. apply B1. lia.
        -- intros b _ Hb. apply (M b eq_refl). apply B1. apply Hb.
           apply In_occupied; [lia|]. exists (max_slot a max_size).
           split; [apply max_slot_range; lia|reflexivity].
    + rewrite heap_insert_circular_below by lia.
      destruct (heap_insert_ok fuel v a count max_size)
        as (a1 & E1 & H1 & L1 & P1 & _); auto; try lia.
      rewrite E1. cbn [bind fst snd].
      destruct (IH a1 (count + 1) ltac:(lia) ltac:(lia) H1)
        as (out & a' & count' & E & Ec & H' & L' & P & O & M).
      rewrite E. cbn [bind fst snd app].
      exists out, a', count'.
      split; [reflexivity|]. split; [cbn [length]; lia|]. split; [exact H'|].
      split; [congruence|]. split; [|split].
      * etransitivity; [exact P|].
        etransitivity; [apply Permutation_app_head; exact P1|].
        symmetry. apply Permutation_middle.
      * exact O.
      * intros b Hb. lia.
Qed.

(** X17: the exceptions of the public operations, for a [count] that
    fits a 64-bit word and any array. On an empty heap the two peeks,
    the two removals and the two by-index operations throw their own
    [runtime_error], whatever the index; on a non-empty heap the
    by-index operations throw the [range_error] for an index above
    [count]; [heap_insert] throws at [count >= max_size] and
    [heap_insert_circular] only at [count > max_size]. In every other
    case no operation throws: in particular [heap_remove_max] never
    raises the [range_error] of the by-index removal it calls. *)
Theorem exceptions_thrown fuel value new_value index a count max_size :
  0 <= count < word_modulus ->
  (count = 0 ->
   heap_min a count = Throw (runtime_error "Cannot get min value in empty heap.") /\
   heap_max a count = Throw (runtime_error "Cannot get max value in empty heap.") /\
   heap_remove_min fuel a count
     = Throw (runtime_error "Cannot remove from empty heap.") /\
   heap_remove_max fuel a count
     = Throw (runtime_error "Cannot remove from empty heap.") /\
   heap_replace_at_index fuel new_value index a count
     = Throw (runtime_error "Cannot replace value in empty heap.") /\
   heap_remove_at_index fuel index a count
     = Throw (runtime_error "Cannot remove value in empty heap.")) /\
  (0 < count -> count < index ->
   heap_replace_at_index fuel new_value index a count
     = Throw (range_error "Index beyond end of heap.") /\
   heap_remove_at_index fuel index a count
     = Throw (range_error "Index beyond end of heap.")) /\
  (max_size <= count ->
   heap_insert fuel value a count max_size
     = Throw (runtime_error "Cannot insert into heap - allocated size is full.")) /\
  (max_size < count ->
   heap_insert_circular fuel value a count max_size
     = Throw (runtime_error "Cannot insert into heap - allocated size is full.")) /\
  (0 < count -> forall e,
   heap_min a count <> Throw e /\ heap_max a count <> Throw e /\
   heap_remove_min fuel a count <> Throw e /\
   heap_remove_max fuel a count <> Throw e) /\
  (0 < count -> index <= count -> forall e,
   heap_replace_at_index fuel new_value index a count <> Throw e /\
   heap_remove_at_index fuel index a count <> Throw e) /\
  (count < max_size -> forall e,
   heap_insert fuel value a count max_size <> Throw e) /\
  (count <= max_size -> forall e,
   heap_insert_circular fuel value a count max_size <> Throw e).
Proof.
  intros Hc.
  split; [intros ->; repeat split; reflexivity|].
  split.
  { intros H0 Hi. unfold heap_remove_at_index, heap_replace_at_index.
    destruct (Z.eqb_spec count 0); [lia|].
    destruct (Z.ltb_spec count index); [|lia]. split; reflexivity. }
  split.
  { intros Hm. unfold heap_insert.
    destruct (Z.ltb_spec count max_size); [lia|reflexivity]. }
  split.
  { intros Hm. unfold heap_insert_circular, heap_insert.
    destruct (Z.eqb_spec count max_size); [lia|]. cbn [negb].
    destruct (Z.ltb_spec count max_size); [lia|reflexivity]. }
  split.
  { intros H0 e. unfold heap_min, heap_max, heap_remove_min.
    destruct (Z.ltb_spec count 1); [lia|].
    destruct (Z.eqb_spec count 0); [lia|].
    split; [discriminate|]. split; [discriminate|]. split.
    - cbv zeta. destruct (0 <? wrap (count - 1)); [|discriminate].
      apply lift_never_throws. discriminate.
    - unfold heap_remove_max. destruct (Z.eqb_spec count 0); [lia|].
      cbv zeta. apply bind_never_throws; [|discriminate].
      apply remove_at_never_throws; [lia|].
      pose proof (max_slot_small a count ltac:(lia)) as Hs.
      unfold max_slot in Hs. lia. }
  split.
  { intros H0 Hi e.
    split; [apply replace_never_throws|apply remove_at_never_throws]; lia. }
  split.
  { intros Hm e. apply heap_insert_never_throws. exact Hm. }
  intros Hm e. destruct (Z.eq_dec count max_size) as [E|N].
  - unfold heap_insert_circular. destruct (Z.eqb_spec count max_size); [|lia].
    cbn [negb]. cbv zeta.
    destruct (value <? _); [|discriminate].
    destruct (1 <? max_size); [|discriminate].
    apply lift_never_throws. discriminate.
  - rewrite heap_insert_circular_below by lia.
    apply bind_never_throws; [|discriminate].
    apply heap_insert_never_throws. lia.
Qed.

Lemma exceptions_thrown_witness :
  heap_replace_at_index 3 (Temp 4) 9 [1; 7; 9] 0
    = Throw (runtime_error "Cannot replace value in empty heap.") /\
  heap_remove_at_index 3 4 [1; 7; 9] 3
    = Throw (range_error "Index beyond end of heap.") /\
  forall e, heap_remove_max 3 [1; 7; 9] 3 <> Throw e.
Proof.
  split; [|split].
  - apply (exceptions_thrown 3 0 (Temp 4) 9 [1; 7; 9] 0 3
             ltac:(rewrite word_modulus_val; lia)). reflexivity.
  - apply (exceptions_thrown 3 0 (Temp 4) 4 [1; 7; 9] 3 3
             ltac:(rewrite word_modulus_val; lia)); lia.
  - intros e.
    apply (exceptions_thrown 3 0 (Temp 4) 4 [1; 7; 9] 3 3
             ltac:(rewrite word_modulus_val; lia)). lia.
Defined.

(** X18: a bounded queue of the smallest values. Feeding a list of
    values to [heap_insert_circular], starting from the empty heap of
    capacity [max_size], never throws; it leaves a heap holding
    [min (length values) max_size] elements; the values handed back
    together with the elements kept are exactly the values fed, every
    value handed back is at least as large as every element kept, and
    nothing is handed back before the heap is full. *)
Theorem insert_circular_keeps_smallest fuel values a max_size :
  1 <= max_size <= index_limit -> max_size <= Z.of_nat (length a) ->
  (Z.to_nat max_size <= fuel)%nat ->
  exists out a' count',
    insert_circular_all fuel values a 0 max_size = Return (out, a', count') /\
    count' = Z.min (Z.of_nat (length values)) max_size /\
    is_heap fuel a' count' = Some true /\
    Permutation (out ++ occupied a' count') values /\
    (forall x y, In x out -> In y (occupied a' count') -> y <= x) /\
    Z.of_nat (length out) = Z.max 0 (Z.of_nat (length values) - max_size).
Proof.
  intros Hm Hlen Hf.
  destruct (insert_circular_all_ok fuel max_size Hm Hf values a 0 Hlen ltac:(lia)
              (heap_ok_small true a 0 ltac:(lia)))
    as (out & a' & count' & E & Ec & H' & L' & P & O & _).
  assert (P' : Permutation (out ++ occupied a' count') values).
  { etransitivity; [exact P|]. unfold occupied at 1. cbn [Z.to_nat firstn].
    rewrite app_nil_r. reflexivity. }
  exists out, a', count'. split; [exact E|]. split; [lia|].
  split; [apply is_heap_true_iff; auto; lia|]. split; [exact P'|].
  split; [exact O|].
  apply Permutation_length in P'. rewrite length_app in P'.
  rewrite occupied_length in P' by lia. lia.
Qed.

Lemma insert_circular_keeps_smallest_witness :
  exists out a' count',
    insert_circular_all 3 [5; 2; 8; 1; 9; 3] [0; 0; 0] 0 3
      = Return (out, a', count') /\
    count' = Z.min (Z.of_nat (length [5; 2; 8; 1; 9; 3])) 3 /\
    is_heap 3 a' count' = Some true /\
    Permutation (out ++ occupied a' count') [5; 2; 8; 1; 9; 3] /\
    (forall x y, In x out -> In y (occupied a' count') -> y <= x) /\
    Z.of_nat (length out) = Z.max 0 (Z.of_nat (length [5; 2; 8; 1; 9; 3]) - 3).
Proof.
  apply (insert_circular_keeps_smallest 3 [5; 2; 8; 1; 9; 3] [0; 0; 0] 3).
  - rewrite index_limit_val. lia.
  - simpl. lia.
  - simpl. lia.
Defined.

(** X19: peeking after an insertion. After [heap_insert] of [value]
    into a heap with room left, [heap_min] returns the smaller of
    [value] and the former minimum and [heap_max] the larger of
    [value] and the former maximum; after an insertion into the empty
    heap both return [value]. *)
Theorem insert_then_peek fuel value a count max_size :
  0 <= count < max_size -> max_size <= index_limit ->
  max_size <= Z.of_nat (length a) -> (Z.to_nat count < fuel)%nat ->
  is_heap fuel a count = Some true ->
  exists a', heap_insert fuel value a count max_size = Return (a', count + 1) /\
    (count = 0 ->
     heap_min a' (count + 1) = Return value /\
     heap_max a' (count + 1) = Return value) /\
    (forall mn mx, heap_min a count = Return mn -> heap_max a count = Return mx ->
     heap_min a' (count + 1) = Return (Z.min value mn) /\
     heap_max a' (count + 1) = Return (Z.max value mx)).
Proof.
  intros Hc Hm Hlen Hf Hh. apply is_heap_true_iff in Hh; [|lia|lia].
  destruct (heap_insert_ok fuel value a count max_size Hc Hm Hlen Hh Hf)
    as (a' & E & H' & L' & P & _).
  exists a'. split; [exact E|].
  assert (Hmin' : heap_min a' (count + 1) = Return (rd a' 0)).
  { unfold heap_min. destruct (Z.ltb_spec (count + 1) 1); [lia|reflexivity]. }
  rewrite Hmin', (heap_max_reads_slot a' (count + 1)) by lia.
  pose proof (max_slot_range a' (count + 1) ltac:(lia)) as Rs.
  set (s := max_slot a' (count + 1)) in *.
  assert (In0 : In (rd a' 0) (value :: occupied a count)).
  { apply (Permutation_in _ P). apply In_occupied; [lia|].
    exists 0. split; [lia|reflexivity]. }
  assert (Ins : In (rd a' s) (value :: occupied a count)).
  { apply (Permutation_in _ P). apply In_occupied; [lia|].
    exists s. split; [lia|reflexivity]. }
  assert (Hall : forall y, In y (value :: occupied a count) ->
                           rd a' 0 <= y <= rd a' s).
  { intros y Hy. apply (Permutation_in _ (Permutation_sym P)) in Hy.
    apply In_occupied in Hy; [|lia]. destruct Hy as (j & Hj & <-). split.
    - apply (heap_root_least a' (count + 1)); auto.
    - apply heap_max_slot_greatest; auto. lia. }
  pose proof (Hall value ltac:(left; reflexivity)) as Hv.
  split.
  - intros ->. unfold occupied in In0, Ins. cbn [Z.to_nat firstn] in In0, Ins.
    destruct In0 as [<-|[]]. destruct Ins as [<-|[]]. split; reflexivity.
  - intros mn mx Emn Emx.
    assert (H1 : 1 <= count).
    { unfold heap_min in Emn. destruct (Z.ltb_spec count 1); [discriminate|lia]. }
    unfold heap_min in Emn. destruct (Z.ltb_spec count 1); [lia|].
    injection Emn as <-.
    rewrite (heap_max_reads_slot a count) in Emx by lia. injection Emx as <-.
    pose proof (max_slot_range a count ltac:(lia)) as Rt.
    set (t := max_slot a count) in *.
    assert (Old0 : In (rd a 0) (occupied a count)).
    { apply In_occupied; [lia|]. exists 0. split; [lia|reflexivity]. }
    assert (Oldt : In (rd a t) (occupied a count)).
    { apply In_occupied; [lia|]. exists t. split; [lia|reflexivity]. }
    pose proof (Hall _ (or_intror Old0)) as B0.
    pose proof (Hall _ (or_intror Oldt)) as Bt.
    split; f_equal.
    + destruct In0 as [Ev|I]; [lia|].
      apply In_occupied in I; [|lia]. destruct I as (j & Hj & Ej).
      pose proof (heap_root_least a count j Hh Hj) as Hg. lia.
    + destruct Ins as [Ev|I]; [lia|].
      apply In_occupied in I; [|lia]. destruct I as (j & Hj & Ej).
      pose proof (heap_max_slot_greatest a count j ltac:(lia) Hh Hj) as Hg.
      fold t in Hg. lia.
Qed.

Lemma insert_then_peek_witness :
  exists a', heap_insert 8 0 [1; 7; 9; 3; 5; 2; 8; 0] 7 8 = Return (a', 7 + 1) /\
    (7 = 0 ->
     heap_min a' (7 + 1) = Return 0 /\ heap_max a' (7 + 1) = Return 0) /\
    (forall mn mx, heap_min [1; 7; 9; 3; 5; 2; 8; 0] 7 = Return mn ->
                   heap_max [1; 7; 9; 3; 5; 2; 8; 0] 7 = Return mx ->
     heap_min a' (7 + 1) = Return (Z.min 0 mn) /\
     heap_max a' (7 + 1) = Return (Z.max 0 mx)).
Proof.
  apply (insert_then_peek 8 0 [1; 7; 9; 3; 5; 2; 8; 0] 7 8).
  - lia.
  - rewrite index_limit_val. lia.
  - simpl. lia.
  - simpl. lia.
  - vm_compute. reflexivity.
Defined.

(** X20: sorting with the heap. [make_heap] over the first [k] slots
    of any array, followed by [k] calls of [heap_remove_min], returns
    the [k] elements in non-decreasing order, and followed by [k] calls
    of [heap_remove_max] instead in non-increasing order; [make_heap]
    keeps the length of the array and the slots from [k] on. *)
Theorem make_heap_then_drain_sorted fuel a (k : nat) :
  Z.of_nat k <= index_limit -> Z.of_nat k <= Z.of_nat (length a) ->
  (k <= fuel)%nat ->
  exists a',
    make_heap fuel a (Z.of_nat k) = Some a' /\ length a' = length a /\
    (forall j, Z.of_nat k <= j -> rd a' j = rd a j) /\
    (exists out,
       drain (heap_remove_min fuel) k a' (Z.of_nat k) = Return out /\
       Permutation out (occupied a (Z.of_nat k)) /\ Sorted Z.le out) /\
    (exists out,
       drain (heap_remove_max fuel) k a' (Z.of_nat k) = Return out /\
       Permutation out (occupied a (Z.of_nat k)) /\ Sorted Z.ge out).
Proof.
  intros Hk Hlen Hf.
  destruct (make_heap_ok fuel a (Z.of_nat k)) as (a' & E & H & F); try lia.
  pose proof (frame_occupied a a' (Z.of_nat k) ltac:(lia) F) as P.
  destruct F as (L & _ & K).
  exists a'. split; [exact E|]. split; [exact L|].
  split; [intros j Hj; apply K; lia|]. split.
  - destruct (drain_min_ok fuel k a') as (out & Eo & Po & So); auto; try lia.
    exists out. split; [exact Eo|]. split; [|exact So].
    etransitivity; [exact Po|exact P].
  - destruct (drain_max_ok fuel k a') as (out & Eo & Po & So); auto; try lia.
    exists out. split; [exact Eo|]. split; [|exact So].
    etransitivity; [exact Po|exact P].
Qed.

Lemma make_heap_then_drain_sorted_witness :
  exists a',
    make_heap 6 [5; 2; 8; 1; 9; 3; 7] (Z.of_nat 6) = Some a' /\
    length a' = length [5; 2; 8; 1; 9; 3; 7] /\
    (forall j, Z.of_nat 6 <= j -> rd a' j = rd [5; 2; 8; 1; 9; 3; 7] j) /\
    (exists out,
       drain (heap_remove_min 6) 6 a' (Z.of_nat 6) = Return out /\
       Permutation out (occupied [5; 2; 8; 1; 9; 3; 7] (Z.of_nat 6)) /\
       Sorted Z.le out) /\
    (exists out,
       drain (heap_remove_max 6) 6 a' (Z.of_nat 6) = Return out /\
       Permutation out (occupied [5; 2; 8; 1; 9; 3; 7] (Z.of_nat 6)) /\
       Sorted Z.ge out).
Proof.
  apply (make_heap_then_drain_sorted 6 [5; 2; 8; 1; 9; 3; 7] 6).
  - rewrite index_limit_val. lia.
  - simpl. lia.
  - lia.
Defined.
